(** * geckos.io (media-forwarding fork): reliability ledger, candidate
      poller, readiness wait, track router and HTTP signalling.

    A shallow embedding of
    - [packages/client/src/geckos/channel.ts]   ([ClientChannel.on]),
    - the client connections manager            ([showBackOffIntervals]),
    - the server [WebRTCConnection]             ([setupStreams], [doOffer],
      [reconnect], [close], [waitUntilIceGatheringStateComplete]),
    - the server [HttpServer] request listener,
    together with the properties the specification states about them. *)

From Stdlib Require Import ZArith QArith Qround Qabs Qpower Lia Lqa Bool String Ascii.
From stdpp Require Import base option list strings gmap.

Local Open Scope string_scope.
Local Open Scope list_scope.
Local Open Scope Z_scope.

(** ** Values travelling over the data channel

    [bridge.on] hands the listener a value of type [any]: whatever
    [ParseMessage] produced.  Numbers are restricted to integers here; no
    claim below depends on fractional payloads. *)

#[warnings="-register-all"]
Inductive Data : Type :=
| DUndefined
| DNull
| DBool (b : bool)
| DNum (n : Z)
| DStr (s : string)
| DObj (fields : list (string * Data)).

(** JavaScript truthiness ([data && ...]). *)
Definition truthy (d : Data) : bool :=
  match d with
  | DUndefined | DNull => false
  | DBool b => b
  | DNum n => negb (n =? 0)
  | DStr s => negb (String.eqb s "")
  | DObj _ => true
  end.

Fixpoint lookup_field (k : string) (fields : list (string * Data)) : Data :=
  match fields with
  | [] => DUndefined
  | (k', v) :: rest => if String.eqb k k' then v else lookup_field k rest
  end.

(** Property access [d.k] on a truthy value.  Primitives have no own
    property named [RELIABLE], [ID] or [MESSAGE], so the access yields
    [undefined]. *)
Definition get (k : string) (d : Data) : Data :=
  match d with
  | DObj fields => lookup_field k fields
  | _ => DUndefined
  end.

(** Strict equality [===].  Primitives compare by value.  Objects compare
    by reference; every receipt is parsed into a fresh object, so two
    objects met by the listener are never the same reference. *)
Definition strict_eq (a b : Data) : bool :=
  match a, b with
  | DUndefined, DUndefined => true
  | DNull, DNull => true
  | DBool x, DBool y => Bool.eqb x y
  | DNum x, DNum y => x =? y
  | DStr x, DStr y => String.eqb x y
  | _, _ => false
  end.

(** ** Reliability ledger ([ClientChannel.on]) *)

Module Ledger.

(** One entry of [receivedReliableMessages]. *)
Record Msg : Type := mkMsg {
  id : Data;
  timestamp : Z;
  expire : Z
}.

(** The three clock reads of one listener run, in program order:
    [new Date().getTime()] inside [deleteExpiredReliableMessages], then
    [new Date()] and [new Date().getTime()] in the pushed record. *)
Record Clock : Type := mkClock {
  currentTime : Z;
  stampTime : Z;
  pushTime : Z
}.

(** A listener run that happens within one millisecond. *)
Definition at_time (t : Z) : Clock := mkClock t t t.

Definition expireTime : Z := 15000.

(** [const isReliableMessage = data && data.RELIABLE === 1 &&
    data.ID !== 'undefined'] *)
Definition isReliableMessage (data : Data) : bool :=
  truthy data
  && strict_eq (get "RELIABLE" data) (DNum 1)
  && negb (strict_eq (get "ID" data) (DStr "undefined")).

(** [receivedReliableMessages.forEach((msg, index, object) => { if
    (msg.expire <= currentTime) object.splice(index, 1) })].

    [forEach] fixes the number of iterations when it starts and visits
    the indices in increasing order, reading the array as it is at that
    moment; an index that is no longer present is skipped.  [splice]
    removes in place, shifting the tail to the left.  [forEach_from n k]
    runs the [n] remaining iterations starting at index [k]. *)
Fixpoint forEach_from (n k : nat) (now : Z) (object : list Msg) : list Msg :=
  match n with
  | O => object
  | S n' =>
      match object !! k with
      | Some msg =>
          if expire msg <=? now
          then forEach_from n' (S k) now (delete k object)
          else forEach_from n' (S k) now object
      | None => forEach_from n' (S k) now object
      end
  end.

Definition deleteExpiredReliableMessages (now : Z) (msgs : list Msg) : list Msg :=
  forEach_from (length msgs) 0 now msgs.

(** [receivedReliableMessages.filter(obj => obj.id === data.ID)] *)
Definition sameId (i : Data) (msgs : list Msg) : list Msg :=
  List.filter (fun obj => strict_eq (id obj) i) msgs.

(** One run of the listener installed by [on]: the new ledger and the
    argument the callback was invoked with, if it was invoked. *)
Definition listener (c : Clock) (data : Data) (msgs : list Msg)
  : list Msg * option Data :=
  if isReliableMessage data then
    let msgs1 := deleteExpiredReliableMessages (currentTime c) msgs in
    if (length (sameId (get "ID" data) msgs1) =? 0)%nat then
      (msgs1 ++ [mkMsg (get "ID" data) (stampTime c) (pushTime c + expireTime)],
       Some (get "MESSAGE" data))
    else
      (msgs1, None)
  else
    (msgs, Some data).

(** A receipt: what arrived and what the clock showed. *)
Definition Receipt : Type := Clock * Data.

(** The listener over a sequence of receipts: the final ledger and the
    callback invocations, oldest first. *)
Fixpoint run (rs : list Receipt) (msgs : list Msg) : list Msg * list Data :=
  match rs with
  | [] => (msgs, [])
  | (c, data) :: rest =>
      let '(msgs1, out) := listener c data msgs in
      let '(msgs2, outs) := run rest msgs1 in
      (msgs2, match out with Some d => d :: outs | None => outs end)
  end.

(** The envelope built by [emit] for a reliable send. *)
Definition envelope (message : Data) (i : Data) : Data :=
  DObj [("MESSAGE", message); ("RELIABLE", DNum 1); ("ID", i)].

Definition tracked (i : Data) (msgs : list Msg) : bool :=
  negb (length (sameId i msgs) =? 0)%nat.

(** [guarded i bound msgs]: the ledger holds an entry for [i] that does
    not expire before [bound]. *)
Definition guarded (i : Data) (bound : Z) (msgs : list Msg) : Prop :=
  exists x, x ∈ msgs /\ strict_eq (id x) i = true /\ bound <= expire x.

(** A value carrying [RELIABLE: 1] and the identifier [i]. *)
Definition reliableWith (i : Data) (data : Data) : Prop :=
  get "RELIABLE" data = DNum 1 /\ get "ID" data = i.

(** *** The pruning pass, seen as a recursion on the array

    A record removed at index [k] pulls its successor to index [k], and
    the pass goes on at [k + 1]: the successor is not examined. *)
Fixpoint pruneSkipping (now : Z) (msgs : list Msg) : list Msg :=
  match msgs with
  | [] => []
  | msg :: rest =>
      if expire msg <=? now then
        match rest with
        | [] => []
        | next :: rest' => next :: pruneSkipping now rest'
        end
      else msg :: pruneSkipping now rest
  end.

(** The records at the odd indices 1, 3, 5, ... *)
Fixpoint shielded (msgs : list Msg) : list Msg :=
  match msgs with
  | _ :: next :: rest => next :: shielded rest
  | _ => []
  end.

Definition expired (now : Z) (msg : Msg) : bool := expire msg <=? now.

(** Records in order of expiry. *)
Definition inOrder (msgs : list Msg) : Prop :=
  ForallOrdPairs (fun a b => expire a <= expire b) msgs.

(** No two records with strictly equal identifiers. *)
Definition distinctIds (msgs : list Msg) : Prop :=
  ForallOrdPairs (fun a b => strict_eq (id a) (id b) = false) msgs.

(** The clock never runs backwards, within a listener run and from one
    run to the next. *)
Fixpoint monotone (from : Z) (rs : list Receipt) : Prop :=
  match rs with
  | [] => True
  | (c, _) :: rest =>
      from <= currentTime c /\ currentTime c <= stampTime c
      /\ stampTime c <= pushTime c /\ monotone (pushTime c) rest
  end.

(** What the callback saw, receipt by receipt: [None] for a receipt that
    was dropped. *)
Fixpoint trace (rs : list Receipt) (msgs : list Msg) : list (option Data) :=
  match rs with
  | [] => []
  | (c, data) :: rest =>
      let '(msgs1, out) := listener c data msgs in
      out :: trace rest msgs1
  end.

End Ledger.

(** ** Candidate poller ([ConnectionsManagerClient.connect] and
       [ConnectionsManagerClient.reconnect]) *)

Module Poller.

Local Open Scope Q_scope.

(** *** Numbers

    A JavaScript number is an IEEE 754 binary64 value.  A finite one is
    kept as the rational it denotes; every arithmetic result is rounded
    to the nearest double, ties to even.  Infinities and NaN are left
    out: no number computed by [showBackOffIntervals()] comes near the
    overflow threshold. *)

(** The largest [e] with [2 ^ e <= x], for [0 < x]. *)
Definition ilog2 (x : Q) : Z :=
  let d := (Z.log2 (Qnum x) - Z.log2 (Z.pos (Qden x)))%Z in
  if Qle_bool (2 ^ d) x then d else (d - 1)%Z.

(** The nearest integer, the even one of two that are equally near. *)
Definition rne (y : Q) : Z :=
  let f := Qfloor y in
  match Qcompare (y - inject_Z f) (1 # 2) with
  | Lt => f
  | Gt => (f + 1)%Z
  | Eq => if Z.even f then f else (f + 1)%Z
  end.

(** A double near [x]: 53 significant bits, or a multiple of [2 ^ -1074]
    when [x] is below [2 ^ -1022]; [choose] picks the last bit. *)
Definition roundWith (choose : Q -> Z) (x : Q) : Q :=
  if Qeq_bool x 0 then 0
  else
    let e := Z.max (ilog2 (Qabs x) - 52) (-1074) in
    Qred (inject_Z (choose (x / 2 ^ e)) * 2 ^ e).

(** The double an exact result is rounded to. *)
Definition fl (x : Q) : Q := roundWith rne x.

Definition isDouble (x : Q) : Prop := fl x == x.

(** [base ** exponent] is "an implementation-approximated value" in the
    language standard, so the operator is a parameter, [pow] below.  It
    is faithful when it returns one of the two doubles that enclose the
    exact power, which is that power itself when it is a double. *)
Definition faithful (pow : Q -> nat -> Q) : Prop :=
  forall b k,
    pow b k = roundWith Qfloor (b ^ Z.of_nat k)
    \/ pow b k = roundWith Qceiling (b ^ Z.of_nat k).

(** *** [Number.prototype.toString] and [parseInt] *)

(** The largest [n] with [10 ^ n <= x], for [0 < x]: an estimate from
    the binary exponent that is at most two short, then corrected. *)
Fixpoint climb (fuel : nat) (n : Z) (x : Q) : Z :=
  match fuel with
  | O => n
  | S fuel' => if Qle_bool (10 ^ (n + 1)) x then climb fuel' (n + 1)%Z x else n
  end.

Definition ilog10 (x : Q) : Z :=
  climb 3 (ilog2 x * 1233 / 4096 - 1)%Z x.

(** [toString] writes the digits of the integer [s] with [k] digits for
    which [s * 10 ^ (n - k)] still reads back as [x], [k] as small as
    possible.  With [10 ^ (n0 - 1) <= x < 10 ^ n0], the integers with
    [k] digits next to [x] are these two. *)
Definition candidates (x : Q) (n0 k : Z) : list (Z * Z) :=
  let lo := Qfloor (x / 10 ^ (n0 - k)) in
  let hi := (lo + 1)%Z in
  [(lo, n0); if (hi =? 10 ^ k)%Z then ((10 ^ (k - 1))%Z, (n0 + 1)%Z) else (hi, n0)].

Definition decimal (k : Z) (c : Z * Z) : Q :=
  inject_Z (fst c) * 10 ^ (snd c - k).

Definition valid (x : Q) (k : Z) (c : Z * Z) : bool :=
  (10 ^ (k - 1) <=? fst c)%Z && (fst c <? 10 ^ k)%Z
  && Qeq_bool (fl (decimal k c)) x.

(** Of two that read back as [x], the nearer one. *)
Definition pick (x : Q) (k : Z) (cs : list (Z * Z)) : option (Z * Z) :=
  match cs with
  | [] => None
  | [a] => Some a
  | a :: b :: _ =>
      match Qcompare (Qabs (decimal k a - x)) (Qabs (decimal k b - x)) with
      | Lt => Some a
      | Gt => Some b
      | Eq => if Z.even (fst a) then Some a else Some b
      end
  end.

Fixpoint shortest (fuel : nat) (k : Z) (x : Q) (n0 : Z) : option (Z * Z * Z) :=
  match fuel with
  | O => None
  | S fuel' =>
      match pick x k (List.filter (valid x k) (candidates x n0 k)) with
      | Some (s, n) => Some (s, k, n)
      | None => shortest fuel' (k + 1)%Z x n0
      end
  end.

(** [(s, k, n)] for a double [0 < x].  Seventeen digits tell any two
    doubles apart, so the search ends with a result. *)
Definition digits (x : Q) : option (Z * Z * Z) :=
  shortest 17 1 x (ilog10 x + 1).

(** [parseInt(x.toString())] on a double [0 < x].  When [-6 < n <= 21]
    the text is plain decimal: the first [n] digits, or [0] when
    [n <= 0], come before the point and [parseInt] reads them; otherwise
    the text is in exponent form ([9.5e-7], [1e+21]) and [parseInt]
    stops after the first digit. *)
Definition parseInt_positive (x : Q) : Z :=
  match digits x with
  | Some (s, k, n) =>
      if ((-6 <? n) && (n <=? 21))%Z
      then (if (n <=? 0)%Z then 0%Z else Qfloor (inject_Z s * 10 ^ (n - k)))
      else (s / 10 ^ (k - 1))%Z
  | None => 0%Z
  end.

(** [0] prints as [0], a negative number with a minus sign in front. *)
Definition parseInt_toString (x : Q) : Z :=
  if Qeq_bool x 0 then 0%Z
  else if Qle_bool 0 x then parseInt_positive x
       else (- parseInt_positive (- x))%Z.

(** *** The schedule *)

(** [(attempts = 10, initial = 50, factor = 1.8, jitter = 20) =>
      Array(attempts).fill(0).map((_, index) =>
        parseInt((initial * factor ** index).toString()) +
        parseInt((Math.random() * jitter).toString()))].
    [random index] is the double [Math.random()] returns in the callback
    for [index].  The two integers added are far below [2 ^ 53], so
    their sum is exact. *)
Definition showBackOffIntervalsWith (pow : Q -> nat -> Q)
    (attempts : nat) (initial factor jitter : Q) (random : nat -> Q) : list Z :=
  List.map
    (fun index =>
       (parseInt_toString (fl (initial * pow factor index))
        + parseInt_toString (fl (random index * jitter)))%Z)
    (seq 0 attempts).

(** The call [showBackOffIntervals()]: every default applies; the
    literal [1.8] is the double nearest to it. *)
Definition showBackOffIntervals (pow : Q -> nat -> Q) (random : nat -> Q) : list Z :=
  showBackOffIntervalsWith pow 10 50 (fl (18 # 10)) 20 random.

(** A timer registered with [setTimeout(() =>
    this.fetchAdditionalCandidates(host, id), ms)]. *)
Record Timer : Type := mkTimer {
  delay : Z;
  host : string;
  connectionId : string
}.

(** [showBackOffIntervals().forEach(ms => { setTimeout(..., ms) })], as it
    stands in [connect] ... *)
Definition connect_poller (pow : Q -> nat -> Q) (random : nat -> Q) (h i : string)
  : list Timer :=
  List.map (fun ms => mkTimer ms h i) (showBackOffIntervals pow random).

(** ... and, with the same text, in [reconnect]. *)
Definition reconnect_poller (pow : Q -> nat -> Q) (random : nat -> Q) (h i : string)
  : list Timer :=
  List.map (fun ms => mkTimer ms h i) (showBackOffIntervals pow random).

(** What [Math.random] may return: a double, at least 0 and below 1. *)
Definition unit_interval (random : nat -> Q) : Prop :=
  forall i, isDouble (random i) /\ 0 <= random i /\ random i < 1.

(** An exponentiation that rounds to nearest. *)
Definition nearest_pow (b : Q) (k : nat) : Q := fl (b ^ Z.of_nat k).

(** The integer part of [50 * 1.8 ^ k], in exact arithmetic. *)
Definition base (k : nat) : Z := Qfloor (50 * (18 # 10) ^ Z.of_nat k).

End Poller.

(** ** Waiting for candidate gathering
       ([WebRTCConnection.waitUntilIceGatheringStateComplete]) *)

Module Readiness.

Definition TIME_TO_HOST_CANDIDATES : Z := 10000.

Inductive IceGatheringState : Type := gathering_new | gathering | complete.

(** An ICE candidate, kept abstract. *)
Definition Candidate : Type := string.

Inductive Outcome : Type :=
| Resolved
| Rejected (reason : string).

(** The promise returned by one call, with what its closures hold:
    [totalIceCandidates], whether [onIceCandidate] is still registered,
    the due time of the pending [setTimeout], and how and when the
    promise settled. *)
Record Wait : Type := mkWait {
  totalIceCandidates : nat;
  listening : bool;
  timeout : option Z;
  settled : option (Outcome * Z)
}.

Definition stateName (g : IceGatheringState) : string :=
  match g with
  | gathering_new => "new"
  | gathering => "gathering"
  | complete => "complete"
  end.

(** Entering the function at time [now]. *)
Definition waitUntilIceGatheringStateComplete
    (now : Z) (g : IceGatheringState) (timeToHostCandidates : Z) : Wait :=
  match g with
  | complete => mkWait 0 false None (Some (Resolved, now))
  | _ => mkWait 0 true (Some (now + timeToHostCandidates)) None
  end.

(** [resolve()] and [reject(...)] settle a pending promise and do nothing
    to a settled one. *)
Definition settle (o : Outcome) (now : Z) (w : Wait) : Wait :=
  match settled w with
  | Some _ => w
  | None => mkWait (totalIceCandidates w) (listening w) (timeout w) (Some (o, now))
  end.

(** The [onIceCandidate] listener; a removed listener is not called.
    Returns the candidates it appends to [additionalCandidates]. *)
Definition onIceCandidate (now : Z) (candidate : option Candidate) (w : Wait)
  : Wait * list Candidate :=
  if listening w then
    let w1 := mkWait (S (totalIceCandidates w)) (listening w) (timeout w) (settled w) in
    match candidate with
    | Some c => (w1, [c])
    | None =>
        (settle Resolved now
           (mkWait (totalIceCandidates w1) false None (settled w1)), [])
    end
  else (w, []).

(** The [setTimeout] callback, run at time [now] with the gathering
    state the peer connection shows then. *)
Definition onTimeout (now : Z) (g : IceGatheringState) (w : Wait) : Wait :=
  let w1 := mkWait (totalIceCandidates w) false None (settled w) in
  if (0 <? totalIceCandidates w1)%nat
  then settle Resolved now w1
  else settle
         (Rejected ("Timed out waiting for host candidates State: " ++ stateName g))
         now w1.

Inductive Event : Type :=
| IceCandidate (candidate : option Candidate)
| TimerFired (g : IceGatheringState).

(** One turn of the event loop at time [now].  A timer callback runs only
    while its timer is pending and never before it is due. *)
Definition step (now : Z) (e : Event) (w : Wait) : option Wait :=
  match e with
  | IceCandidate c => Some (fst (onIceCandidate now c w))
  | TimerFired g =>
      match timeout w with
      | Some due => if due <=? now then Some (onTimeout now g w) else None
      | None => None
      end
  end.

(** Turns of the event loop, each stamped with its time. *)
Fixpoint steps (evs : list (Z * Event)) (w : Wait) : option Wait :=
  match evs with
  | [] => Some w
  | (now, e) :: rest =>
      match step now e w with
      | Some w1 => steps rest w1
      | None => None
      end
  end.

(** Candidates found, each at its time, as turns of the event loop. *)
Definition discovered (found : list (Z * Candidate)) : list (Z * Event) :=
  List.map (fun tc => (fst tc, IceCandidate (Some (snd tc)))) found.

(** The error the timer callback rejects with. *)
Definition timedOut (g : IceGatheringState) : Outcome :=
  Rejected ("Timed out waiting for host candidates State: " ++ stateName g).

(** What holds of a wait started at [t0] while the peer connection was
    still gathering: pending with the timer due at the deadline, or
    settled with timer and listener gone; rejected only at or after the
    deadline and with no candidate counted. *)
Definition started (t0 : Z) (w : Wait) : Prop :=
  match settled w with
  | None => timeout w = Some (t0 + TIME_TO_HOST_CANDIDATES) /\ listening w = true
  | Some (Resolved, _) => timeout w = None /\ listening w = false
  | Some (Rejected _, t) =>
      timeout w = None /\ listening w = false
      /\ t0 + TIME_TO_HOST_CANDIDATES <= t /\ totalIceCandidates w = 0%nat
  end.

End Readiness.

(** ** The server side: connections, track routing, renegotiation *)

Module Server.

Import Readiness.

Definition ChannelId : Type := string.

Inductive Kind : Type := Audio | Video.

(** A [MediaStreamTrack] is named by the transceiver whose receiver owns
    it: transceiver number [slot] of the peer connection of [owner]. *)
Record Track : Type := mkTrack {
  owner : ChannelId;
  slot : nat
}.

Record Transceiver : Type := mkTransceiver {
  kind : Kind;
  sender_track : option Track
}.

Record Description : Type := mkDescription {
  type : string;
  sdp : string
}.

(** The part of an [RTCPeerConnection] the server code reads or writes.
    Transceivers are held in creation order; a transceiver object is
    referred to by its position. *)
Record RTCPeerConnection : Type := mkPc {
  transceivers : list Transceiver;
  localDescription : option Description;
  remoteDescription : option Description;
  iceGatheringState : IceGatheringState;
  iceConnectionState : string;
  signalingState : string;
  pc_closed : bool
}.

(** What the underlying transport decides on its own. *)
Class Transport : Type := {
  (** [sender.track] as read right after [sender.replaceTrack(track)] *)
  track_after_replaceTrack : Track -> option Track;
  (** [createOffer()]: the offer, or [None] when the promise rejects *)
  createOffer : RTCPeerConnection -> option Description;
  (** whether [setLocalDescription(offer)] is accepted *)
  acceptsLocalDescription : RTCPeerConnection -> Description -> bool;
  (** whether [setRemoteDescription(answer)] is accepted *)
  acceptsRemoteDescription : RTCPeerConnection -> Description -> bool;
  (** [transceiver.mid] of transceiver [slot] of a connection *)
  mid : ChannelId -> nat -> string
}.

(** Modelled from the spec: the base class [Connection] is not among the
    sources; it supplies [id] and the open/closed mark that [close]
    sets ("tears down the transport primitive and marks Closed"). *)
Inductive ConnectionState : Type := opened | closed.

Record WebRTCConnection : Type := mkConn {
  id : ChannelId;
  state : ConnectionState;
  peerConnection : RTCPeerConnection;
  additionalCandidates : list Candidate;
  timeToHostCandidates : Z;
  audio : option nat;
  video : option nat;
  audioMap : gmap ChannelId nat;
  videoMap : gmap ChannelId nat;
  userData : Data;
  waits : list Wait
}.

(** [enableAudio] and [enableVideo] of [ServerOptions]; the remaining
    options configure the transport and the data channel only. *)
Record ServerOptions : Type := mkOptions {
  enableAudio : option bool;
  enableVideo : option bool
}.

(** Field updates. *)
Definition set_pc (pc : RTCPeerConnection) (c : WebRTCConnection) :=
  mkConn (id c) (state c) pc (additionalCandidates c) (timeToHostCandidates c)
         (audio c) (video c) (audioMap c) (videoMap c) (userData c) (waits c).
Definition set_state (s : ConnectionState) (c : WebRTCConnection) :=
  mkConn (id c) s (peerConnection c) (additionalCandidates c)
         (timeToHostCandidates c) (audio c) (video c) (audioMap c) (videoMap c)
         (userData c) (waits c).
Definition set_additionalCandidates (l : list Candidate) (c : WebRTCConnection) :=
  mkConn (id c) (state c) (peerConnection c) l (timeToHostCandidates c)
         (audio c) (video c) (audioMap c) (videoMap c) (userData c) (waits c).
Definition set_waits (ws : list Wait) (c : WebRTCConnection) :=
  mkConn (id c) (state c) (peerConnection c) (additionalCandidates c)
         (timeToHostCandidates c) (audio c) (video c) (audioMap c) (videoMap c)
         (userData c) ws.

(** [this.audio] / [this.video] and [this.audioMap] / [this.videoMap],
    selected by the kind of media. *)
Definition own (k : Kind) (c : WebRTCConnection) : option nat :=
  match k with Audio => audio c | Video => video c end.
Definition routes (k : Kind) (c : WebRTCConnection) : gmap ChannelId nat :=
  match k with Audio => audioMap c | Video => videoMap c end.
Definition set_own (k : Kind) (t : option nat) (c : WebRTCConnection) :=
  match k with
  | Audio =>
      mkConn (id c) (state c) (peerConnection c) (additionalCandidates c)
             (timeToHostCandidates c) t (video c) (audioMap c) (videoMap c)
             (userData c) (waits c)
  | Video =>
      mkConn (id c) (state c) (peerConnection c) (additionalCandidates c)
             (timeToHostCandidates c) (audio c) t (audioMap c) (videoMap c)
             (userData c) (waits c)
  end.
Definition set_routes (k : Kind) (m : gmap ChannelId nat) (c : WebRTCConnection) :=
  match k with
  | Audio =>
      mkConn (id c) (state c) (peerConnection c) (additionalCandidates c)
             (timeToHostCandidates c) (audio c) (video c) m (videoMap c)
             (userData c) (waits c)
  | Video =>
      mkConn (id c) (state c) (peerConnection c) (additionalCandidates c)
             (timeToHostCandidates c) (audio c) (video c) (audioMap c) m
             (userData c) (waits c)
  end.

Definition set_transceivers (ts : list Transceiver) (pc : RTCPeerConnection) :=
  mkPc ts (localDescription pc) (remoteDescription pc) (iceGatheringState pc)
       (iceConnectionState pc) (signalingState pc) (pc_closed pc).

(** How a call ends: normally, or by throwing; either way with the
    objects as the call left them. *)
Inductive Completion (A : Type) : Type :=
| Normal (a : A)
| Throw (e : string) (a : A).
Arguments Normal {A} a.
Arguments Throw {A} e a.

Definition TypeError : string := "TypeError".

(** [pc.addTransceiver(kind)]: the new transceiver and the connection
    that now holds it.  A new transceiver sends nothing. *)
Definition addTransceiver (k : Kind) (pc : RTCPeerConnection)
  : RTCPeerConnection * nat :=
  (set_transceivers (transceivers pc ++ [mkTransceiver k None]) pc,
   length (transceivers pc)).

(** [transceiver.sender.replaceTrack(track)] *)
Definition replaceTrack `{Transport} (t : nat) (track : Track)
    (pc : RTCPeerConnection) : RTCPeerConnection :=
  set_transceivers
    (alter (fun tr => mkTransceiver (kind tr) (track_after_replaceTrack track))
           t (transceivers pc))
    pc.

Definition senderTrack (t : nat) (pc : RTCPeerConnection) : option Track :=
  tr ← transceivers pc !! t; sender_track tr.

(** The body of [this.connections.forEach((theirConnection) => ...)] for
    one [theirConnection].  [this.video] (or [this.audio]) has been set
    before the loop; reading [.receiver] of an unset
    [theirConnection.video] throws. *)
Definition forward `{Transport} (k : Kind) (this their : WebRTCConnection)
  : Completion (WebRTCConnection * WebRTCConnection) :=
  (* Send my video to their client *)
  let '(theirPc, theirVideo) := addTransceiver k (peerConnection their) in
  let their1 := set_pc theirPc their in
  match own k this with
  | None => Throw TypeError (this, their1)
  | Some mine =>
      let their2 :=
        set_pc (replaceTrack theirVideo (mkTrack (id this) mine) theirPc) their1 in
      let their3 := set_routes k (<[id this := theirVideo]> (routes k their2)) their2 in
      (* Send their video to my client *)
      let '(myPc, myVideo) := addTransceiver k (peerConnection this) in
      let this1 := set_pc myPc this in
      match own k their3 with
      | None => Throw TypeError (this1, their3)
      | Some theirs =>
          let this2 :=
            set_pc (replaceTrack myVideo (mkTrack (id their3) theirs) myPc) this1 in
          match senderTrack myVideo (peerConnection this2) with
          | Some _ =>
              Normal (set_routes k (<[id their3 := myVideo]> (routes k this2)) this2,
                      their3)
          | None => Normal (this2, their3)
          end
      end
  end.

(** [this.connections.forEach(...)]: the connections are visited in
    insertion order and updated in place. *)
Fixpoint forwardAll `{Transport} (k : Kind) (this : WebRTCConnection)
    (connections : list WebRTCConnection)
  : Completion (WebRTCConnection * list WebRTCConnection) :=
  match connections with
  | [] => Normal (this, [])
  | their :: rest =>
      match forward k this their with
      | Throw e (this1, their1) => Throw e (this1, their1 :: rest)
      | Normal (this1, their1) =>
          match forwardAll k this1 rest with
          | Normal (this2, rest') => Normal (this2, their1 :: rest')
          | Throw e (this2, rest') => Throw e (this2, their1 :: rest')
          end
      end
  end.

(** One of the two blocks of [setupStreams]. *)
Definition setupKind `{Transport} (k : Kind) (this : WebRTCConnection)
    (connections : list WebRTCConnection)
  : Completion (WebRTCConnection * list WebRTCConnection) :=
  let this1 :=
    match own k this with
    | Some _ => this
    | None =>
        let '(pc, t) := addTransceiver k (peerConnection this) in
        set_own k (Some t) (set_pc pc this)
    end in
  forwardAll k this1 connections.

(** [setupStreams(enableAudio, enableVideo)]: the video block, then the
    audio block. *)
Definition setupStreams `{Transport} (enableAudio enableVideo : bool)
    (this : WebRTCConnection) (connections : list WebRTCConnection)
  : Completion (WebRTCConnection * list WebRTCConnection) :=
  let afterVideo :=
    if enableVideo then setupKind Video this connections
    else Normal (this, connections) in
  match afterVideo with
  | Throw e s => Throw e s
  | Normal (this1, connections1) =>
      if enableAudio then setupKind Audio this1 connections1
      else Normal (this1, connections1)
  end.

(** [new DefaultRTCPeerConnection(configuration)] *)
Definition newPeerConnection : RTCPeerConnection :=
  mkPc [] None None gathering_new "new" "stable" false.

(** [constructor(id, serverOptions, connections, userData)].  The data
    channel created last lives in a module that is not among the
    sources and touches none of the fields kept here. *)
Definition constructor `{Transport} (i : ChannelId) (serverOptions : ServerOptions)
    (connections : list WebRTCConnection) (u : Data)
  : Completion (WebRTCConnection * list WebRTCConnection) :=
  let enableAudio := default false (enableAudio serverOptions) in
  let enableVideo := default false (enableVideo serverOptions) in
  let this :=
    mkConn i opened newPeerConnection [] TIME_TO_HOST_CANDIDATES
           None None ∅ ∅ u [] in
  setupStreams enableVideo enableVideo this connections.

(** [peerConnection.close()] *)
Definition closePeerConnection (pc : RTCPeerConnection) : RTCPeerConnection :=
  mkPc (transceivers pc) (localDescription pc) (remoteDescription pc)
       (iceGatheringState pc) "closed" "closed" true.

(** [close()]: [this.peerConnection.close()], then [super.close()]. *)
Definition close (c : WebRTCConnection) : WebRTCConnection :=
  set_state closed (set_pc (closePeerConnection (peerConnection c)) c).

(** [doOffer()], entered at time [now]. *)
Definition doOffer `{Transport} (now : Z) (this : WebRTCConnection)
  : Completion WebRTCConnection :=
  match createOffer (peerConnection this) with
  | None => Throw "createOffer" (close this)
  | Some offer =>
      if acceptsLocalDescription (peerConnection this) offer then
        let pc := peerConnection this in
        let pc1 :=
          mkPc (transceivers pc) (Some offer) (remoteDescription pc)
               (iceGatheringState pc) (iceConnectionState pc)
               (signalingState pc) (pc_closed pc) in
        let this1 := set_pc pc1 this in
        (* not awaited *)
        Normal
          (set_waits
             (waits this1 ++
                [waitUntilIceGatheringStateComplete
                   now (iceGatheringState pc1) (timeToHostCandidates this1)])
             this1)
      else Throw "setLocalDescription" (close this)
  end.

(** [reconnect()] *)
Definition reconnect `{Transport} (now : Z) (this : WebRTCConnection)
  : Completion WebRTCConnection :=
  doOffer now this.

(** [applyAnswer(answer)] *)
Definition applyAnswer `{Transport} (answer : Description) (this : WebRTCConnection)
  : Completion WebRTCConnection :=
  let pc := peerConnection this in
  if acceptsRemoteDescription pc answer then
    Normal
      (set_pc
         (mkPc (transceivers pc) (localDescription pc) (Some answer)
               (iceGatheringState pc) (iceConnectionState pc)
               (signalingState pc) (pc_closed pc))
         this)
  else Throw "setRemoteDescription" this.

(** [toJSON()]; [descriptionToJSON] maps a missing description to the
    empty object, [None] here. *)
Record ConnectionJSON : Type := mkJSON {
  json_id : ChannelId;
  json_state : ConnectionState;
  json_iceConnectionState : string;
  json_localDescription : option Description;
  json_remoteDescription : option Description;
  json_signalingState : string
}.

Definition toJSON (c : WebRTCConnection) : ConnectionJSON :=
  let pc := peerConnection c in
  mkJSON (id c) (state c) (iceConnectionState pc) (localDescription pc)
         (remoteDescription pc) (signalingState pc).

(** An [icecandidate] event: every registered [onIceCandidate] runs, in
    registration order, each appending to [additionalCandidates]. *)
Definition dispatchIceCandidate (now : Z) (candidate : option Candidate)
    (c : WebRTCConnection) : WebRTCConnection :=
  let r := List.map (onIceCandidate now candidate) (waits c) in
  set_waits (List.map fst r)
    (set_additionalCandidates
       (additionalCandidates c ++ concat (List.map snd r)) c).

(** *** The registry [connections: Map<ChannelId, WebRTCConnection>] *)

Definition hasId (i : ChannelId) (c : WebRTCConnection) : bool :=
  String.eqb (id c) i.

(** [connections.get(id)] *)
Definition getConnection (i : ChannelId) (connections : list WebRTCConnection)
  : option WebRTCConnection :=
  List.find (hasId i) connections.

(** [connections.set(c.id, c)]: an existing key keeps its place. *)
Fixpoint putConnection (c : WebRTCConnection) (connections : list WebRTCConnection)
  : list WebRTCConnection :=
  match connections with
  | [] => [c]
  | c' :: rest =>
      if hasId (id c) c' then c :: rest else c' :: putConnection c rest
  end.

(** Modelled from the spec: what follows [super.close()] is decided by
    the base class and the connections manager, neither among the
    sources.  "On close of connection X, remove X from every other live
    connection's peerRoutes"; the registry is "the table of all live
    connections", so X leaves it as well. *)
Definition forget (i : ChannelId) (c : WebRTCConnection) : WebRTCConnection :=
  set_routes Audio (delete i (audioMap c))
    (set_routes Video (delete i (videoMap c)) c).

Definition onClosed (x : WebRTCConnection) (connections : list WebRTCConnection)
  : list WebRTCConnection :=
  List.map (forget (id x))
    (List.filter (fun c => negb (hasId (id x) c)) connections).

(** [connection.close()] on the connection registered under [i]. *)
Definition closeConnection (i : ChannelId) (connections : list WebRTCConnection)
  : list WebRTCConnection :=
  match getConnection i connections with
  | Some c => onClosed (close c) connections
  | None => connections
  end.

(** [connection.reconnect()] on the connection registered under [i]; a
    failed offer closes the connection before the error is rethrown. *)
Definition reconnectConnection `{Transport} (now : Z) (i : ChannelId)
    (connections : list WebRTCConnection) : Completion (list WebRTCConnection) :=
  match getConnection i connections with
  | None => Normal connections
  | Some c =>
      match reconnect now c with
      | Normal c1 => Normal (putConnection c1 connections)
      | Throw e c1 => Throw e (onClosed c1 connections)
      end
  end.

(** Modelled from the spec: [ConnectionsManagerServer.createConnection]
    is not among the sources.  "A client requests a new session ->
    registry creates a negotiation instance -> negotiation produces an
    offer": construct with the manager's options, register, offer. *)
Definition createConnection `{Transport} (serverOptions : ServerOptions) (now : Z)
    (i : ChannelId) (u : Data) (connections : list WebRTCConnection)
  : Completion (list WebRTCConnection) :=
  match constructor i serverOptions connections u with
  | Throw e (_, connections1) => Throw e connections1
  | Normal (this, connections1) =>
      let connections2 := putConnection this connections1 in
      match doOffer now this with
      | Normal this1 => Normal (putConnection this1 connections2)
      | Throw e this1 => Throw e (onClosed this1 connections2)
      end
  end.

Definition outcome {A : Type} (r : Completion A) : A :=
  match r with Normal a => a | Throw _ a => a end.

(** What can happen to the registry. *)
Inductive Op : Type :=
| Create (now : Z) (i : ChannelId) (u : Data)
| Close (i : ChannelId)
| Reconnect (now : Z) (i : ChannelId)
| Ice (now : Z) (i : ChannelId) (candidate : option Candidate).

(** One operation.  Identifiers are drawn fresh: a [Create] with an
    identifier in use does not happen. *)
Definition applyOp `{Transport} (serverOptions : ServerOptions) (op : Op)
    (connections : list WebRTCConnection) : option (list WebRTCConnection) :=
  match op with
  | Create now i u =>
      match getConnection i connections with
      | Some _ => None
      | None => Some (outcome (createConnection serverOptions now i u connections))
      end
  | Close i => Some (closeConnection i connections)
  | Reconnect now i => Some (outcome (reconnectConnection now i connections))
  | Ice now i candidate =>
      match getConnection i connections with
      | Some c => Some (putConnection (dispatchIceCandidate now candidate c) connections)
      | None => Some connections
      end
  end.

Fixpoint applyAll `{Transport} (serverOptions : ServerOptions) (ops : list Op)
    (connections : list WebRTCConnection) : option (list WebRTCConnection) :=
  match ops with
  | [] => Some connections
  | op :: rest =>
      match applyOp serverOptions op connections with
      | Some connections1 => applyAll serverOptions rest connections1
      | None => None
      end
  end.

(** A transport on which [replaceTrack] takes effect at once, as it does
    in [wrtc], and every description is accepted. *)
Definition promptTransport : Transport := {|
  track_after_replaceTrack t := Some t;
  createOffer pc := Some (mkDescription "offer" "v=0");
  acceptsLocalDescription _ _ := true;
  acceptsRemoteDescription _ _ := true;
  mid i t := ""
|}.

(** *** Vocabulary for the routing properties *)

Definition ids (connections : list WebRTCConnection) : list ChannelId :=
  List.map id connections.

(** The transport shows the installed track as soon as [replaceTrack]
    has been called. *)
Definition prompt `{Transport} : Prop :=
  forall t, is_Some (track_after_replaceTrack t).

(** Two connections that both carry media of kind [k], [A] registered
    before [B]: [A] has a route for [B], and [B] has one for [A]
    provided the transport is prompt. *)
Definition routed `{Transport} (k : Kind) (A B : WebRTCConnection) : Prop :=
  is_Some (own k A) -> is_Some (own k B) ->
  is_Some (routes k A !! id B) /\ (prompt -> is_Some (routes k B !! id A)).

(** Every route of kind [k] leads to a registered connection. *)
Definition noDangling (k : Kind) (connections : list WebRTCConnection) : Prop :=
  forall c j, c ∈ connections -> is_Some (routes k c !! j) -> j ∈ ids connections.

(** Same identifier, same own transceivers, same routing tables. *)
Definition sameRouting (c c' : WebRTCConnection) : Prop :=
  id c' = id c /\ forall k, own k c' = own k c /\ routes k c' = routes k c.

(** What is maintained of a registry run with [enableVideo = v]. *)
Definition consistent `{Transport} (v : bool) (connections : list WebRTCConnection)
  : Prop :=
  Forall (fun c => forall k, is_Some (own k c) <-> v = true) connections
  /\ (forall k, noDangling k connections)
  /\ (forall k, ForallOrdPairs (routed k) connections).

(** Identifier and own transceivers are left alone. *)
Definition framed (c c' : WebRTCConnection) : Prop :=
  id c' = id c /\ forall k, own k c' = own k c.

(** [c'] is [c] with a route of kind [k] for [i] put in. *)
Definition grown (k : Kind) (i : ChannelId) (c c' : WebRTCConnection) : Prop :=
  framed c c'
  /\ (forall k', k' <> k -> routes k' c' = routes k' c)
  /\ exists n, routes k c' = <[i := n]> (routes k c).

(** [c'] is [c] after a connection [i] has been constructed next to it:
    routes are only added, only for [i], and for [i] whenever media are
    enabled. *)
Definition joined (v : bool) (i : ChannelId) (c c' : WebRTCConnection) : Prop :=
  framed c c'
  /\ forall k j,
       (is_Some (routes k c !! j) -> is_Some (routes k c' !! j))
       /\ (is_Some (routes k c' !! j) -> is_Some (routes k c !! j) \/ j = i)
       /\ (v = true -> is_Some (routes k c' !! i)).

(** The [onIceCandidate] listeners still registered on the connection. *)
Definition listeners (c : WebRTCConnection) : nat :=
  length (List.filter listening (waits c)).

(** Transceiver [h] of the connection exists, is of kind [k] and has
    [t] as its [sender.track]. *)
Definition sends (c : WebRTCConnection) (h : nat) (k : Kind) (t : option Track)
  : Prop :=
  exists tr, transceivers (peerConnection c) !! h = Some tr
             /\ kind tr = k /\ sender_track tr = t.

(** The transceivers a connection refers to are what they should be,
    given which connection [known j k b] holds which own transceiver:
    its own transceiver of each kind sends nothing, and its route of
    kind [k] for [j] sends what [replaceTrack] made of the track received
    by the own transceiver of [j]. *)
Definition wiredTo `{Transport} (known : ChannelId -> Kind -> nat -> Prop)
    (c : WebRTCConnection) : Prop :=
  forall k,
    (forall h, own k c = Some h -> sends c h k None)
    /\ (forall j h, routes k c !! j = Some h ->
          exists b, known j k b
                    /\ sends c h k (track_after_replaceTrack (mkTrack j b))).

(** [b] is the own transceiver of kind [k] of a registered connection
    with identifier [j]. *)
Definition registered (connections : list WebRTCConnection)
    (j : ChannelId) (k : Kind) (b : nat) : Prop :=
  exists B, B ∈ connections /\ id B = j /\ own k B = Some b.

Definition wired `{Transport} (connections : list WebRTCConnection) : Prop :=
  Forall (wiredTo (registered connections)) connections.

#[global] Instance Kind_eq_dec : EqDecision Kind.
Proof. solve_decision. Defined.

(** Same routing and the same transceivers. *)
Definition sameWiring (c c' : WebRTCConnection) : Prop :=
  sameRouting c c'
  /\ transceivers (peerConnection c') = transceivers (peerConnection c).

(** The places where a connection keeps a transceiver: [this.audio] /
    [this.video], and the entries of [audioMap] / [videoMap]. *)
Inductive Slot : Type :=
| OwnSlot (k : Kind)
| RouteSlot (k : Kind) (j : ChannelId).

Definition held (c : WebRTCConnection) (s : Slot) : option nat :=
  match s with
  | OwnSlot k => own k c
  | RouteSlot k j => routes k c !! j
  end.

(** Every transceiver the connection keeps somewhere is one of its peer
    connection, and is kept in that one place only. *)
Definition separate (c : WebRTCConnection) : Prop :=
  forall s h, held c s = Some h ->
    (h < length (transceivers (peerConnection c)))%nat
    /\ forall s', held c s' = Some h -> s' = s.

End Server.

(** ** HTTP signalling ([HttpServer]) *)

Module Http.

Import Readiness Server.

(** *** The regular expressions of the request listener *)

Inductive Atom : Type :=
| Lit (c : ascii)        (* a literal character *)
| Dot                    (* [.] : any character but a line terminator *)
| AlnumPlus.             (* [[0-9a-zA-Z]+] *)

Definition isAlnum (c : ascii) : bool :=
  let n := nat_of_ascii c in
  ((48 <=? n) && (n <=? 57) || (65 <=? n) && (n <=? 90)
   || (97 <=? n) && (n <=? 122))%nat.

Definition isLineTerminator (c : ascii) : bool :=
  let n := nat_of_ascii c in ((n =? 10) || (n =? 13))%nat.

Fixpoint lits (s : string) : list Atom :=
  match s with
  | EmptyString => []
  | String c s' => Lit c :: lits s'
  end.

(** Does the pattern match a prefix of the text?  [[0-9a-zA-Z]+] takes
    one character and then either stops or goes on. *)
Fixpoint matchHere (pat : list Atom) (s : string) {struct pat} : bool :=
  match pat with
  | [] => true
  | Lit c :: pat' =>
      match s with
      | String c' s' => Ascii.eqb c c' && matchHere pat' s'
      | EmptyString => false
      end
  | Dot :: pat' =>
      match s with
      | String c' s' => negb (isLineTerminator c') && matchHere pat' s'
      | EmptyString => false
      end
  | AlnumPlus :: pat' =>
      (fix plus (s : string) : bool :=
         match s with
         | String c' s' => isAlnum c' && (plus s' || matchHere pat' s')
         | EmptyString => false
         end) s
  end.

(** [new RegExp(pattern).test(text)]: a match anywhere in the text. *)
Fixpoint test (pat : list Atom) (s : string) : bool :=
  matchHere pat s ||
  match s with
  | String _ s' => test pat s'
  | EmptyString => false
  end.

(** The next [n] characters when all of them are alphanumeric, with the
    text after them. *)
Fixpoint takeAlnum (n : nat) (s : string) : option (string * string) :=
  match n with
  | O => Some (EmptyString, s)
  | S n' =>
      match s with
      | String c s' =>
          if isAlnum c then
            match takeAlnum n' s' with
            | Some (m, rest) => Some (String c m, rest)
            | None => None
            end
          else None
      | EmptyString => None
      end
  end.

(** [text.match(/[0-9a-zA-Z]{24}/g)]: the matches from left to right,
    none overlapping; [null] is the empty list.  [fuel] bounds the
    positions tried. *)
Fixpoint matchIdsFrom (fuel : nat) (s : string) : list string :=
  match fuel with
  | O => []
  | S fuel' =>
      match takeAlnum 24 s with
      | Some (m, rest) => m :: matchIdsFrom fuel' rest
      | None =>
          match s with
          | String _ s' => matchIdsFrom fuel' s'
          | EmptyString => []
          end
      end
  end.

Definition matchIds (s : string) : list string :=
  matchIdsFrom (S (String.length s)) s.

Definition prefix : string := ".wrtc".
Definition version : string := "v1".
Definition root : string := "/" ++ prefix ++ "/" ++ version.

(** [new RegExp(`/${prefix}/${version}`)]; the dot of [.wrtc] is a
    wildcard. *)
Definition rootRegEx : list Atom :=
  [Lit "/"%char; Dot] ++ lits "wrtc/v1".

(** [new RegExp(`${prefix}\/${version}\/connections\/[0-9a-zA-Z]+\/${tail}`)] *)
Definition connectionRegEx (tail : string) : list Atom :=
  [Dot] ++ lits "wrtc/v1/connections/" ++ [AlnumPlus] ++ lits ("/" ++ tail).

(** *** Requests and responses *)

Record Request : Type := mkRequest {
  method : option string;
  pathname : option string;
  authorization : option string;
  (** what [ParseBody] resolves to; [None] when it rejects *)
  body : option string
}.

(** What is written to the response, before [JSON.stringify]. *)
Inductive Payload : Type :=
| CreatedJSON (u : Data) (c : ConnectionJSON)
| DescriptionJSON (d : option Description)
| CandidatesJSON (cs : list Candidate)
| ConnectionJSONBody (c : ConnectionJSON)
| StreamsJSON (audio video : gmap string ChannelId).

(** [writeHead] status if any, headers set, chunks written, and whether
    [end()] was called.  A response that is never ended is never
    completed: the client keeps waiting. *)
Record Response : Type := mkResponse {
  head : option Z;
  headers : list (string * string);
  written : list Payload;
  ended : bool
}.

Definition freshResponse : Response := mkResponse None [] [] false.

(** [const end = (res, statusCode) => { res.writeHead(statusCode);
    res.end() }] *)
Definition endWith (statusCode : Z) (res : Response) : Response :=
  mkResponse (Some statusCode) (headers res) (written res) true.

Definition setHeader (k v : string) (res : Response) : Response :=
  mkResponse (head res) (headers res ++ [(k, v)]) (written res) (ended res).

Definition write (p : Payload) (res : Response) : Response :=
  mkResponse (head res) (headers res) (written res ++ [p]) (ended res).

Definition endResponse (res : Response) : Response :=
  mkResponse (head res) (headers res) (written res) true.

(** The status line of a completed response: 200 unless [writeHead]
    chose another. *)
Definition statusCode (res : Response) : option Z :=
  if ended res then Some (default 200 (head res)) else None.

(** What [connectionsManager.createConnection] resolves to. *)
Record Created : Type := mkCreated {
  status : Z;
  connection : option WebRTCConnection;
  created_userData : Data
}.

(** The collaborators of the listener that are not among the sources. *)
Class Shell : Type := {
  (** [SetCORS(req, res, cors)]: the headers it sets *)
  corsHeaders : Request -> list (string * string);
  (** [connectionsManager.createConnection(authorization, req, res)]:
      [None] when it throws *)
  managerCreate : option string -> Z -> list WebRTCConnection ->
                  option (Created * list WebRTCConnection);
  (** [JSON.parse(body)] read as a session description; [None] when it
      throws *)
  parseDescription : string -> option Description
}.

Definition isMethod (m : string) (req : Request) : bool :=
  match method req with
  | Some m' => String.eqb m' m
  | None => false
  end.

(** The map sent by the streams endpoint: [transceiver.mid] to channel
    id, for every entry of a routing table. *)
Definition byMid `{Transport} (c : WebRTCConnection) (m : gmap ChannelId nat)
  : gmap string ChannelId :=
  map_fold (fun channelId t acc => <[mid (id c) t := channelId]> acc) ∅ m.

(** The [request] listener, run at time [now] on a request whose body
    has been read.  Returns the registry as the listener leaves it and
    the response as far as the listener completed it. *)
Definition listener `{Transport} `{Shell} (now : Z) (req : Request)
    (connections : list WebRTCConnection)
  : list WebRTCConnection * Response :=
  let res := freshResponse in
  match pathname req with
  | None => (connections, res)
  | Some pathname =>
      if negb (test rootRegEx pathname) then
        (* left to the listeners that were registered before *)
        (connections, res)
      else
        let path1 := String.eqb pathname (root ++ "/connections") in
        let path2 := test (connectionRegEx "remote-description") pathname in
        let path3 := test (connectionRegEx "additional-candidates") pathname in
        let closePath := test (connectionRegEx "close") pathname in
        let reconnectPath := test (connectionRegEx "reconnect") pathname in
        let streamsPath := test (connectionRegEx "streams") pathname in
        let res := mkResponse None (corsHeaders req) [] false in
        if isMethod "OPTIONS" req then (connections, endWith 200 res)
        else
          match body req with
          | None => (connections, endWith 400 res)
          | Some body =>
              let res := setHeader "Content-Type" "application/json" res in
              match method req with
              | None | Some EmptyString => (connections, res)
              | Some _ =>
                  if isMethod "POST" req && path1 then
                    match managerCreate (authorization req) now connections with
                    | None => (connections, endWith 500 res)
                    | Some (created, connections1) =>
                        if negb (status created =? 200) then
                          if (100 <=? status created) && (status created <? 600)
                          then (connections1, endWith (status created) res)
                          else (connections1, endWith 500 res)
                        else
                          match connection created with
                          | None => (connections1, endWith 500 res)
                          | Some c =>
                              if String.eqb (id c) "" then
                                (connections1, endWith 500 res)
                              else
                                (connections1,
                                 endResponse
                                   (write (CreatedJSON (created_userData created)
                                                       (toJSON c)) res))
                          end
                    end
                  else if isMethod "POST" req && path2 then
                    match matchIds pathname with
                    | [i] =>
                        match getConnection i connections with
                        | None => (connections, endWith 404 res)
                        | Some c =>
                            match parseDescription body with
                            | None => (connections, endWith 400 res)
                            | Some answer =>
                                match applyAnswer answer c with
                                | Normal c1 =>
                                    (putConnection c1 connections,
                                     endResponse
                                       (write (DescriptionJSON
                                                 (json_remoteDescription (toJSON c1)))
                                              res))
                                | Throw _ c1 =>
                                    (putConnection c1 connections, endWith 400 res)
                                end
                            end
                        end
                    | _ => (connections, endWith 400 res)
                    end
                  else if isMethod "GET" req && path3 then
                    match matchIds pathname with
                    | [i] =>
                        match getConnection i connections with
                        | None => (connections, endWith 404 res)
                        | Some c =>
                            let additionalCandidates := additionalCandidates c in
                            (putConnection (set_additionalCandidates [] c) connections,
                             endResponse
                               (write (CandidatesJSON additionalCandidates) res))
                        end
                    | _ => (connections, endWith 400 res)
                    end
                  else if isMethod "POST" req && closePath then
                    match matchIds pathname with
                    | [i] => (closeConnection i connections, res)
                    | _ => (connections, endWith 400 res)
                    end
                  else if isMethod "POST" req && reconnectPath then
                    match matchIds pathname with
                    | [i] =>
                        match getConnection i connections with
                        | None => (connections, endWith 404 res)
                        | Some c =>
                            match reconnect now c with
                            | Normal c1 =>
                                (putConnection c1 connections,
                                 endResponse
                                   (write (ConnectionJSONBody (toJSON c1)) res))
                            | Throw _ c1 =>
                                (onClosed c1 connections, endWith 400 res)
                            end
                        end
                    | _ => (connections, endWith 400 res)
                    end
                  else if isMethod "POST" req && streamsPath then
                    match matchIds pathname with
                    | [i] =>
                        match getConnection i connections with
                        | None => (connections, endWith 404 res)
                        | Some myConnection =>
                            (connections,
                             endResponse
                               (write
                                  (StreamsJSON
                                     (byMid myConnection (audioMap myConnection))
                                     (byMid myConnection (videoMap myConnection)))
                                  res))
                        end
                    | _ => (connections, endWith 400 res)
                    end
                  else (connections, endWith 404 res)
              end
          end
  end.

(** A request of the client library: no [Authorization] header, an empty
    body. *)
Definition request (m path : string) : Request :=
  mkRequest (Some m) (Some path) None (Some "").

(** [`${host}/connections/${id}/${what}`] below the server's origin. *)
Definition connectionPath (i : ChannelId) (what : string) : string :=
  root ++ "/connections/" ++ i ++ "/" ++ what.

(** [ConnectionsManagerClient.fetchAdditionalCandidates]: the candidates
    handed to [addIceCandidate], in order; none unless [res.ok]. *)
Definition fetchAdditionalCandidates (res : Response) : list Candidate :=
  match statusCode res with
  | Some code =>
      if (200 <=? code) && (code <=? 299) then
        match written res with
        | [CandidatesJSON cs] => cs
        | _ => []
        end
      else []
  | None => []
  end.

(** Identifiers as [makeRandomId(24)] draws them. *)
Fixpoint allAlnum (s : string) : bool :=
  match s with
  | EmptyString => true
  | String c s' => isAlnum c && allAlnum s'
  end.

Definition isId (i : ChannelId) : bool :=
  (String.length i =? 24)%nat && allAlnum i.

(** A shell with no CORS headers and a manager that refuses to create. *)
Definition bareShell : Shell := {|
  corsHeaders _ := [];
  managerCreate _ _ connections := Some (mkCreated 500 None DUndefined, connections);
  parseDescription _ := None
|}.

(** The names of the endpoints below [connections/<id>/], as the
    listener's patterns spell them. *)
Definition endpoints : list string :=
  ["remote-description"; "additional-candidates"; "close"; "reconnect"; "streams"].

(** A shell like [bareShell] whose parser reads every body as an answer
    with that SDP. *)
Definition answeringShell : Shell := {|
  corsHeaders _ := [];
  managerCreate _ _ connections := Some (mkCreated 500 None DUndefined, connections);
  parseDescription b := Some (mkDescription "answer" b)
|}.

(** The transceivers a routing table leads to have different [mid]s. *)
Definition distinctMids `{Transport} (c : WebRTCConnection) (m : gmap ChannelId nat)
  : Prop :=
  forall j1 j2 t1 t2,
    m !! j1 = Some t1 -> m !! j2 = Some t2 ->
    mid (id c) t1 = mid (id c) t2 -> j1 = j2.

(** What happens to one connection while its client polls: the peer
    connection reports a candidate, or a poll timer of the client fires
    and [fetchAdditionalCandidates] runs against the listener. *)
Inductive Tick : Type :=
| Gathered (now : Z) (candidate : option Candidate)
| Polled (now : Z).

(** The registry after the ticks, and the candidates the client handed
    to [addIceCandidate], in order. *)
Fixpoint polling `{Transport} `{Shell} (i : ChannelId) (ticks : list Tick)
    (connections : list WebRTCConnection)
  : list WebRTCConnection * list Candidate :=
  match ticks with
  | [] => (connections, [])
  | Gathered now candidate :: rest =>
      match getConnection i connections with
      | Some c =>
          polling i rest
            (putConnection (dispatchIceCandidate now candidate c) connections)
      | None => polling i rest connections
      end
  | Polled now :: rest =>
      let r := listener now (request "GET" (connectionPath i "additional-candidates"))
                        connections in
      let rest' := polling i rest (fst r) in
      (fst rest', fetchAdditionalCandidates (snd r) ++ snd rest')
  end.

(** The ticks without the polls. *)
Definition unpolled (ticks : list Tick) : list Tick :=
  List.filter (fun t => match t with Gathered _ _ => true | Polled _ => false end)
              ticks.

End Http.
(** * Properties *)

(** ** The reliability ledger *)

Module LedgerFacts.

Import Ledger.

(** Pruning only ever removes entries. *)
Lemma forEach_from_subseteq n k now (object : list Msg) (x : Msg) :
  x ∈ forEach_from n k now object -> x ∈ object.
Proof.
  revert k object.
  induction n as [|n IH]; intros k object Hx; simpl in Hx; [assumption|].
  destruct (object !! k) as [msg|] eqn:Hk; [|eauto].
  destruct (expire msg <=? now); [|eauto].
  apply IH in Hx. eapply list_elem_of_delete_inv, Hx.
Qed.

(** Pruning never removes an entry that has not expired. *)
Lemma forEach_from_keeps n k now (object : list Msg) (x : Msg) :
  x ∈ object -> now < expire x -> x ∈ forEach_from n k now object.
Proof.
  revert k object.
  induction n as [|n IH]; intros k object Hx Hlive; simpl; [assumption|].
  destruct (object !! k) as [msg|] eqn:Hk; [|eauto].
  destruct (Z.leb_spec (expire msg) now) as [Hold|_]; [|eauto].
  apply IH; [|assumption].
  pose proof (delete_Permutation _ _ _ Hk) as Hperm.
  rewrite Hperm in Hx.
  apply elem_of_cons in Hx as [->|Hx]; [lia|assumption].
Qed.

Lemma tracked_spec (i : Data) (msgs : list Msg) :
  tracked i msgs = true <-> exists x, x ∈ msgs /\ strict_eq (id x) i = true.
Proof.
  unfold tracked, sameId.
  split.
  - intros Ht.
    destruct (List.filter _ msgs) as [|x rest] eqn:Hf; [discriminate|].
    exists x.
    assert (Hin : In x (List.filter (fun obj => strict_eq (id obj) i) msgs))
      by (rewrite Hf; left; reflexivity).
    apply filter_In in Hin as [Hin Hid].
    split; [apply list_elem_of_In, Hin | exact Hid].
  - intros (x & Hin & Hid).
    assert (Hx : In x (List.filter (fun obj => strict_eq (id obj) i) msgs))
      by (apply filter_In; split; [apply list_elem_of_In, Hin | exact Hid]).
    destruct (List.filter _ msgs); [destruct Hx | reflexivity].
Qed.

Lemma untracked_length (i : Data) (msgs : list Msg) :
  tracked i msgs = false -> (length (sameId i msgs) =? 0)%nat = true.
Proof. unfold tracked. destruct (_ =? _)%nat; [reflexivity | discriminate]. Qed.

Lemma tracked_length (i : Data) (msgs : list Msg) :
  tracked i msgs = true -> (length (sameId i msgs) =? 0)%nat = false.
Proof. unfold tracked. destruct (_ =? _)%nat; [discriminate | reflexivity]. Qed.

(** An identifier that is not tracked stays untracked through pruning. *)
Lemma untracked_pruned (i : Data) now (msgs : list Msg) :
  tracked i msgs = false ->
  tracked i (deleteExpiredReliableMessages now msgs) = false.
Proof.
  intros Hun. apply not_true_is_false. intros Ht.
  apply tracked_spec in Ht as (x & Hin & Hid).
  apply forEach_from_subseteq in Hin.
  assert (tracked i msgs = true) by (apply tracked_spec; eauto).
  congruence.
Qed.

Lemma guarded_pruned (i : Data) (bound now : Z) (msgs : list Msg) :
  guarded i bound msgs -> now < bound ->
  guarded i bound (deleteExpiredReliableMessages now msgs).
Proof.
  intros (x & Hin & Hid & Hb) Hnow.
  exists x. split; [|auto].
  apply forEach_from_keeps; [assumption | lia].
Qed.

Lemma guarded_tracked (i : Data) (bound : Z) (msgs : list Msg) :
  guarded i bound msgs -> tracked i msgs = true.
Proof. intros (x & Hin & Hid & _). apply tracked_spec. eauto. Qed.

Lemma reliableWith_truthy (i data : Data) :
  reliableWith i data -> truthy data = true.
Proof. intros [Hr _]. destruct data; try discriminate Hr. reflexivity. Qed.

Lemma reliableWith_isReliable (s : string) (data : Data) :
  s <> "undefined" -> reliableWith (DStr s) data -> isReliableMessage data = true.
Proof.
  intros Hs Hrel. unfold isReliableMessage.
  rewrite (reliableWith_truthy _ _ Hrel).
  destruct Hrel as [-> ->]. simpl.
  destruct (String.eqb_spec s "undefined"); [contradiction | reflexivity].
Qed.

(** While the entry for [s] is alive, every further envelope with that
    identifier is dropped. *)
Lemma duplicates_dropped (s : string) (bound : Z) (rest : list Receipt)
    (msgs : list Msg) :
  s <> "undefined" ->
  guarded (DStr s) bound msgs ->
  Forall (fun r => reliableWith (DStr s) (snd r) /\ currentTime (fst r) < bound) rest ->
  snd (run rest msgs) = [].
Proof.
  intros Hs Hg Hall. revert msgs Hg.
  induction Hall as [|[c data] rest [Hrel Ht] _ IH]; intros msgs Hg; [reflexivity|].
  simpl in *.
  unfold listener.
  rewrite (reliableWith_isReliable s data Hs Hrel).
  destruct Hrel as [_ Hid]. rewrite Hid.
  pose proof (guarded_pruned _ _ _ _ Hg Ht) as Hg'.
  rewrite (tracked_length _ _ (guarded_tracked _ _ _ Hg')).
  specialize (IH _ Hg').
  destruct (run rest _) as [msgs2 outs]. simpl in *. assumption.
Qed.

(** C1 (as amended).  Take a string identifier other than the literal
    "undefined" that the ledger does not track.  Of a sequence of
    envelopes carrying [RELIABLE: 1] and that identifier, the later ones
    all received less than 15000 ms after the first, exactly the first
    reaches the callback, unwrapped to its [MESSAGE]; every later one is
    dropped. *)
Theorem reliable_duplicates_delivered_once
    (s : string) (c0 : Clock) (d0 : Data) (rest : list Receipt) (msgs : list Msg) :
  s <> "undefined" ->
  tracked (DStr s) msgs = false ->
  reliableWith (DStr s) d0 ->
  currentTime c0 <= pushTime c0 ->
  Forall (fun r => reliableWith (DStr s) (snd r)
                   /\ currentTime (fst r) < currentTime c0 + expireTime) rest ->
  snd (run ((c0, d0) :: rest) msgs) = [get "MESSAGE" d0].
Proof.
  intros Hs Hun Hrel Hclock Hrest.
  cbn [run]. unfold listener.
  rewrite (reliableWith_isReliable s d0 Hs Hrel).
  destruct Hrel as [_ Hid]. rewrite Hid.
  rewrite (untracked_length _ _ (untracked_pruned _ (currentTime c0) _ Hun)).
  set (entry := mkMsg (DStr s) (stampTime c0) (pushTime c0 + expireTime)).
  set (msgs1 := deleteExpiredReliableMessages (currentTime c0) msgs ++ [entry]).
  assert (Hg : guarded (DStr s) (currentTime c0 + expireTime) msgs1).
  { exists entry. split; [|split].
    - apply elem_of_app. right. apply list_elem_of_singleton. reflexivity.
    - simpl. apply String.eqb_refl.
    - simpl. lia. }
  pose proof (duplicates_dropped s _ rest msgs1 Hs Hg Hrest) as Hdrop.
  destruct (run rest msgs1) as [msgs2 outs]. simpl in *. rewrite Hdrop. reflexivity.
Qed.

(** Three receipts of one envelope within the window: one delivery. *)
Lemma reliable_duplicates_delivered_once_witness :
  let e := envelope (DStr "hello") (DStr "k3") in
  snd (run [(at_time 0, e); (at_time 40, e); (at_time 14999, e)] []) = [DStr "hello"].
Proof.
  intros e.
  apply (reliable_duplicates_delivered_once
           "k3" (at_time 0) e [(at_time 40, e); (at_time 14999, e)] []).
  - discriminate.
  - reflexivity.
  - split; reflexivity.
  - simpl; lia.
  - repeat constructor; simpl; lia.
Defined.

(** C1 as stated fails for the identifier "undefined": both receipts of
    an envelope with [RELIABLE: 1] reach the callback, and what they
    hand over is the whole envelope, not its [MESSAGE]. *)
Lemma reliable_undefined_id_delivered_twice :
  let e := envelope (DStr "hello") (DStr "undefined") in
  reliableWith (DStr "undefined") e
  /\ snd (run [(at_time 0, e); (at_time 40, e)] []) = [e; e]
  /\ snd (run [(at_time 0, e); (at_time 40, e)] []) <> [get "MESSAGE" e].
Proof.
  intros e. split; [split; reflexivity|]. split; [reflexivity|].
  vm_compute. discriminate.
Qed.

(** The window is half-open: a duplicate 14999 ms after the first is
    dropped, one at 15000 ms finds the record expired and is delivered. *)
Example window_is_half_open :
  let e := envelope (DStr "hello") (DStr "k3") in
  snd (run [(at_time 0, e); (at_time 14999, e)] []) = [DStr "hello"]
  /\ snd (run [(at_time 0, e); (at_time 15000, e)] []) = [DStr "hello"; DStr "hello"].
Proof. split; reflexivity. Qed.

(** C2 at the failing input.  "a" was received at 0 and "b" at 1, so at
    20000 both entries have expired.  The pruning pass removes "a",
    which moves "b" to index 0, and goes on to index 1: "b" stays in the
    ledger and the envelope "b" received at 20000 is dropped. *)
Example expired_neighbour_survives_pruning :
  let a := envelope (DStr "first") (DStr "a") in
  let b := envelope (DStr "second") (DStr "b") in
  let msgs := fst (run [(at_time 0, a); (at_time 1, b)] []) in
  msgs = [mkMsg (DStr "a") 0 15000; mkMsg (DStr "b") 1 15001]
  /\ deleteExpiredReliableMessages 20000 msgs = [mkMsg (DStr "b") 1 15001]
  /\ listener (at_time 20000) b msgs = ([mkMsg (DStr "b") 1 15001], None).
Proof. repeat split. Qed.

(** C10.  An envelope with [RELIABLE: 1] whose [ID] is the string
    "undefined" is not classified as reliable: the ledger is neither
    consulted nor changed, and on every receipt the callback gets the
    envelope itself, fields and all. *)
Theorem undefined_id_bypasses_ledger (rs : list Receipt) (msgs : list Msg) :
  Forall (fun r => reliableWith (DStr "undefined") (snd r)) rs ->
  Forall (fun r => isReliableMessage (snd r) = false) rs
  /\ run rs msgs = (msgs, List.map snd rs).
Proof.
  intros Hall.
  assert (Hno : Forall (fun r => isReliableMessage (snd r) = false) rs).
  { eapply Forall_impl; [exact Hall|].
    intros [c data] Hrel. simpl in *. unfold isReliableMessage.
    rewrite (reliableWith_truthy _ _ Hrel). destruct Hrel as [-> ->]. reflexivity. }
  split; [exact Hno|].
  clear Hall. induction Hno as [|[c data] rest Hd _ IH]; [reflexivity|].
  simpl in *. unfold listener. rewrite Hd. rewrite IH. reflexivity.
Qed.

Lemma undefined_id_bypasses_ledger_witness :
  let e := envelope (DStr "hello") (DStr "undefined") in
  let msgs := [mkMsg (DStr "k3") 0 15000] in
  run [(at_time 5, e); (at_time 6, e)] msgs = (msgs, [e; e]).
Proof.
  intros e msgs.
  apply (undefined_id_bypasses_ledger [(at_time 5, e); (at_time 6, e)] msgs).
  repeat constructor.
Defined.

End LedgerFacts.
(** ** The candidate poller *)

Module PollerFacts.

Import Poller.
Local Open Scope Q_scope.

(** *** Powers of two *)

Lemma pow2_pos (e : Z) : 0 < 2 ^ e.
Proof. apply Qpower_0_lt. reflexivity. Qed.

Lemma pow2_plus (a b : Z) : 2 ^ (a + b) == 2 ^ a * 2 ^ b.
Proof. apply Qpower_plus. discriminate. Qed.

Lemma pow2_le (a b : Z) : (a <= b)%Z -> 2 ^ a <= 2 ^ b.
Proof. intros H. apply Qpower_le_compat_l; [exact H | discriminate]. Qed.

Lemma pow2_lt (a b : Z) : (a < b)%Z -> 2 ^ a < 2 ^ b.
Proof. intros H. apply Qpower_lt_compat_l; [exact H | reflexivity]. Qed.

Lemma pow2_lt_inv (a b : Z) : 2 ^ a < 2 ^ b -> (a < b)%Z.
Proof. intros H. apply (Qpower_lt_compat_l_inv 2); [exact H | reflexivity]. Qed.

Lemma pow2_Z (e : Z) : (0 <= e)%Z -> 2 ^ e == inject_Z (2 ^ e).
Proof. intros H. symmetry. apply (Zpower_Qpower 2 e H). Qed.

Lemma div_pow2 (x : Q) (e : Z) : x / 2 ^ e * 2 ^ e == x.
Proof. rewrite Qmult_comm. apply Qmult_div_r. pose proof (pow2_pos e). lra. Qed.

(** *** The binary exponent *)

Lemma ilog2_spec (x : Q) :
  0 < x -> 2 ^ ilog2 x <= x /\ x < 2 ^ (ilog2 x + 1).
Proof.
  intros Hx. unfold ilog2.
  destruct x as [p q]. cbn [Qnum Qden].
  assert (Hp : (0 < p)%Z) by (unfold Qlt in Hx; simpl in Hx; lia).
  set (a := Z.log2 p). set (b := Z.log2 (Z.pos q)).
  destruct (Z.log2_spec p Hp) as [Ha1 Ha2]. fold a in Ha1, Ha2.
  destruct (Z.log2_spec (Z.pos q) eq_refl) as [Hb1 Hb2]. fold b in Hb1, Hb2.
  assert (Ha0 : (0 <= a)%Z) by apply Z.log2_nonneg.
  assert (Hb0 : (0 <= b)%Z) by apply Z.log2_nonneg.
  assert (Hx' : p # q == inject_Z p / inject_Z (Z.pos q)) by apply Qmake_Qdiv.
  assert (Hq0 : 0 < inject_Z (Z.pos q)) by reflexivity.
  assert (Hlow : 2 ^ (a - b - 1) <= p # q).
  { rewrite Hx'. apply Qle_shift_div_l; [exact Hq0|].
    replace (a - b - 1)%Z with (a - (b + 1))%Z by lia.
    rewrite Qpower_minus by discriminate.
    rewrite (pow2_Z a Ha0), (pow2_Z (b + 1)) by lia.
    unfold Qdiv. rewrite <- Qmult_assoc.
    assert (H1 : / inject_Z (2 ^ (b + 1)) * inject_Z (Z.pos q) <= 1).
    { rewrite Qmult_comm. apply Qle_shift_div_r.
      - rewrite <- (pow2_Z (b + 1)) by lia. apply pow2_pos.
      - rewrite Qmult_1_l. rewrite <- Zle_Qle. lia. }
    assert (H2 : 0 <= inject_Z (2 ^ a)).
    { rewrite <- (pow2_Z a Ha0). apply Qlt_le_weak, pow2_pos. }
    assert (H3 : inject_Z (2 ^ a) <= inject_Z p) by (rewrite <- Zle_Qle; lia).
    nra. }
  assert (Hhigh : p # q < 2 ^ (a - b + 1)).
  { rewrite Hx'. apply Qlt_shift_div_r; [exact Hq0|].
    replace (a - b + 1)%Z with (a + 1 - b)%Z by lia.
    rewrite Qpower_minus by discriminate.
    rewrite (pow2_Z (a + 1)), (pow2_Z b Hb0) by lia.
    assert (H1 : 1 <= / inject_Z (2 ^ b) * inject_Z (Z.pos q)).
    { rewrite Qmult_comm. apply Qle_shift_div_l.
      - rewrite <- (pow2_Z b Hb0). apply pow2_pos.
      - rewrite Qmult_1_l. rewrite <- Zle_Qle. lia. }
    assert (H3 : inject_Z p < inject_Z (2 ^ (a + 1))).
    { rewrite <- Zlt_Qlt. unfold Z.succ in Ha2. lia. }
    assert (H4 : 0 < inject_Z p) by (change 0 with (inject_Z 0); rewrite <- Zlt_Qlt; lia).
    unfold Qdiv. rewrite <- Qmult_assoc. nra. }
  destruct (Qle_bool (2 ^ (a - b)) (p # q)) eqn:Hb.
  - apply Qle_bool_iff in Hb. split; assumption.
  - assert (Hlt : p # q < 2 ^ (a - b)).
    { apply Qnot_le_lt. intros Hle. apply Qle_bool_iff in Hle. congruence. }
    replace (a - b - 1 + 1)%Z with (a - b)%Z by lia. split; assumption.
Qed.

Lemma ilog2_lt (x : Q) (n : Z) : 0 < x -> x < 2 ^ n -> (ilog2 x < n)%Z.
Proof.
  intros Hx Hn. destruct (ilog2_spec x Hx) as [Hlo _].
  apply pow2_lt_inv. lra.
Qed.

Lemma ilog2_ge (x : Q) (n : Z) : 2 ^ n <= x -> (n <= ilog2 x)%Z.
Proof.
  intros Hn.
  assert (Hx : 0 < x) by (pose proof (pow2_pos n); lra).
  destruct (ilog2_spec x Hx) as [_ Hhi].
  assert (H : (n < ilog2 x + 1)%Z) by (apply pow2_lt_inv; lra).
  lia.
Qed.

(** *** Rounding to an integer *)

Lemma rne_floor (y : Q) : (Qfloor y <= rne y <= Qfloor y + 1)%Z.
Proof.
  unfold rne. destruct (Qcompare _ _); [destruct (Z.even _)| |]; lia.
Qed.

Lemma rne_ge (y : Q) (N : Z) : inject_Z N <= y -> (N <= rne y)%Z.
Proof.
  intros H. pose proof (rne_floor y). apply Qfloor_resp_le in H.
  rewrite Qfloor_Z in H. lia.
Qed.

Lemma rne_near (y : Q) : inject_Z (rne y) <= y + (1 # 2).
Proof.
  unfold rne. pose proof (Qfloor_le y) as Hf.
  destruct (Qcompare (y - inject_Z (Qfloor y)) (1 # 2)) eqn:Hc.
  - apply Qeq_alt in Hc.
    destruct (Z.even _); [lra|]. rewrite inject_Z_plus. change (inject_Z 1) with 1. lra.
  - lra.
  - apply Qgt_alt in Hc. rewrite inject_Z_plus. change (inject_Z 1) with 1. lra.
Qed.

Lemma rne_below (y : Q) (N : Z) : y < inject_Z N - (1 # 2) -> (rne y <= N - 1)%Z.
Proof.
  intros H. unfold rne.
  pose proof (Qfloor_le y) as Hf.
  assert (Hfl : (Qfloor y <= N - 1)%Z).
  { assert (Hq : inject_Z (Qfloor y) < inject_Z N) by lra.
    rewrite <- Zlt_Qlt in Hq. lia. }
  destruct (Z.eq_dec (Qfloor y) (N - 1)%Z) as [Heq|Hne].
  - assert (Hc : Qcompare (y - inject_Z (Qfloor y)) (1 # 2) = Lt).
    { apply (proj1 (Qlt_alt _ _)).
      replace N with (Qfloor y + 1)%Z in H by lia.
      rewrite inject_Z_plus in H. change (inject_Z 1) with 1 in H. lra. }
    rewrite Hc. lia.
  - destruct (Qcompare _ _); [destruct (Z.even _)| |]; lia.
Qed.

(** *** Rounding to a double *)

Lemma roundWith_pos (choose : Q -> Z) (x : Q) :
  0 < x ->
  roundWith choose x
  == inject_Z (choose (x / 2 ^ Z.max (ilog2 x - 52) (-1074)))
     * 2 ^ Z.max (ilog2 x - 52) (-1074).
Proof.
  intros Hx. unfold roundWith.
  destruct (Qeq_bool x 0) eqn:Hz; [apply Qeq_bool_iff in Hz; lra|].
  rewrite Qred_correct.
  replace (Qabs x) with x; [reflexivity|].
  destruct x as [[|p|p] q]; try reflexivity; unfold Qlt in Hx; simpl in Hx; lia.
Qed.

Lemma fl_pos (x : Q) :
  0 < x ->
  exists e m,
    e = Z.max (ilog2 x - 52) (-1074)
    /\ m = rne (x / 2 ^ e)
    /\ fl x == inject_Z m * 2 ^ e
    /\ (0 <= m)%Z
    /\ inject_Z m < inject_Z (2 ^ 53) + 1.
Proof.
  intros Hx. exists (Z.max (ilog2 x - 52) (-1074)), (rne (x / 2 ^ Z.max (ilog2 x - 52) (-1074))).
  split; [reflexivity|]. split; [reflexivity|].
  split; [apply (roundWith_pos rne x Hx)|].
  set (e := Z.max (ilog2 x - 52) (-1074)).
  pose proof (pow2_pos e) as Hc.
  assert (Hy0 : 0 <= x / 2 ^ e).
  { apply Qle_shift_div_l; [exact Hc | lra]. }
  split; [apply rne_ge; exact Hy0|].
  destruct (ilog2_spec x Hx) as [_ Hhi].
  assert (Hy : x / 2 ^ e < inject_Z (2 ^ 53)).
  { apply Qlt_shift_div_r; [exact Hc|].
    rewrite <- (pow2_Z 53) by lia. rewrite <- pow2_plus.
    assert (Hle : 2 ^ (ilog2 x + 1) <= 2 ^ (53 + e)) by (apply pow2_le; lia).
    lra. }
  pose proof (rne_floor (x / 2 ^ e)) as [_ Hm].
  pose proof (Qfloor_le (x / 2 ^ e)) as Hf.
  assert (Hq : inject_Z (rne (x / 2 ^ e)) <= inject_Z (Qfloor (x / 2 ^ e) + 1))
    by (rewrite <- Zle_Qle; exact Hm).
  rewrite inject_Z_plus in Hq. change (inject_Z 1) with 1 in Hq. lra.
Qed.

(** A product that stays below [20 * (1 - 2 ^ -53)] rounds to a double
    below 20. *)
Lemma fl_below_20 (x : Q) :
  0 <= x -> x <= 20 - (20 # 9007199254740992) ->
  0 <= fl x /\ fl x <= 20 - (1 # 281474976710656).
Proof.
  intros H0 H20.
  destruct (Qeq_bool x 0) eqn:Hz.
  { unfold fl, roundWith. rewrite Hz. split; [lra|]. unfold Qle. simpl. lia. }
  assert (Hx : 0 < x).
  { apply Qeq_bool_neq in Hz. apply Qle_lteq in H0 as [Hlt|Heq]; [exact Hlt|].
    exfalso. apply Hz. symmetry. exact Heq. }
  destruct (fl_pos x Hx) as (e & m & He & Hm & Hfl & Hm0 & _).
  rewrite Hfl.
  pose proof (pow2_pos e) as Hc.
  pose proof (div_pow2 x e) as Hy.
  assert (Hmq : 0 <= inject_Z m) by (change 0 with (inject_Z 0); rewrite <- Zle_Qle; lia).
  split; [apply Qmult_le_0_compat; lra|].
  destruct (Qlt_le_dec x 16) as [Hsmall|Hbig].
  - assert (Hi : (ilog2 x < 4)%Z) by (apply ilog2_lt; [exact Hx | exact Hsmall]).
    assert (Hc49 : 2 ^ e <= 1 # 562949953421312).
    { change (1 # 562949953421312) with (2 ^ (-49)). apply pow2_le. lia. }
    pose proof (rne_near (x / 2 ^ e)) as Hnear. rewrite <- Hm in Hnear.
    assert (Hprod : inject_Z m * 2 ^ e <= (x / 2 ^ e + (1 # 2)) * 2 ^ e)
      by (apply Qmult_le_compat_r; lra).
    assert (Hexp : (x / 2 ^ e + (1 # 2)) * 2 ^ e == x + (1 # 2) * 2 ^ e)
      by (rewrite <- Hy at 2; ring).
    lra.
  - assert (Hi : ilog2 x = 4%Z).
    { assert (H4 : (4 <= ilog2 x)%Z) by (apply ilog2_ge; exact Hbig).
      assert (H5 : (ilog2 x < 5)%Z).
      { apply ilog2_lt; [exact Hx|]. change (2 ^ 5) with 32. lra. }
      lia. }
    rewrite Hi in He. change (Z.max (4 - 52) (-1074)) with (-48)%Z in He. subst e.
    change (2 ^ (-48)) with (1 # 281474976710656) in *.
    assert (Hyv : x / (1 # 281474976710656) == x * 281474976710656).
    { unfold Qdiv. apply Qmult_comp; reflexivity. }
    assert (Hbelow : (m <= 5629499534213120 - 1)%Z).
    { rewrite Hm. apply rne_below. rewrite Hyv.
      change (inject_Z 5629499534213120) with 5629499534213120. lra. }
    assert (Hq : inject_Z m <= inject_Z (5629499534213120 - 1))
      by (rewrite <- Zle_Qle; exact Hbelow).
    change (inject_Z (5629499534213120 - 1)) with 5629499534213119 in Hq.
    lra.
Qed.

(** A double below 1 is at most [1 - 2 ^ -53]. *)
Lemma double_below_one (r : Q) :
  isDouble r -> 0 <= r -> r < 1 -> r <= 1 - (1 # 9007199254740992).
Proof.
  intros Hd H0 H1.
  destruct (Qlt_le_dec 0 r) as [Hr|Hr]; [|lra].
  destruct (fl_pos r Hr) as (e & m & He & Hm & Hfl & Hm0 & Hm53).
  unfold isDouble in Hd. rewrite Hfl in Hd.
  assert (Hi : (ilog2 r < 0)%Z) by (apply ilog2_lt; [exact Hr | exact H1]).
  assert (He53 : (e <= -53)%Z) by lia.
  pose proof (pow2_pos e) as Hc.
  assert (Hmq : 0 <= inject_Z m) by (change 0 with (inject_Z 0); rewrite <- Zle_Qle; lia).
  destruct (Z.eq_dec e (-53)%Z) as [->|Hne].
  - change (2 ^ (-53)) with (1 # 9007199254740992) in Hd.
    assert (Hlt : inject_Z m < inject_Z 9007199254740992).
    { change (inject_Z 9007199254740992) with 9007199254740992. lra. }
    rewrite <- Zlt_Qlt in Hlt.
    assert (Hq : inject_Z m <= inject_Z (9007199254740992 - 1))
      by (rewrite <- Zle_Qle; lia).
    change (inject_Z (9007199254740992 - 1)) with 9007199254740991 in Hq. lra.
  - assert (Hc54 : 2 ^ e <= 1 # 18014398509481984).
    { change (1 # 18014398509481984) with (2 ^ (-54)). apply pow2_le. lia. }
    change (inject_Z (2 ^ 53)) with 9007199254740992 in Hm53.
    assert (Hprod : inject_Z m * 2 ^ e <= inject_Z m * (1 # 18014398509481984)).
    { rewrite (Qmult_comm (inject_Z m) (2 ^ e)),
        (Qmult_comm (inject_Z m) (1 # 18014398509481984)).
      apply Qmult_le_compat_r; [exact Hc54 | exact Hmq]. }
    lra.
Qed.

(** The jitter product: below 20 after rounding. *)
Lemma jitter_product (r : Q) :
  isDouble r -> 0 <= r -> r < 1 ->
  0 <= fl (r * 20) /\ fl (r * 20) <= 20 - (1 # 281474976710656).
Proof.
  intros Hd H0 H1. pose proof (double_below_one r Hd H0 H1).
  apply fl_below_20; lra.
Qed.

(** No number from 20 on rounds to a double below 20. *)
Lemma fl_from_20 (v : Q) : 20 <= v -> 20 <= fl v.
Proof.
  intros Hv.
  assert (Hpos : 0 < v) by lra.
  destruct (fl_pos v Hpos) as (e & m & He & Hm & Hfl & Hm0 & _).
  rewrite Hfl.
  assert (Hi : (4 <= ilog2 v)%Z) by (apply ilog2_ge; change (2 ^ 4) with 16; lra).
  assert (He' : e = (ilog2 v - 52)%Z) by lia.
  pose proof (pow2_pos e) as Hc.
  pose proof (div_pow2 v e) as Hy.
  destruct (Z_le_gt_dec e 2) as [Hsmall|Hbig].
  - set (N := (5 * 2 ^ (2 - e))%Z).
    assert (HN : inject_Z N * 2 ^ e == 20).
    { unfold N. rewrite inject_Z_mult, <- (pow2_Z (2 - e)) by lia.
      rewrite <- Qmult_assoc, <- pow2_plus.
      replace (2 - e + e)%Z with 2%Z by lia. reflexivity. }
    assert (Hge : (N <= m)%Z).
    { rewrite Hm. apply rne_ge. apply Qle_shift_div_l; [exact Hc | lra]. }
    assert (Hq : inject_Z N <= inject_Z m) by (rewrite <- Zle_Qle; exact Hge).
    assert (Hprod : inject_Z N * 2 ^ e <= inject_Z m * 2 ^ e)
      by (apply Qmult_le_compat_r; lra).
    lra.
  - destruct (ilog2_spec v Hpos) as [Hlo _].
    assert (Hge : (2 ^ 52 <= m)%Z).
    { rewrite Hm. apply rne_ge. apply Qle_shift_div_l; [exact Hc|].
      rewrite <- (pow2_Z 52) by lia. rewrite <- pow2_plus.
      replace (52 + e)%Z with (ilog2 v) by lia. exact Hlo. }
    assert (Hq : inject_Z (2 ^ 52) <= inject_Z m) by (rewrite <- Zle_Qle; exact Hge).
    assert (Hprod : inject_Z (2 ^ 52) * 2 ^ e <= inject_Z m * 2 ^ e)
      by (apply Qmult_le_compat_r; lra).
    assert (H55 : 2 ^ 5 <= inject_Z (2 ^ 52) * 2 ^ e).
    { rewrite <- (pow2_Z 52) by lia. rewrite <- pow2_plus. apply pow2_le. lia. }
    change (2 ^ 5) with 32 in H55. lra.
Qed.

(** *** The digits [toString] writes *)

Lemma pick_In (x : Q) (k : Z) (cs : list (Z * Z)) (c : Z * Z) :
  pick x k cs = Some c -> In c cs.
Proof.
  destruct cs as [|a [|b rest]]; simpl; [discriminate | intros [= <-]; auto |].
  destruct (Qcompare _ _); [destruct (Z.even _)| |]; intros [= <-]; auto.
Qed.

Lemma shortest_valid (fuel : nat) (x : Q) (n0 : Z) :
  forall k0 s k n,
    shortest fuel k0 x n0 = Some (s, k, n) ->
    (k0 <= k)%Z /\ valid x k (s, n) = true.
Proof.
  induction fuel as [|fuel IH]; intros k0 s k n; cbn [shortest]; [discriminate|].
  destruct (pick x k0 (List.filter (valid x k0) (candidates x n0 k0)))
    as [[s' n']|] eqn:Hpick.
  - intros H. inversion H; subst. split; [lia|].
    apply pick_In, filter_In in Hpick as [_ Hv]. exact Hv.
  - intros H. apply IH in H as [Hk Hv]. split; [lia | exact Hv].
Qed.

(** What the search returns has [k] digits and reads back as [x]. *)
Lemma digits_spec (x : Q) (s k n : Z) :
  digits x = Some (s, k, n) ->
  (1 <= k)%Z /\ (10 ^ (k - 1) <= s < 10 ^ k)%Z
  /\ fl (inject_Z s * 10 ^ (n - k)) == x.
Proof.
  unfold digits. intros H. apply shortest_valid in H as [Hk Hv].
  unfold valid, decimal in Hv. cbn [fst snd] in Hv.
  apply andb_true_iff in Hv as [Hv Hfl]. apply andb_true_iff in Hv as [Hlo Hhi].
  apply Z.leb_le in Hlo. apply Z.ltb_lt in Hhi. apply Qeq_bool_iff in Hfl.
  auto.
Qed.

(** The jitter term is one of 0, ..., 19. *)
Lemma jitter_parse (y : Q) :
  0 <= y -> y <= 20 - (1 # 281474976710656) ->
  (0 <= parseInt_toString y <= 19)%Z.
Proof.
  intros H0 H20. unfold parseInt_toString.
  destruct (Qeq_bool y 0); [lia|].
  destruct (Qle_bool 0 y) eqn:Hb;
    [|apply not_true_iff_false in Hb; rewrite Qle_bool_iff in Hb; contradiction].
  unfold parseInt_positive.
  destruct (digits y) as [[[s k] n]|] eqn:Hd; [|lia].
  apply digits_spec in Hd as (Hk & [Hlo Hhi] & Hfl).
  assert (Hp : (0 < 10 ^ (k - 1))%Z) by (apply Z.pow_pos_nonneg; lia).
  destruct ((-6 <? n)%Z && (n <=? 21)%Z).
  - destruct (n <=? 0)%Z; [lia|].
    set (v := inject_Z s * 10 ^ (n - k)) in *.
    assert (Hv0 : 0 <= v).
    { unfold v. apply Qmult_le_0_compat.
      - change 0 with (inject_Z 0). rewrite <- Zle_Qle. lia.
      - apply Qpower_0_le. discriminate. }
    assert (Hv20 : v < 20).
    { apply Qnot_le_lt. intros Hge. apply fl_from_20 in Hge. lra. }
    pose proof (Qfloor_le v) as Hf. split.
    + change 0%Z with (Qfloor 0). apply Qfloor_resp_le, Hv0.
    + assert (Hq : inject_Z (Qfloor v) < inject_Z 20)
        by (change (inject_Z 20) with 20; lra).
      rewrite <- Zlt_Qlt in Hq. lia.
  - assert (H10 : (10 ^ k = 10 * 10 ^ (k - 1))%Z).
    { replace k with (Z.succ (k - 1)) at 1 by lia. apply Z.pow_succ_r. lia. }
    split.
    + apply Z.div_le_lower_bound; lia.
    + assert (s / 10 ^ (k - 1) < 10)%Z by (apply Z.div_lt_upper_bound; lia). lia.
Qed.

Lemma jitter_range (r : Q) :
  isDouble r -> 0 <= r -> r < 1 ->
  (0 <= parseInt_toString (fl (r * 20)) <= 19)%Z.
Proof.
  intros Hd H0 H1. destruct (jitter_product r Hd H0 H1) as [Hlo Hhi].
  apply jitter_parse; assumption.
Qed.

(** *** The base term *)

(** Rounding to nearest is faithful. *)
Lemma nearest_faithful : faithful nearest_pow.
Proof.
  intros b k. unfold nearest_pow, fl, roundWith.
  destruct (Qeq_bool (b ^ Z.of_nat k) 0); [left; reflexivity|].
  set (e := Z.max _ _). set (y := b ^ Z.of_nat k / 2 ^ e).
  assert (H : rne y = Qfloor y \/ rne y = Qceiling y).
  { unfold rne.
    pose proof (Qfloor_le y) as Hf. pose proof (Qlt_floor y) as Hf1.
    pose proof (Qle_ceiling y) as Hc. pose proof (Qceiling_lt y) as Hc1.
    rewrite inject_Z_plus in Hf1. change (inject_Z 1) with 1 in Hf1.
    unfold Z.sub in Hc1. rewrite inject_Z_plus in Hc1.
    change (inject_Z (- (1))) with (- (1)) in Hc1.
    assert (Hup : inject_Z (Qfloor y) < y -> Qceiling y = (Qfloor y + 1)%Z).
    { intros Hlt.
      assert (H1 : inject_Z (Qfloor y) < inject_Z (Qceiling y)) by lra.
      assert (H2 : inject_Z (Qceiling y) < inject_Z (Qfloor y + 2)).
      { rewrite inject_Z_plus. change (inject_Z 2) with 2. lra. }
      rewrite <- Zlt_Qlt in H1, H2. lia. }
    destruct (Qcompare (y - inject_Z (Qfloor y)) (1 # 2)) eqn:Hcmp.
    - apply Qeq_alt in Hcmp. destruct (Z.even _); [left; reflexivity|].
      right. symmetry. apply Hup. lra.
    - left. reflexivity.
    - apply Qgt_alt in Hcmp. right. symmetry. apply Hup. lra. }
  destruct H as [-> | ->]; [left | right]; reflexivity.
Qed.

(** The base term is the integer part of the exact [50 * 1.8 ^ k], for
    each of the ten attempts and whichever neighbour [**] returns. *)
Lemma base_parse (pow : Q -> nat -> Q) (k : nat) :
  faithful pow -> (k < 10)%nat ->
  parseInt_toString (fl (50 * pow (fl (18 # 10)) k)) = base k.
Proof.
  intros Hpow Hk.
  do 10 (destruct k as [|k];
         [match goal with
          | |- context [pow ?b ?n] =>
              destruct (Hpow b n) as [H|H]; rewrite H; vm_compute; reflexivity
          end|]).
  lia.
Qed.

Lemma interval_lookup (pow : Q -> nat -> Q) (random : nat -> Q) (k : nat) (d : Z) :
  showBackOffIntervals pow random !! k = Some d ->
  (k < 10)%nat /\
  d = (parseInt_toString (fl (50 * pow (fl (18 # 10)) k))
       + parseInt_toString (fl (random k * 20)))%Z.
Proof.
  unfold showBackOffIntervals, showBackOffIntervalsWith. intros H.
  do 10 (destruct k as [|k]; [simpl in H; injection H as <-; split; [lia|reflexivity]|]).
  discriminate H.
Qed.

Lemma timer_lookup (pow : Q -> nat -> Q) (random : nat -> Q) (h i : string)
    (k : nat) (t : Timer) :
  List.map (fun ms => mkTimer ms h i) (showBackOffIntervals pow random) !! k = Some t ->
  showBackOffIntervals pow random !! k = Some (delay t).
Proof.
  change (List.map (fun ms => mkTimer ms h i) (showBackOffIntervals pow random))
    with ((fun ms => mkTimer ms h i) <$> showBackOffIntervals pow random).
  rewrite list_lookup_fmap.
  destruct (showBackOffIntervals pow random !! k); simpl; [|discriminate].
  intros [= <-]. reflexivity.
Qed.

Lemma delay_range (pow : Q -> nat -> Q) (random : nat -> Q) (k : nat) (d : Z) :
  faithful pow -> unit_interval random ->
  showBackOffIntervals pow random !! k = Some d ->
  (k < 10)%nat
  /\ (base k <= d <= base k + 19)%Z
  /\ 50 * (18 # 10) ^ Z.of_nat k - 1 < inject_Z d
  /\ inject_Z d < 50 * (18 # 10) ^ Z.of_nat k + 20.
Proof.
  intros Hpow Hr Hd.
  apply interval_lookup in Hd as [Hk ->].
  rewrite (base_parse pow k Hpow Hk).
  destruct (Hr k) as (Hdbl & H0 & H1).
  pose proof (jitter_range (random k) Hdbl H0 H1) as Hj.
  set (j := parseInt_toString (fl (random k * 20))) in *.
  split; [assumption|]. split; [lia|].
  pose proof (Qfloor_le (50 * (18 # 10) ^ Z.of_nat k)) as Hlo.
  pose proof (Qlt_floor (50 * (18 # 10) ^ Z.of_nat k)) as Hhi.
  fold (base k) in Hlo, Hhi.
  rewrite inject_Z_plus in *.
  assert (Hj0 : inject_Z 0 <= inject_Z j) by (rewrite <- Zle_Qle; lia).
  assert (Hj19 : inject_Z j <= inject_Z 19) by (rewrite <- Zle_Qle; lia).
  change (inject_Z 0) with 0 in Hj0. change (inject_Z 19) with 19 in Hj19.
  change (inject_Z 1) with 1 in Hhi.
  split; lra.
Qed.

(** C4 (as amended).  With [Math.random] returning doubles in [0, 1) and
    a faithful [**], a run of the poller, in [connect] and in
    [reconnect] alike, schedules exactly 10 timers, and the delay of
    attempt [k] is an integer between [floor (50 * 1.8^k)] and
    [floor (50 * 1.8^k) + 19]; so
    [50 * 1.8^k - 1 < delay < 50 * 1.8^k + 20]. *)
Theorem backoff_schedule (pow : Q -> nat -> Q) (random : nat -> Q) (h i : string) :
  faithful pow -> unit_interval random ->
  length (connect_poller pow random h i) = 10%nat
  /\ length (reconnect_poller pow random h i) = 10%nat
  /\ forall (k : nat) (t : Timer),
       connect_poller pow random h i !! k = Some t
       \/ reconnect_poller pow random h i !! k = Some t ->
       (k < 10)%nat
       /\ (base k <= delay t <= base k + 19)%Z
       /\ 50 * (18 # 10) ^ Z.of_nat k - 1 < inject_Z (delay t)
       /\ inject_Z (delay t) < 50 * (18 # 10) ^ Z.of_nat k + 20.
Proof.
  intros Hpow Hr. split; [reflexivity|]. split; [reflexivity|].
  intros k t [Ht|Ht]; apply timer_lookup in Ht;
    exact (delay_range pow random k _ Hpow Hr Ht).
Qed.

(** [Math.random()] returning the doubles nearest to 0.25 and 0.95 in
    turn: 0.95 times 20 rounds up to 19. *)
Lemma backoff_schedule_witness :
  let random := fun k : nat => if Nat.even k then 1 # 4 else fl (95 # 100) in
  let h := "http://localhost:9208/.wrtc/v1"%string in
  List.map delay (connect_poller nearest_pow random h "k3")
  = [55; 109; 167; 310; 529; 963; 1705; 3080; 5514; 9936]%Z
  /\ (base 3 <= 310 <= base 3 + 19)%Z.
Proof.
  intros random h. split; [vm_compute; reflexivity|].
  assert (Hr : unit_interval random).
  { intros k. unfold random.
    destruct (Nat.even k); repeat split; vm_compute;
      first [reflexivity | discriminate]. }
  refine (proj1 (proj2
    (proj2 (proj2 (backoff_schedule nearest_pow random h "k3" nearest_faithful Hr))
       3%nat (mkTimer 310 h "k3") (or_introl _)))).
  vm_compute. reflexivity.
Defined.

(** C4 as stated fails at attempt 3 when [Math.random()] returns 0: the
    delay is 291 ms, below [50 * 1.8^3 = 291.6]. *)
Lemma backoff_lower_bound_fails :
  let random := fun _ : nat => 0 in
  unit_interval random
  /\ List.map delay (connect_poller nearest_pow random "" "") !! 3%nat = Some 291%Z
  /\ List.map delay (reconnect_poller nearest_pow random "" "") !! 3%nat = Some 291%Z
  /\ ~ (50 * (18 # 10) ^ 3 <= inject_Z 291).
Proof.
  intros random. split; [|split; [|split]].
  - intros k. repeat split; vm_compute; first [reflexivity | discriminate].
  - vm_compute. reflexivity.
  - vm_compute. reflexivity.
  - unfold Qle. simpl. lia.
Qed.

End PollerFacts.

(** ** Waiting for candidate gathering *)

Module ReadinessFacts.

Import Readiness.

Lemma started_initially (t0 : Z) (g : IceGatheringState) :
  g <> complete ->
  started t0 (waitUntilIceGatheringStateComplete t0 g TIME_TO_HOST_CANDIDATES).
Proof. destruct g; [split; reflexivity | split; reflexivity | congruence]. Qed.

Lemma started_step (t0 now : Z) (e : Event) (w w' : Wait) :
  started t0 w -> step now e w = Some w' -> started t0 w'.
Proof.
  unfold started, step.
  destruct w as [total lis tmo [[[|reason] t]|]]; simpl.
  - (* resolved *)
    intros [-> ->]. destruct e; [|discriminate].
    intros [= <-]. simpl. auto.
  - (* rejected *)
    intros (-> & -> & Ht & ->). destruct e; [|discriminate].
    intros [= <-]. simpl. auto.
  - (* pending *)
    intros [-> ->]. destruct e as [[c|]|g].
    + intros [= <-]. simpl. auto.
    + intros [= <-]. simpl. auto.
    + destruct (Z.leb_spec (t0 + TIME_TO_HOST_CANDIDATES) now) as [Hdue|]; [|discriminate].
      intros [= <-]. unfold onTimeout. simpl.
      destruct total; simpl; auto.
Qed.

Lemma started_steps (t0 : Z) (evs : list (Z * Event)) (w w' : Wait) :
  started t0 w -> steps evs w = Some w' -> started t0 w'.
Proof.
  revert w. induction evs as [|[now e] evs IH]; intros w Hw; simpl.
  - intros [= <-]. assumption.
  - destruct (step now e w) as [w1|] eqn:Hstep; [|discriminate].
    apply IH. eapply started_step; eassumption.
Qed.

Lemma steps_app (evs evs' : list (Z * Event)) (w : Wait) :
  steps (evs ++ evs') w
  = match steps evs w with Some w1 => steps evs' w1 | None => None end.
Proof.
  revert w. induction evs as [|[now e] evs IH]; intros w; simpl; [reflexivity|].
  destruct (step now e w); [apply IH | reflexivity].
Qed.

(** Candidates alone leave the wait pending and are counted. *)
Lemma steps_discovered (found : list (Z * Candidate)) :
  forall w, listening w = true -> settled w = None ->
    steps (discovered found) w
    = Some (mkWait (length found + totalIceCandidates w) true (timeout w) None).
Proof.
  induction found as [|[t c] found IH]; intros w Hl Hs; simpl.
  - destruct w as [total lis tmo st]. simpl in *. subst. reflexivity.
  - unfold onIceCandidate. rewrite Hl. cbn [fst].
    rewrite IH by first [reflexivity | exact Hs].
    cbn [totalIceCandidates timeout]. rewrite Nat.add_succ_r. reflexivity.
Qed.

(** A wait that has counted a candidate is never rejected. *)
Lemma counted_step (now : Z) (e : Event) (w w' : Wait) :
  (0 < totalIceCandidates w)%nat ->
  (forall reason t, settled w <> Some (Rejected reason, t)) ->
  step now e w = Some w' ->
  (0 < totalIceCandidates w')%nat
  /\ forall reason t, settled w' <> Some (Rejected reason, t).
Proof.
  destruct w as [total lis tmo st]. cbn [totalIceCandidates settled].
  intros Hc Hs. unfold step, onIceCandidate, onTimeout, settle.
  cbn [totalIceCandidates settled listening timeout].
  destruct e as [[c|]|g].
  - intros [= <-]. destruct lis; simpl; auto with lia.
  - intros [= <-]. destruct lis, st; simpl;
      (split; [lia|]); first [exact Hs | discriminate].
  - destruct tmo as [due|]; [|discriminate].
    destruct (due <=? now); [|discriminate].
    destruct total as [|n]; [lia|]. cbn [Nat.ltb Nat.leb].
    intros [= <-]. destruct st; simpl;
      (split; [lia|]); first [exact Hs | discriminate].
Qed.

Lemma counted_steps (evs : list (Z * Event)) :
  forall w w',
    (0 < totalIceCandidates w)%nat ->
    (forall reason t, settled w <> Some (Rejected reason, t)) ->
    steps evs w = Some w' ->
    forall reason t, settled w' <> Some (Rejected reason, t).
Proof.
  induction evs as [|[now e] evs IH]; intros w w' Hc Hs; simpl.
  - intros [= <-]. exact Hs.
  - destruct (step now e w) as [w1|] eqn:Hstep; [|discriminate].
    destruct (counted_step now e w w1 Hc Hs Hstep) as [Hc1 Hs1].
    apply IH; assumption.
Qed.

(** A settled promise keeps its outcome. *)
Lemma outcome_kept (evs : list (Z * Event)) :
  forall w w' o, settled w = Some o -> steps evs w = Some w' -> settled w' = Some o.
Proof.
  induction evs as [|[now e] evs IH]; intros w w' o Hs; simpl.
  - intros [= <-]. exact Hs.
  - destruct (step now e w) as [w1|] eqn:Hstep; [|discriminate].
    apply IH. revert Hstep. destruct w as [total lis tmo st].
    cbn [settled] in Hs. subst st.
    unfold step, onIceCandidate, onTimeout, settle.
    cbn [totalIceCandidates settled listening timeout fst].
    destruct e as [[c|]|g].
    + intros [= <-]. destruct lis; reflexivity.
    + intros [= <-]. destruct lis; reflexivity.
    + destruct tmo as [due|]; [|discriminate].
      destruct (due <=? now); [|discriminate].
      intros [= <-]. destruct (0 <? total)%nat; reflexivity.
Qed.

(** C3.  A wait entered at [t0] while gathering is incomplete, the
    candidates [found] announced one after the other, then the timer:
    - the candidates alone leave the wait pending;
    - the timer does not run before [t0 + 10000];
    - when it runs, at [now >= t0 + 10000], the wait settles at [now]:
      rejected with the time-out error if no candidate was found,
      resolved if at least one was;
    - and whatever the turns of the event loop, a wait found rejected
      was rejected by the timer, run at or after [t0 + 10000] before
      any candidate event. *)
Theorem readiness_deadline (t0 : Z) (g : IceGatheringState)
    (found : list (Z * Candidate)) (now : Z) (g' : IceGatheringState) :
  g <> complete ->
  let w0 := waitUntilIceGatheringStateComplete t0 g TIME_TO_HOST_CANDIDATES in
  (exists w, steps (discovered found) w0 = Some w /\ settled w = None)
  /\ (now < t0 + 10000 ->
      steps (discovered found ++ [(now, TimerFired g')]) w0 = None)
  /\ (t0 + 10000 <= now ->
      exists w', steps (discovered found ++ [(now, TimerFired g')]) w0 = Some w'
                 /\ settled w'
                    = Some (match found with
                            | [] => timedOut g'
                            | _ :: _ => Resolved
                            end, now))
  /\ (forall evs w reason t,
        steps evs w0 = Some w -> settled w = Some (Rejected reason, t) ->
        t0 + 10000 <= t
        /\ exists g'' rest, evs = (t, TimerFired g'') :: rest
                            /\ Rejected reason = timedOut g'').
Proof.
  intros Hg w0.
  assert (Hw0 : w0 = mkWait 0 true (Some (t0 + 10000)) None)
    by (subst w0; destruct g; [reflexivity | reflexivity | congruence]).
  rewrite Hw0. clear Hw0 w0.
  set (w0 := mkWait 0 true (Some (t0 + 10000)) None).
  pose proof (steps_discovered found w0 eq_refl eq_refl) as Hfound.
  cbn [timeout totalIceCandidates w0] in Hfound. rewrite Nat.add_0_r in Hfound.
  split; [|split; [|split]].
  - eexists. split; [exact Hfound | reflexivity].
  - intros Hearly. rewrite steps_app, Hfound. simpl.
    destruct (Z.leb_spec (t0 + 10000) now); [lia | reflexivity].
  - intros Hdue. rewrite steps_app, Hfound. simpl.
    destruct (Z.leb_spec (t0 + 10000) now); [|lia].
    eexists. split; [reflexivity|].
    unfold onTimeout, settle. simpl. destruct found; reflexivity.
  - intros evs w reason t Hsteps Hs.
    destruct evs as [|[now1 e] rest]; simpl in Hsteps.
    { injection Hsteps as <-. discriminate Hs. }
    destruct e as [c|g''].
    + exfalso. simpl in Hsteps.
      refine (counted_steps rest _ w _ _ Hsteps reason t Hs).
      * destruct c; simpl; lia.
      * destruct c; simpl; discriminate.
    + simpl in Hsteps.
      destruct (Z.leb_spec (t0 + 10000) now1) as [Hdue|]; [|discriminate].
      assert (Hkept : settled w = Some (timedOut g'', now1))
        by (exact (outcome_kept rest (onTimeout now1 g'' w0) w _ eq_refl Hsteps)).
      rewrite Hs in Hkept. injection Hkept as Hr ->.
      split; [exact Hdue|]. exists g'', rest. split; [reflexivity|].
      unfold timedOut. rewrite Hr. reflexivity.
Qed.

(** No candidate in ten seconds and the timer at [t0 + 10000]: rejected
    then, and the timer could not run a millisecond earlier.  One
    candidate before the timer: resolved. *)
Lemma readiness_deadline_witness :
  let w0 := waitUntilIceGatheringStateComplete 500 gathering TIME_TO_HOST_CANDIDATES in
  (exists w', steps [(10500, TimerFired gathering)] w0 = Some w'
              /\ settled w'
                 = Some (Rejected "Timed out waiting for host candidates State: gathering",
                         10500))
  /\ steps [(10499, TimerFired gathering)] w0 = None
  /\ (exists w', steps [(700, IceCandidate (Some "candidate:1"));
                        (10500, TimerFired gathering)] w0 = Some w'
                 /\ settled w' = Some (Resolved, 10500)).
Proof.
  intros w0.
  assert (Hg : gathering <> complete) by discriminate.
  split; [|split].
  - exact (proj1 (proj2 (proj2 (readiness_deadline 500 gathering [] 10500 gathering Hg)))
             ltac:(vm_compute; discriminate)).
  - exact (proj1 (proj2 (readiness_deadline 500 gathering [] 10499 gathering Hg))
             eq_refl).
  - exact (proj1 (proj2 (proj2
             (readiness_deadline 500 gathering [(700, "candidate:1"%string)] 10500
                gathering Hg)))
             ltac:(vm_compute; discriminate)).
Defined.

(** One candidate, then the deadline: resolved, not rejected. *)
Example readiness_degraded :
  let w0 := waitUntilIceGatheringStateComplete 500 gathering TIME_TO_HOST_CANDIDATES in
  option_map settled
    (steps [(700, IceCandidate (Some "candidate:1")); (10500, TimerFired gathering)] w0)
  = Some (Some (Resolved, 10500))
  /\ steps [(700, IceCandidate (Some "candidate:1")); (10499, TimerFired gathering)] w0
     = None.
Proof. split; reflexivity. Qed.

End ReadinessFacts.

(** ** The track router and renegotiation *)

Module ServerFacts.

Import Readiness Server.

(** *** Ordered pairs of a list *)

Section Pairs.

Context {A : Type}.

Lemma FOP_snoc (R : A -> A -> Prop) (l : list A) (x : A) :
  ForallOrdPairs R l -> Forall (fun a => R a x) l -> ForallOrdPairs R (l ++ [x]).
Proof.
  induction 1 as [|a l Ha Hl IH]; intros Hx; simpl.
  - constructor; constructor.
  - apply Forall_cons in Hx as [Hax Hx].
    constructor; [|auto].
    apply Forall_app. split; [assumption|]. constructor; [assumption|constructor].
Qed.

Lemma FOP_Forall2 (R R' : A -> A -> Prop) (S : A -> A -> Prop) (l l' : list A) :
  (forall a b a' b', R a b -> S a a' -> S b b' -> R' a' b') ->
  ForallOrdPairs R l -> Forall2 S l l' -> ForallOrdPairs R' l'.
Proof.
  intros HR Hl. revert l'.
  induction Hl as [|a l Ha Hl IH]; intros l' H2.
  - apply Forall2_nil_inv_l in H2 as ->. constructor.
  - apply Forall2_cons_inv_l in H2 as (a' & k & Haa' & H2 & ->).
    constructor; [|auto].
    clear IH Hl. induction H2 as [|b b' l k Hbb' H2 IH]; [constructor|].
    apply Forall_cons in Ha as [Hab Ha].
    constructor; [eauto|auto].
Qed.

Lemma FOP_filter (R : A -> A -> Prop) (p : A -> bool) (l : list A) :
  ForallOrdPairs R l -> ForallOrdPairs R (List.filter p l).
Proof.
  induction 1 as [|a l Ha Hl IH]; simpl; [constructor|].
  destruct (p a); [|assumption].
  constructor; [|assumption].
  apply List.Forall_forall. intros b Hb. apply filter_In in Hb as [Hb _].
  rewrite List.Forall_forall in Ha. auto.
Qed.

Lemma FOP_map (R R' : A -> A -> Prop) (P : A -> Prop) (f : A -> A) (l : list A) :
  (forall a b, P a -> P b -> R a b -> R' (f a) (f b)) ->
  Forall P l -> ForallOrdPairs R l -> ForallOrdPairs R' (List.map f l).
Proof.
  intros HR HP Hl.
  induction Hl as [|a l Ha Hl IH]; simpl; [constructor|].
  apply Forall_cons in HP as [HPa HP].
  constructor; [|auto].
  clear IH Hl. induction l as [|b l IH]; simpl; [constructor|].
  apply Forall_cons in Ha as [Hab Ha]. apply Forall_cons in HP as [HPb HP].
  constructor; [auto|auto].
Qed.

End Pairs.

Section Routing.

Context `{T : Transport}.

Lemma senderTrack_new (k : Kind) (pc : RTCPeerConnection) (track : Track) :
  senderTrack (length (transceivers pc))
    (replaceTrack (length (transceivers pc)) track (fst (addTransceiver k pc)))
  = track_after_replaceTrack track.
Proof.
  unfold senderTrack, replaceTrack, addTransceiver. simpl.
  replace (length (transceivers pc)) with (length (transceivers pc) + 0)%nat at 1 2 by lia.
  rewrite alter_app_r. simpl.
  rewrite list_lookup_middle by lia. reflexivity.
Qed.

(** One round of the loop body, when both sides carry the medium. *)
Lemma forward_normal (k : Kind) (this their : WebRTCConnection) :
  is_Some (own k this) -> is_Some (own k their) ->
  exists this' their',
    forward k this their = Normal (this', their')
    /\ framed this this' /\ framed their their'
    /\ (forall k', k' <> k ->
          routes k' this' = routes k' this /\ routes k' their' = routes k' their)
    /\ (exists n, routes k their' = <[id this := n]> (routes k their))
    /\ (routes k this' = routes k this
        \/ exists n, routes k this' = <[id their := n]> (routes k this))
    /\ (prompt -> exists n, routes k this' = <[id their := n]> (routes k this)).
Proof.
  intros [mine Hmine] [theirs Htheirs].
  unfold forward. cbn [addTransceiver]. rewrite Hmine.
  match goal with
  | |- context [own k ?c] =>
      lazymatch c with
      | set_routes _ _ _ => replace (own k c) with (Some theirs)
                              by (destruct k; simpl in *; congruence)
      end
  end.
  pose proof (senderTrack_new k (peerConnection this) (mkTrack (id their) theirs))
    as Hsender.
  unfold addTransceiver in Hsender. cbn [fst] in Hsender.
  replace (id (set_routes k _ _)) with (id their) by (destruct k; reflexivity).
  cbn [peerConnection set_pc]. rewrite Hsender.
  destruct (track_after_replaceTrack (mkTrack (id their) theirs)) as [tr|] eqn:Htr.
  - eexists _, _. split; [reflexivity|].
    repeat split; try (destruct k; reflexivity);
      try (intros; destruct k, k'; try congruence; reflexivity).
    + eexists. destruct k; reflexivity.
    + right. eexists. destruct k; reflexivity.
    + intros _. eexists. destruct k; reflexivity.
  - eexists _, _. split; [reflexivity|].
    repeat split; try (destruct k; reflexivity);
      try (intros; destruct k, k'; try congruence; reflexivity).
    + eexists. destruct k; reflexivity.
    + left. destruct k; reflexivity.
    + intros Hp. destruct (Hp (mkTrack (id their) theirs)) as [? Hs]. congruence.
Qed.

Lemma forward_grows (k : Kind) (this their : WebRTCConnection) :
  is_Some (own k this) -> is_Some (own k their) ->
  exists this' their',
    forward k this their = Normal (this', their')
    /\ framed this this' /\ grown k (id this) their their'
    /\ (forall k', k' <> k -> routes k' this' = routes k' this)
    /\ (forall j, is_Some (routes k this' !! j) ->
          is_Some (routes k this !! j) \/ j = id their)
    /\ (forall j, is_Some (routes k this !! j) -> is_Some (routes k this' !! j))
    /\ (prompt -> is_Some (routes k this' !! id their)).
Proof.
  intros Hthis Htheir.
  destruct (forward_normal k this their Hthis Htheir)
    as (this' & their' & Hf & Hfr & Hfr' & Hother & Hin & Hout & Hprompt).
  exists this', their'. split; [assumption|]. split; [assumption|].
  split; [|split; [|split; [|split]]].
  - split; [assumption|]. split; [|assumption].
    intros k' Hk'. apply (Hother k' Hk').
  - intros k' Hk'. apply (Hother k' Hk').
  - intros j Hj. destruct Hout as [Heq|[n Heq]]; rewrite Heq in Hj; [auto|].
    destruct (decide (id their = j)) as [<-|Hne]; [auto|].
    rewrite lookup_insert_ne in Hj by assumption. auto.
  - intros j Hj. destruct Hout as [Heq|[n Heq]]; rewrite Heq; [assumption|].
    destruct (decide (id their = j)) as [<-|Hne].
    + rewrite lookup_insert_eq. eauto.
    + rewrite lookup_insert_ne by assumption. assumption.
  - intros Hp. destruct (Hprompt Hp) as [n ->]. rewrite lookup_insert_eq. eauto.
Qed.

Lemma forwardAll_grows (k : Kind) (connections : list WebRTCConnection) :
  forall this,
  is_Some (own k this) ->
  Forall (fun c => is_Some (own k c)) connections ->
  exists this' connections',
    forwardAll k this connections = Normal (this', connections')
    /\ framed this this'
    /\ Forall2 (grown k (id this)) connections connections'
    /\ (forall k', k' <> k -> routes k' this' = routes k' this)
    /\ (forall j, is_Some (routes k this' !! j) ->
          is_Some (routes k this !! j) \/ j ∈ ids connections)
    /\ (forall j, is_Some (routes k this !! j) -> is_Some (routes k this' !! j))
    /\ (prompt -> forall c, c ∈ connections -> is_Some (routes k this' !! id c)).
Proof.
  induction connections as [|their rest IH]; intros this Hthis Hall.
  - exists this, []. simpl.
    repeat split; auto.
    intros _ c Hc. apply elem_of_nil in Hc. destruct Hc.
  - apply Forall_cons in Hall as [Htheir Hrest].
    destruct (forward_grows k this their Hthis Htheir)
      as (this1 & their1 & Hf & [Hid1 Hown1] & Hgrown & Hoth1 & Hnew1 & Hold1 & Hp1).
    assert (Hthis1 : is_Some (own k this1)) by (rewrite Hown1; assumption).
    destruct (IH this1 Hthis1 Hrest)
      as (this2 & rest' & Hfa & [Hid2 Hown2] & Hgrown2 & Hoth2 & Hnew2 & Hold2 & Hp2).
    exists this2, (their1 :: rest'). simpl. rewrite Hf, Hfa.
    split; [reflexivity|].
    split; [|split; [|split; [|split; [|split]]]].
    + split; [congruence|]. intros k'. rewrite Hown2. apply Hown1.
    + constructor; [assumption|]. rewrite <- Hid1. assumption.
    + intros k' Hk'. rewrite (Hoth2 k' Hk'). apply (Hoth1 k' Hk').
    + intros j Hj. unfold ids. simpl.
      destruct (Hnew2 j Hj) as [Hj1|Hj1].
      * destruct (Hnew1 j Hj1) as [?| ->]; [auto|]. right. apply elem_of_cons. auto.
      * right. apply elem_of_cons. auto.
    + intros j Hj. auto.
    + intros Hp c Hc. apply elem_of_cons in Hc as [->|Hc].
      * apply Hold2, Hp1, Hp.
      * apply Hp2; assumption.
Qed.

Lemma setupKind_grows (k : Kind) (this : WebRTCConnection)
    (connections : list WebRTCConnection) :
  Forall (fun c => is_Some (own k c)) connections ->
  exists this' connections',
    setupKind k this connections = Normal (this', connections')
    /\ id this' = id this
    /\ is_Some (own k this')
    /\ (forall k', k' <> k ->
          own k' this' = own k' this /\ routes k' this' = routes k' this)
    /\ Forall2 (grown k (id this)) connections connections'
    /\ (forall j, is_Some (routes k this' !! j) ->
          is_Some (routes k this !! j) \/ j ∈ ids connections)
    /\ (prompt -> forall c, c ∈ connections -> is_Some (routes k this' !! id c)).
Proof.
  intros Hall. unfold setupKind.
  set (this1 := match own k this with Some _ => this | None => _ end).
  assert (H1 : id this1 = id this /\ is_Some (own k this1)
               /\ routes k this1 = routes k this
               /\ forall k', k' <> k ->
                    own k' this1 = own k' this /\ routes k' this1 = routes k' this).
  { subst this1. destruct (own k this) eqn:Hown.
    - rewrite Hown. eauto.
    - cbn [addTransceiver].
      repeat split; try (destruct k; simpl; eauto);
        intros; destruct k'; simpl; congruence. }
  destruct H1 as (Hid1 & Hown1 & Hr1 & Hoth1).
  destruct (forwardAll_grows k connections this1 Hown1 Hall)
    as (this' & cs' & Hf & [Hid Hown] & Hgrown & Hoth & Hnew & _ & Hp).
  exists this', cs'. split; [assumption|].
  split; [congruence|]. split; [rewrite Hown; assumption|].
  split; [|split; [|split]].
  - intros k' Hk'. rewrite Hown, (Hoth k' Hk'). apply (Hoth1 k' Hk').
  - rewrite <- Hid1. assumption.
  - intros j Hj. rewrite <- Hr1. auto.
  - assumption.
Qed.

Lemma grown_joined (k : Kind) (i : ChannelId) (c c' : WebRTCConnection) :
  grown k i c c' ->
  framed c c'
  /\ (forall k', k' <> k -> routes k' c' = routes k' c)
  /\ forall j,
       (is_Some (routes k c !! j) -> is_Some (routes k c' !! j))
       /\ (is_Some (routes k c' !! j) -> is_Some (routes k c !! j) \/ j = i)
       /\ is_Some (routes k c' !! i).
Proof.
  intros (Hfr & Hoth & n & Hn). split; [assumption|]. split; [assumption|].
  intros j. rewrite Hn. rewrite lookup_insert_eq.
  destruct (decide (i = j)) as [<-|Hne].
  - rewrite lookup_insert_eq. eauto.
  - rewrite lookup_insert_ne by assumption. eauto.
Qed.

Lemma other_kind (k : Kind) : exists k', k' <> k /\ forall k'', k'' = k \/ k'' = k'.
Proof.
  destruct k; [exists Video | exists Audio];
    (split; [discriminate | intros []; auto]).
Qed.

(** What the constructor does to the connections already there, and what
    the new connection looks like. *)
Lemma constructor_joins (i : ChannelId) (serverOptions : ServerOptions)
    (connections : list WebRTCConnection) (u : Data) :
  let v := default false (enableVideo serverOptions) in
  Forall (fun c => forall k, is_Some (own k c) <-> v = true) connections ->
  exists this connections',
    constructor i serverOptions connections u = Normal (this, connections')
    /\ id this = i
    /\ (forall k, is_Some (own k this) <-> v = true)
    /\ Forall2 (joined v i) connections connections'
    /\ (forall k j, is_Some (routes k this !! j) -> j ∈ ids connections)
    /\ (prompt -> v = true ->
        forall k c, c ∈ connections -> is_Some (routes k this !! id c)).
Proof.
  intros v Hall. unfold constructor. fold v.
  set (this0 := mkConn i opened newPeerConnection [] TIME_TO_HOST_CANDIDATES
                       None None ∅ ∅ u []).
  destruct v eqn:Hv; unfold setupStreams.
  - assert (HallV : Forall (fun c => is_Some (own Video c)) connections).
    { eapply Forall_impl; [exact Hall|]. intros c Hc. apply Hc. reflexivity. }
    destruct (setupKind_grows Video this0 connections HallV)
      as (this1 & cs1 & -> & Hid1 & Hown1 & Hoth1 & Hg1 & Hnew1 & Hp1).
    assert (HallA : Forall (fun c => is_Some (own Audio c)) cs1).
    { apply Forall_forall. intros c1 Hc1.
      apply list_elem_of_lookup in Hc1 as [n Hn].
      destruct (Forall2_lookup_r _ _ _ _ _ Hg1 Hn) as (c & Hc & [[_ Hown] _]).
      rewrite Hown. rewrite Forall_forall in Hall.
      apply (Hall c); [eapply list_elem_of_lookup_2; eassumption | reflexivity]. }
    destruct (setupKind_grows Audio this1 cs1 HallA)
      as (this2 & cs2 & -> & Hid2 & Hown2 & Hoth2 & Hg2 & Hnew2 & Hp2).
    assert (Hids : ids cs1 = ids connections).
    { unfold ids. clear -Hg1. induction Hg1 as [|c c1 l l1 [[Hid _] _] _ IH]; simpl;
        congruence. }
    exists this2, cs2. split; [reflexivity|].
    split; [simpl in *; congruence|].
    split; [|split; [|split]].
    + intros [|]; split; auto; intros _.
      destruct (Hoth2 Video) as [-> _]; [discriminate | assumption].
    + clear -Hg1 Hg2 Hid1. simpl in *. rewrite Hid1 in Hg2. simpl in Hg2.
      revert cs2 Hg2.
      induction Hg1 as [|c c1 l l1 Hc _ IH]; intros cs2 Hg2.
      * apply Forall2_nil_inv_l in Hg2 as ->. constructor.
      * apply Forall2_cons_inv_l in Hg2 as (c2 & l2 & Hc2 & Hg2 & ->).
        constructor; [|auto].
        apply grown_joined in Hc as ([Hida Howna] & HothV & HV).
        apply grown_joined in Hc2 as ([Hidb Hownb] & HothA & HA).
        split.
        { split; [congruence|]. intros k. rewrite Hownb. apply Howna. }
        intros [|] j.
        -- rewrite <- (HothV Audio) by discriminate. specialize (HA j).
           destruct HA as (? & ? & ?). split; [|split]; auto.
        -- rewrite (HothA Video) by discriminate. specialize (HV j).
           destruct HV as (? & ? & ?). split; [|split]; auto.
    + intros [|] j Hj.
      * destruct (Hnew2 j Hj) as [Hj1|Hj1]; [|rewrite <- Hids; assumption].
        destruct (Hoth1 Audio) as [_ Hr]; [discriminate|].
        rewrite Hr in Hj1. simpl in Hj1. rewrite lookup_empty in Hj1.
        destruct Hj1 as [? [=]].
      * destruct (Hoth2 Video) as [_ Hr]; [discriminate|]. rewrite Hr in Hj.
        destruct (Hnew1 j Hj) as [Hj1|Hj1]; [|assumption].
        simpl in Hj1. rewrite lookup_empty in Hj1. destruct Hj1 as [? [=]].
    + intros Hprompt _ [|] c Hc.
      * apply list_elem_of_lookup in Hc as [n Hn].
        destruct (Forall2_lookup_l _ _ _ _ _ Hg1 Hn) as (c1 & Hc1 & [[Hidc _] _]).
        rewrite <- Hidc. apply (Hp2 Hprompt).
        eapply list_elem_of_lookup_2; eassumption.
      * destruct (Hoth2 Video) as [_ Hr]; [discriminate|]. rewrite Hr.
        apply (Hp1 Hprompt). assumption.
  - exists this0, connections. split; [reflexivity|]. split; [reflexivity|].
    split; [|split; [|split]].
    + intros [|]; simpl; split; intros H; try discriminate;
        destruct H as [? [=]].
    + apply Forall_Forall2_diag. apply Forall_forall. intros c _.
      split; [split; auto|]. intros k j. split; [auto|]. split; [auto|discriminate].
    + intros [|] j; simpl; rewrite lookup_empty; intros [? [=]].
    + discriminate.
Qed.

(** *** The registry *)

Lemma getConnection_Some (i : ChannelId) (connections : list WebRTCConnection)
    (c : WebRTCConnection) :
  getConnection i connections = Some c -> c ∈ connections /\ id c = i.
Proof.
  unfold getConnection. intros H. apply find_some in H as [Hin Hid].
  split; [apply list_elem_of_In, Hin|].
  unfold hasId in Hid. apply String.eqb_eq, Hid.
Qed.

Lemma getConnection_None (i : ChannelId) (connections : list WebRTCConnection) :
  getConnection i connections = None <-> i ∉ ids connections.
Proof.
  unfold getConnection, ids.
  induction connections as [|c rest IH]; simpl.
  - split; [intros _ H; apply elem_of_nil in H; destruct H | reflexivity].
  - unfold hasId at 1. destruct (String.eqb_spec (id c) i) as [Heq|Hne].
    + split; [discriminate|]. intros H. exfalso. apply H. rewrite <- Heq. left.
    + rewrite IH. rewrite not_elem_of_cons. intuition congruence.
Qed.

Lemma getConnection_app (i : ChannelId) (l l' : list WebRTCConnection) :
  getConnection i (l ++ l') =
  match getConnection i l with
  | Some c => Some c
  | None => getConnection i l'
  end.
Proof.
  unfold getConnection. induction l as [|c l IH]; simpl; [reflexivity|].
  destruct (hasId i c); [reflexivity | assumption].
Qed.

Lemma putConnection_fresh (c : WebRTCConnection) (connections : list WebRTCConnection) :
  id c ∉ ids connections -> putConnection c connections = connections ++ [c].
Proof.
  unfold ids. induction connections as [|c' rest IH]; simpl; [reflexivity|].
  intros H. apply not_elem_of_cons in H as [Hne H].
  unfold hasId at 1. destruct (String.eqb_spec (id c') (id c)); [congruence|].
  rewrite IH by assumption. reflexivity.
Qed.

Lemma sameRouting_refl (c : WebRTCConnection) : sameRouting c c.
Proof. split; auto. Qed.

Lemma putConnection_same (c c' : WebRTCConnection)
    (connections : list WebRTCConnection) :
  getConnection (id c') connections = Some c -> sameRouting c c' ->
  Forall2 sameRouting connections (putConnection c' connections).
Proof.
  unfold getConnection. intros Hget Hsame.
  induction connections as [|h rest IH]; simpl in *; [discriminate|].
  destruct (hasId (id c') h).
  - injection Hget as ->. constructor; [assumption|].
    apply Forall_Forall2_diag, Forall_forall. intros. apply sameRouting_refl.
  - constructor; [apply sameRouting_refl | auto].
Qed.

Lemma ids_same (connections connections' : list WebRTCConnection) :
  Forall2 (fun c c' => id c' = id c) connections connections' ->
  ids connections' = ids connections.
Proof. unfold ids. induction 1; simpl; congruence. Qed.

Lemma consistent_same (v : bool) (connections connections' : list WebRTCConnection) :
  consistent v connections -> Forall2 sameRouting connections connections' ->
  consistent v connections'.
Proof.
  intros (Hown & Hdang & Hpairs) Hsame.
  assert (Hids : ids connections' = ids connections).
  { apply ids_same. eapply Forall2_impl; [exact Hsame|]. intros ? ? [? _]. assumption. }
  split; [|split].
  - apply Forall_forall. intros c' Hc'.
    apply list_elem_of_lookup in Hc' as [n Hn].
    destruct (Forall2_lookup_r _ _ _ _ _ Hsame Hn) as (c & Hc & [_ Hs]).
    intros k. destruct (Hs k) as [-> _].
    rewrite Forall_forall in Hown. apply Hown.
    eapply list_elem_of_lookup_2; eassumption.
  - intros k c' j Hc' Hj.
    apply list_elem_of_lookup in Hc' as [n Hn].
    destruct (Forall2_lookup_r _ _ _ _ _ Hsame Hn) as (c & Hc & [_ Hs]).
    destruct (Hs k) as [_ Hr]. rewrite Hr in Hj. rewrite Hids.
    eapply Hdang; [eapply list_elem_of_lookup_2; eassumption | eassumption].
  - intros k.
    eapply (FOP_Forall2 (routed k) (routed k) sameRouting); [|apply Hpairs|exact Hsame].
    intros a b a' b' Hab [Hida Ha] [Hidb Hb]. unfold routed in *.
    destruct (Ha k) as [-> ->]. destruct (Hb k) as [-> ->].
    rewrite Hida, Hidb. assumption.
Qed.

Lemma consistent_put (v : bool) (c c' : WebRTCConnection)
    (connections : list WebRTCConnection) :
  consistent v connections ->
  getConnection (id c') connections = Some c -> sameRouting c c' ->
  consistent v (putConnection c' connections).
Proof.
  intros Hc Hget Hsame.
  eapply consistent_same; [exact Hc|].
  eapply putConnection_same; eassumption.
Qed.

Lemma forget_spec (i : ChannelId) (c : WebRTCConnection) :
  id (forget i c) = id c
  /\ forall k, own k (forget i c) = own k c
               /\ routes k (forget i c) = delete i (routes k c).
Proof. split; [reflexivity|]. intros [|]; split; reflexivity. Qed.

Lemma elem_of_onClosed (x c' : WebRTCConnection) (connections : list WebRTCConnection) :
  c' ∈ onClosed x connections <->
  exists c, c ∈ connections /\ id c <> id x /\ c' = forget (id x) c.
Proof.
  unfold onClosed. rewrite list_elem_of_In, in_map_iff.
  split.
  - intros (c & <- & Hc). apply filter_In in Hc as [Hc Hid].
    exists c. split; [apply list_elem_of_In, Hc|]. split; [|reflexivity].
    unfold hasId in Hid. destruct (String.eqb_spec (id c) (id x)); [discriminate|auto].
  - intros (c & Hc & Hid & ->). exists c. split; [reflexivity|].
    apply filter_In. split; [apply list_elem_of_In, Hc|].
    unfold hasId. destruct (String.eqb_spec (id c) (id x)); [contradiction|reflexivity].
Qed.

(** Closing a connection keeps the registry consistent. *)
Lemma consistent_onClosed (v : bool) (x : WebRTCConnection)
    (connections : list WebRTCConnection) :
  consistent v connections -> consistent v (onClosed x connections).
Proof.
  intros (Hown & Hdang & Hpairs).
  split; [|split].
  - apply Forall_forall. intros c' Hc'.
    apply elem_of_onClosed in Hc' as (c & Hc & _ & ->).
    intros k. destruct (forget_spec (id x) c) as [_ Hf]. destruct (Hf k) as [-> _].
    rewrite Forall_forall in Hown. auto.
  - intros k c' j Hc' Hj.
    apply elem_of_onClosed in Hc' as (c & Hc & _ & ->).
    destruct (forget_spec (id x) c) as [_ Hf]. destruct (Hf k) as [_ Hr].
    rewrite Hr in Hj.
    destruct (decide (id x = j)) as [<-|Hne].
    { rewrite lookup_delete_eq in Hj. destruct Hj as [? [=]]. }
    rewrite lookup_delete_ne in Hj by assumption.
    pose proof (Hdang k c j Hc Hj) as Hin.
    unfold ids in *. apply list_elem_of_In, in_map_iff in Hin as (d & <- & Hd).
    apply list_elem_of_In, in_map_iff. exists (forget (id x) d).
    split; [reflexivity|].
    apply list_elem_of_In, elem_of_onClosed. exists d.
    split; [apply list_elem_of_In, Hd|]. split; [congruence|reflexivity].
  - intros k. unfold onClosed.
    eapply (FOP_map (routed k) (routed k) (fun c => id c <> id x)).
    + intros a b Ha Hb Hab. unfold routed in *.
      destruct (forget_spec (id x) a) as [-> Hfa].
      destruct (forget_spec (id x) b) as [-> Hfb].
      destruct (Hfa k) as [-> ->]. destruct (Hfb k) as [-> ->].
      rewrite !lookup_delete_ne by congruence. assumption.
    + apply List.Forall_forall. intros c Hc. apply filter_In in Hc as [_ Hid].
      unfold hasId in Hid. destruct (String.eqb_spec (id c) (id x)); [discriminate|auto].
    + apply FOP_filter, Hpairs.
Qed.

(** Registering a freshly constructed connection keeps the registry
    consistent. *)
Lemma consistent_joined (v : bool) (i : ChannelId) (this : WebRTCConnection)
    (connections connections' : list WebRTCConnection) :
  consistent v connections ->
  i ∉ ids connections ->
  id this = i ->
  (forall k, is_Some (own k this) <-> v = true) ->
  Forall2 (joined v i) connections connections' ->
  (forall k j, is_Some (routes k this !! j) -> j ∈ ids connections) ->
  (prompt -> v = true ->
   forall k c, c ∈ connections -> is_Some (routes k this !! id c)) ->
  consistent v (connections' ++ [this]).
Proof.
  intros (Hown & Hdang & Hpairs) Hfresh Hid Hthis Hjoin Hkeys Hback.
  assert (Hids : ids connections' = ids connections).
  { apply ids_same. eapply Forall2_impl; [exact Hjoin|]. intros ? ? [[? _] _]. assumption. }
  assert (Hidsapp : ids (connections' ++ [this]) = ids connections ++ [i]).
  { unfold ids in *. rewrite List.map_app, Hids. simpl. congruence. }
  rewrite Forall_forall in Hown.
  split; [|split].
  - apply Forall_app. split; [|constructor; [assumption|constructor]].
    apply Forall_forall. intros c' Hc'.
    apply list_elem_of_lookup in Hc' as [n Hn].
    destruct (Forall2_lookup_r _ _ _ _ _ Hjoin Hn) as (c & Hc & [[_ Ho] _]).
    intros k. rewrite Ho. apply Hown. eapply list_elem_of_lookup_2; eassumption.
  - intros k c' j Hc' Hj. rewrite Hidsapp. apply elem_of_app.
    apply elem_of_app in Hc' as [Hc'|Hc'].
    + apply list_elem_of_lookup in Hc' as [n Hn].
      destruct (Forall2_lookup_r _ _ _ _ _ Hjoin Hn) as (c & Hc & [_ Hr]).
      destruct (Hr k j) as (_ & Hnew & _).
      destruct (Hnew Hj) as [Hold| ->].
      * left. eapply Hdang; [eapply list_elem_of_lookup_2; eassumption|eassumption].
      * right. apply list_elem_of_singleton. reflexivity.
    + apply list_elem_of_singleton in Hc' as ->. left. eapply Hkeys; eassumption.
  - intros k. apply FOP_snoc.
    + eapply (FOP_Forall2 (routed k) (routed k) (joined v i));
        [|apply Hpairs|exact Hjoin].
      intros a b a' b' Hab [[Hida Ha] Hra] [[Hidb Hb] Hrb]. unfold routed in *.
      rewrite Ha, Hb, Hida, Hidb. intros Hoa Hob.
      destruct (Hab Hoa Hob) as [H1 H2].
      split; [apply Hra, H1|]. intros Hp. apply Hrb, H2, Hp.
    + apply Forall_forall. intros c' Hc'.
      apply list_elem_of_lookup in Hc' as [n Hn].
      destruct (Forall2_lookup_r _ _ _ _ _ Hjoin Hn) as (c & Hc & [[Hidc Ho] Hr]).
      unfold routed. intros _ Hothis. apply Hthis in Hothis.
      rewrite Hid. split; [apply (Hr k i), Hothis|].
      intros Hp. rewrite Hidc. apply Hback; try assumption.
      eapply list_elem_of_lookup_2; eassumption.
Qed.

Lemma close_same (c : WebRTCConnection) : sameRouting c (close c).
Proof. split; [reflexivity|]. intros [|]; split; reflexivity. Qed.

Lemma doOffer_same (now : Z) (this : WebRTCConnection) :
  sameRouting this (outcome (doOffer now this)).
Proof.
  unfold doOffer.
  destruct (createOffer (peerConnection this)) as [offer|]; [|apply close_same].
  destruct (acceptsLocalDescription (peerConnection this) offer); [|apply close_same].
  split; [reflexivity|]. intros [|]; split; reflexivity.
Qed.

Lemma dispatchIceCandidate_same (now : Z) (candidate : option Candidate)
    (c : WebRTCConnection) :
  sameRouting c (dispatchIceCandidate now candidate c).
Proof. split; [reflexivity|]. intros [|]; split; reflexivity. Qed.

Lemma consistent_createConnection (serverOptions : ServerOptions) (now : Z)
    (i : ChannelId) (u : Data) (connections : list WebRTCConnection) :
  consistent (default false (enableVideo serverOptions)) connections ->
  getConnection i connections = None ->
  consistent (default false (enableVideo serverOptions))
    (outcome (createConnection serverOptions now i u connections)).
Proof.
  intros Hc Hfresh. apply getConnection_None in Hfresh.
  unfold createConnection.
  destruct (constructor_joins i serverOptions connections u (proj1 Hc))
    as (this & cs1 & -> & Hid & Hown & Hjoin & Hkeys & Hback).
  assert (Hids : ids cs1 = ids connections).
  { apply ids_same. eapply Forall2_impl; [exact Hjoin|]. intros ? ? [[? _] _]. assumption. }
  rewrite putConnection_fresh by (rewrite Hid, Hids; assumption).
  pose proof (consistent_joined _ i this connections cs1 Hc Hfresh Hid Hown Hjoin
                Hkeys Hback) as Hc2.
  pose proof (doOffer_same now this) as Hsame.
  destruct (doOffer now this) as [this1|e this1]; simpl in *.
  - eapply consistent_put; [exact Hc2| |exact Hsame].
    destruct Hsame as [-> _].
    rewrite getConnection_app.
    replace (getConnection (id this) cs1) with (@None WebRTCConnection).
    + unfold getConnection. simpl. unfold hasId. rewrite String.eqb_refl. reflexivity.
    + symmetry. apply getConnection_None. rewrite Hid, Hids. assumption.
  - apply consistent_onClosed, Hc2.
Qed.

Lemma consistent_applyOp (serverOptions : ServerOptions) (op : Op)
    (connections connections' : list WebRTCConnection) :
  consistent (default false (enableVideo serverOptions)) connections ->
  applyOp serverOptions op connections = Some connections' ->
  consistent (default false (enableVideo serverOptions)) connections'.
Proof.
  intros Hc. destruct op as [now i u|i|now i|now i candidate]; simpl.
  - destruct (getConnection i connections) eqn:Hget; [discriminate|].
    intros [= <-]. apply consistent_createConnection; assumption.
  - intros [= <-]. unfold closeConnection.
    destruct (getConnection i connections); [apply consistent_onClosed|]; assumption.
  - intros [= <-]. unfold reconnectConnection.
    destruct (getConnection i connections) as [c|] eqn:Hget; [|assumption].
    pose proof (doOffer_same now c) as Hsame. unfold reconnect.
    destruct (doOffer now c) as [c1|e c1]; simpl in *.
    + eapply consistent_put; [exact Hc| |exact Hsame].
      destruct Hsame as [-> _]. apply getConnection_Some in Hget as Hget'.
      destruct Hget' as [_ ->]. assumption.
    + apply consistent_onClosed, Hc.
  - destruct (getConnection i connections) as [c|] eqn:Hget; intros [= <-];
      [|assumption].
    eapply consistent_put; [exact Hc| |apply dispatchIceCandidate_same].
    apply getConnection_Some in Hget as Hget'. destruct Hget' as [_ Hid].
    simpl. rewrite Hid. assumption.
Qed.

Lemma consistent_nil (v : bool) : consistent v [].
Proof.
  split; [constructor|]. split.
  - intros k c j Hc. apply elem_of_nil in Hc. destruct Hc.
  - intros k. constructor.
Qed.

Lemma consistent_applyAll (serverOptions : ServerOptions) (ops : list Op)
    (connections connections' : list WebRTCConnection) :
  consistent (default false (enableVideo serverOptions)) connections ->
  applyAll serverOptions ops connections = Some connections' ->
  consistent (default false (enableVideo serverOptions)) connections'.
Proof.
  revert connections.
  induction ops as [|op ops IH]; intros connections Hc; simpl.
  - intros [= <-]. assumption.
  - destruct (applyOp serverOptions op connections) as [connections1|] eqn:Hop;
      [|discriminate].
    apply IH. eapply consistent_applyOp; eassumption.
Qed.

(** The routes of a registry reached from the empty one, whatever the
    transport: of two registered connections with a video transceiver
    the one registered earlier has a [videoMap] entry for the later one,
    and the later one has an entry for the earlier one when
    [sender.track] is set right after [replaceTrack]; no route of either
    kind leads out of the registry. *)
Lemma routes_of_registry (serverOptions : ServerOptions) (ops : list Op)
    (connections : list WebRTCConnection) :
  applyAll serverOptions ops [] = Some connections ->
  Forall (fun c => is_Some (video c) <-> default false (enableVideo serverOptions) = true)
    connections
  /\ ForallOrdPairs
       (fun A B =>
          is_Some (video A) -> is_Some (video B) ->
          is_Some (videoMap A !! id B) /\ (prompt -> is_Some (videoMap B !! id A)))
       connections
  /\ (forall k Y j, Y ∈ connections -> is_Some (routes k Y !! j) ->
        exists X, X ∈ connections /\ id X = j).
Proof.
  intros Hrun.
  pose proof (consistent_applyAll serverOptions ops [] connections
                (consistent_nil _) Hrun) as (Hown & Hdang & Hpairs).
  split; [|split; [exact (Hpairs Video)|]].
  - eapply Forall_impl; [exact Hown|]. intros c Hc. exact (Hc Video).
  - intros k Y j HY Hj. pose proof (Hdang k Y j HY Hj) as Hin.
    unfold ids in Hin. apply list_elem_of_In, in_map_iff in Hin as (X & <- & HX).
    exists X. split; [apply list_elem_of_In, HX | reflexivity].
Qed.

(** C6.  The server's transport is [wrtc] (the [require('wrtc')] at the
    head of the file), on which [sender.track] is set as soon as
    [replaceTrack] has been called.  Over it, in every registry reached
    from the empty one by creating, closing and renegotiating
    connections and by ICE events:
    - any two registered connections [A] and [B] that both have a video
      transceiver have [videoMap] entries for each other;
    - every registered connection has a video transceiver when the
      server runs with [enableVideo];
    - every [videoMap] entry names a registered connection;
    - after [close] on [x], no remaining connection is [x] or has a
      [videoMap] or [audioMap] entry for [x]. *)
Theorem track_routing (serverOptions : ServerOptions) (ops : list Op)
    (connections : list WebRTCConnection) :
  prompt ->
  applyAll serverOptions ops [] = Some connections ->
  (forall A B, A ∈ connections -> B ∈ connections -> A <> B ->
     is_Some (video A) -> is_Some (video B) ->
     is_Some (videoMap A !! id B) /\ is_Some (videoMap B !! id A))
  /\ (enableVideo serverOptions = Some true ->
      forall A, A ∈ connections -> is_Some (video A))
  /\ (forall Y j, Y ∈ connections -> is_Some (videoMap Y !! j) ->
        exists X, X ∈ connections /\ id X = j)
  /\ (forall x Y, Y ∈ closeConnection x connections ->
        id Y <> x /\ videoMap Y !! x = None /\ audioMap Y !! x = None).
Proof.
  intros Hp Hrun.
  destruct (routes_of_registry serverOptions ops connections Hrun)
    as (Hown & Hpairs & Hnamed).
  split; [|split; [|split]].
  - intros A B HA HB Hne HvA HvB.
    apply list_elem_of_In in HA, HB.
    destruct (ForallOrdPairs_In Hpairs A B HA HB) as [Heq|[Hab|Hba]].
    + contradiction.
    + destruct (Hab HvA HvB) as [H1 H2]. auto.
    + destruct (Hba HvB HvA) as [H1 H2]. auto.
  - intros Hv A HA. rewrite Forall_forall in Hown.
    apply (Hown A); [exact HA | rewrite Hv; reflexivity].
  - exact (Hnamed Video).
  - intros x Y HY. unfold closeConnection in HY.
    destruct (getConnection x connections) as [c|] eqn:Hget.
    + apply getConnection_Some in Hget as [_ Hid].
      apply elem_of_onClosed in HY as (Y0 & _ & Hne & ->).
      change (id (close c)) with (id c) in *. rewrite Hid in *.
      split; [exact Hne|]. split; apply lookup_delete_eq.
    + apply getConnection_None in Hget.
      assert (Hno : forall k, routes k Y !! x = None).
      { intros k. destruct (routes k Y !! x) eqn:Hx; [|reflexivity].
        exfalso. apply Hget.
        destruct (Hnamed k Y x HY) as (X & HX & <-); [rewrite Hx; eauto|].
        unfold ids. apply list_elem_of_In, in_map, list_elem_of_In, HX. }
      split; [|split; [apply (Hno Video) | apply (Hno Audio)]].
      intros Hid. apply Hget. unfold ids. rewrite <- Hid.
      apply list_elem_of_In, in_map, list_elem_of_In, HY.
Qed.

End Routing.

(** Two connections with video, then the first one closes: each had a
    [videoMap] entry for the other, and the one that remains has none
    left. *)
Lemma track_routing_witness :
  let opts := mkOptions None (Some true) in
  let a := "AAAAAAAAAAAAAAAAAAAAAAAA" in
  let b := "BBBBBBBBBBBBBBBBBBBBBBBB" in
  exists A B,
    @applyAll promptTransport opts [Create 0 a DNull; Create 5 b DNull] []
    = Some [A; B]
    /\ id A = a /\ id B = b
    /\ (is_Some (videoMap A !! id B) /\ is_Some (videoMap B !! id A))
    /\ (forall Y, Y ∈ closeConnection a [A; B] ->
          id Y <> a /\ videoMap Y !! a = None /\ audioMap Y !! a = None).
Proof.
  intros opts a b.
  assert (Hp : @prompt promptTransport) by (intros t; eexists; reflexivity).
  destruct (@applyAll promptTransport opts [Create 0 a DNull; Create 5 b DNull] [])
    as [[|A [|B [|? ?]]]|] eqn:Hrun; try (vm_compute in Hrun; discriminate).
  assert (HidA : id A = a) by (vm_compute in Hrun; injection Hrun as <- _; reflexivity).
  assert (HidB : id B = b) by (vm_compute in Hrun; injection Hrun as _ <-; reflexivity).
  destruct (@track_routing promptTransport opts [Create 0 a DNull; Create 5 b DNull]
              [A; B] Hp Hrun) as (Hsym & Hvideo & _ & Hclose).
  exists A, B. split; [reflexivity|]. split; [exact HidA|]. split; [exact HidB|].
  split.
  - apply Hsym.
    + apply list_elem_of_here.
    + apply list_elem_of_further, list_elem_of_here.
    + intros Heq. rewrite Heq, HidB in HidA. discriminate HidA.
    + apply (Hvideo eq_refl). apply list_elem_of_here.
    + apply (Hvideo eq_refl). apply list_elem_of_further, list_elem_of_here.
  - intros Y HY. exact (Hclose a Y HY).
Defined.

Section Renegotiation.

Context `{T : Transport}.

Lemma putConnection_getConnection (c c' : WebRTCConnection)
    (connections : list WebRTCConnection) :
  getConnection (id c') connections = Some c ->
  getConnection (id c') (putConnection c' connections) = Some c'.
Proof.
  unfold getConnection.
  induction connections as [|h rest IH]; simpl; [discriminate|].
  destruct (hasId (id c') h) eqn:Hh; simpl.
  - intros _. unfold hasId. rewrite String.eqb_refl. reflexivity.
  - rewrite Hh. assumption.
Qed.

(** C8.  A renegotiation round, however it ends, leaves the connection's
    [audio] and [video] transceivers, its [audioMap] and [videoMap] and
    the transceivers of its peer connection as they were.  When it
    succeeds, the local description is the offer [createOffer] has just
    produced, and in the registry every connection keeps its identifier,
    transceivers and routing tables. *)
Theorem renegotiation_keeps_routes (now : Z) (c : WebRTCConnection) :
  let c' := outcome (reconnect now c) in
  (audio c' = audio c /\ video c' = video c
   /\ audioMap c' = audioMap c /\ videoMap c' = videoMap c
   /\ transceivers (peerConnection c') = transceivers (peerConnection c))
  /\ (forall c1, reconnect now c = Normal c1 ->
        exists offer,
          createOffer (peerConnection c) = Some offer
          /\ localDescription (peerConnection c1) = Some offer)
  /\ (forall connections connections',
        getConnection (id c) connections = Some c ->
        reconnectConnection now (id c) connections = Normal connections' ->
        Forall2 sameRouting connections connections'
        /\ exists c1, getConnection (id c) connections' = Some c1
                      /\ reconnect now c = Normal c1).
Proof.
  unfold reconnect, doOffer.
  destruct (createOffer (peerConnection c)) as [offer|] eqn:Hoffer.
  - destruct (acceptsLocalDescription (peerConnection c) offer) eqn:Haccept.
    + split; [repeat split|]. split.
      * intros c1 [= <-]. exists offer. split; reflexivity.
      * intros connections connections' Hget. unfold reconnectConnection.
        rewrite Hget. unfold reconnect, doOffer. rewrite Hoffer, Haccept.
        intros [= <-].
        match goal with
        | |- context [putConnection ?c1 connections] => set (c1' := c1)
        end.
        assert (Hsame : sameRouting c c1').
        { split; [reflexivity|]. intros [|]; split; reflexivity. }
        split; [eapply putConnection_same; eassumption|].
        exists c1'. split; [|reflexivity].
        apply (putConnection_getConnection c c1'). assumption.
    + split; [repeat split|]. split; [discriminate|].
      intros connections connections' Hget. unfold reconnectConnection.
      rewrite Hget. unfold reconnect, doOffer. rewrite Hoffer, Haccept. discriminate.
  - split; [repeat split|]. split; [discriminate|].
    intros connections connections' Hget. unfold reconnectConnection.
    rewrite Hget. unfold reconnect, doOffer. rewrite Hoffer. discriminate.
Qed.

(** The value of [enableAudio] never reaches [setupStreams]. *)
Lemma enableAudio_unused (i : ChannelId) (a a' v : option bool)
    (connections : list WebRTCConnection) (u : Data) :
  constructor i (mkOptions a v) connections u
  = constructor i (mkOptions a' v) connections u.
Proof. reflexivity. Qed.

End Renegotiation.

(** A renegotiation of the second of two connections. *)
Lemma renegotiation_keeps_routes_witness :
  let opts := mkOptions None (Some true) in
  let a := "AAAAAAAAAAAAAAAAAAAAAAAA" in
  let b := "BBBBBBBBBBBBBBBBBBBBBBBB" in
  exists connections B connections',
    @applyAll promptTransport opts [Create 0 a DNull; Create 5 b DNull] []
    = Some connections
    /\ getConnection b connections = Some B
    /\ @reconnectConnection promptTransport 900 b connections = Normal connections'
    /\ Forall2 sameRouting connections connections'.
Proof.
  intros opts a b. eexists. eexists. eexists.
  split; [vm_compute; reflexivity|].
  split; [vm_compute; reflexivity|].
  split; [vm_compute; reflexivity|].
  match goal with
  | |- Forall2 _ ?cs ?cs' =>
      match cs with
      | [_; ?B] =>
          refine (proj1 (proj2 (proj2
            (@renegotiation_keeps_routes promptTransport 900 B)) cs cs' _ _))
      end
  end; vm_compute; reflexivity.
Defined.

(** C5 at the failing input.  With [enableAudio: true] alone, creating
    two connections makes no audio transceiver and no audio route; with
    [enableVideo: true] alone, it makes both audio transceivers and the
    audio routes in both directions. *)
Example audio_setup_follows_enableVideo :
  let a := "AAAAAAAAAAAAAAAAAAAAAAAA" in
  let b := "BBBBBBBBBBBBBBBBBBBBBBBB" in
  let audioOnly := mkOptions (Some true) (Some false) in
  let videoOnly := mkOptions (Some false) (Some true) in
  let summary := fun c : WebRTCConnection =>
    (id c, audio c, map_to_list (audioMap c), transceivers (peerConnection c)) in
  option_map (List.map summary)
    (@applyAll promptTransport audioOnly [Create 0 a DNull; Create 5 b DNull] [])
  = Some [(a, None, [], []); (b, None, [], [])]
  /\ option_map (List.map (fun c => (id c, audio c, map_to_list (audioMap c))))
       (@applyAll promptTransport videoOnly [Create 0 a DNull; Create 5 b DNull] [])
     = Some [(a, Some 1%nat, [(b, 3%nat)]); (b, Some 2%nat, [(a, 3%nat)])].
Proof. split; vm_compute; reflexivity. Qed.

End ServerFacts.

(** ** HTTP signalling *)

Module HttpFacts.

Import Readiness Server Http.

(** [[0-9a-zA-Z]+] takes a whole alphanumeric word when the rest of the
    pattern matches what follows it. *)
Lemma matchHere_word (pat : list Atom) (w rest : string) :
  allAlnum w = true -> w <> "" -> matchHere pat rest = true ->
  matchHere (AlnumPlus :: pat) (w ++ rest) = true.
Proof.
  induction w as [|c w IH]; intros Hw Hne Hrest; [congruence|].
  simpl in Hw. apply andb_true_iff in Hw as [Hc Hw].
  change (isAlnum c && (matchHere (AlnumPlus :: pat) (w ++ rest)
                        || matchHere pat (w ++ rest)) = true).
  rewrite Hc, andb_true_l.
  destruct w as [|c' w'].
  - change ("" ++ rest)%string with rest. rewrite Hrest. apply orb_true_r.
  - rewrite IH by (assumption || discriminate). reflexivity.
Qed.

Lemma takeAlnum_word (w rest : string) :
  allAlnum w = true -> takeAlnum (String.length w) (w ++ rest) = Some (w, rest).
Proof.
  induction w as [|c w IH]; intros Hw; [reflexivity|].
  simpl in Hw. apply andb_true_iff in Hw as [Hc Hw].
  simpl. rewrite Hc, IH by assumption. reflexivity.
Qed.

Lemma isId_spec (i : ChannelId) :
  isId i = true -> String.length i = 24%nat /\ allAlnum i = true /\ i <> "".
Proof.
  unfold isId. intros H. apply andb_true_iff in H as [Hlen Hal].
  apply Nat.eqb_eq in Hlen. repeat split; try assumption.
  intros ->. discriminate Hlen.
Qed.

(** The path the client builds for a drawn identifier is routed below
    the root, matches the pattern of its endpoint, and names exactly
    that identifier. *)
Lemma connectionPath_routed (i : ChannelId) (what : string) :
  isId i = true ->
  test rootRegEx (connectionPath i what) = true
  /\ test (connectionRegEx what) (connectionPath i what) = true.
Proof.
  intros Hi. apply isId_spec in Hi as (Hlen & Hal & Hne).
  split; [reflexivity|].
  unfold connectionPath, connectionRegEx.
  change (root ++ "/connections/" ++ i ++ "/" ++ what)%string
    with ("/.wrtc/v1/connections/" ++ (i ++ "/" ++ what))%string.
  cbn [test append]. apply orb_true_iff. right. apply orb_true_iff. left.
  change (matchHere (AlnumPlus :: lits ("/" ++ what)) (i ++ "/" ++ what) = true).
  apply matchHere_word; [assumption|assumption|].
  clear. change ("/" ++ what)%string with (String "/" what). simpl.
  induction what as [|c what IH]; simpl; [reflexivity|].
  rewrite Ascii.eqb_refl. assumption.
Qed.

Lemma length_append (a b : string) :
  String.length (a ++ b) = (String.length a + String.length b)%nat.
Proof. induction a as [|c a IH]; simpl; [reflexivity | rewrite IH; reflexivity]. Qed.

Lemma append_String (c : ascii) (a b : string) :
  (String c a ++ b)%string = String c (a ++ b).
Proof. reflexivity. Qed.

Lemma append_Empty (b : string) : ("" ++ b)%string = b.
Proof. reflexivity. Qed.

Lemma takeAlnum_length (n : nat) (s m rest : string) :
  takeAlnum n s = Some (m, rest) -> String.length s = (n + String.length rest)%nat.
Proof.
  revert s m. induction n as [|n IH]; intros s m; simpl.
  - intros [= _ ->]. reflexivity.
  - destruct s as [|c s]; [discriminate|].
    destruct (isAlnum c); [|discriminate].
    destruct (takeAlnum n s) as [[m' rest']|] eqn:Ht; [|discriminate].
    intros [= _ <-]. simpl. rewrite (IH _ _ Ht). reflexivity.
Qed.

(** Enough fuel is as good as more. *)
Lemma matchIdsFrom_fuel (f1 : nat) :
  forall (f2 : nat) (s : string),
    (String.length s < f1)%nat -> (String.length s < f2)%nat ->
    matchIdsFrom f1 s = matchIdsFrom f2 s.
Proof.
  induction f1 as [|f1 IH]; intros f2 s H1 H2; [lia|].
  destruct f2 as [|f2]; [lia|].
  cbn [matchIdsFrom].
  destruct (takeAlnum 24 s) as [[m rest]|] eqn:Ht.
  - apply takeAlnum_length in Ht. f_equal. apply IH; lia.
  - destruct s as [|c s]; [reflexivity|]. simpl in H1, H2. apply IH; lia.
Qed.

Lemma matchIdsFrom_skip (f : nat) (c : ascii) (s : string) :
  takeAlnum 24 (String c s) = None ->
  matchIdsFrom (S f) (String c s) = matchIdsFrom f s.
Proof. intros Ht. cbn [matchIdsFrom]. rewrite Ht. reflexivity. Qed.

Lemma matchIdsFrom_take (f : nat) (s m rest : string) :
  takeAlnum 24 s = Some (m, rest) ->
  matchIdsFrom (S f) s = m :: matchIdsFrom f rest.
Proof. intros Ht. cbn [matchIdsFrom]. rewrite Ht. reflexivity. Qed.

Lemma connectionPath_ids (i : ChannelId) (what : string) :
  isId i = true -> matchIds (String "/" what) = [] ->
  matchIds (connectionPath i what) = [i].
Proof.
  intros Hi Hwhat. apply isId_spec in Hi as (Hlen & Hal & Hne).
  unfold matchIds, connectionPath.
  change (root ++ "/connections/" ++ i ++ "/" ++ what)%string
    with ("/.wrtc/v1/connections/" ++ (i ++ String "/" what))%string.
  rewrite length_append, length_append, Hlen.
  change (String.length "/.wrtc/v1/connections/") with 22%nat.
  cbn [Nat.add String.length].
  rewrite !append_String, append_Empty.
  do 22 (rewrite matchIdsFrom_skip by reflexivity).
  rewrite (matchIdsFrom_take _ _ i (String "/" what))
    by (rewrite <- Hlen; apply takeAlnum_word, Hal).
  f_equal. etransitivity; [|exact Hwhat]. unfold matchIds.
  apply matchIdsFrom_fuel; cbn [String.length]; lia.
Qed.

Section Listener.

Context `{T : Transport} `{S : Shell}.

(** The branch taken by a [GET] whose path matches the
    additional-candidates pattern and names one registered connection. *)
Lemma listener_candidates (now : Z) (req : Request) (p b : string) (i : ChannelId)
    (c : WebRTCConnection) (connections : list WebRTCConnection) :
  method req = Some "GET" -> pathname req = Some p -> body req = Some b ->
  test rootRegEx p = true ->
  test (connectionRegEx "additional-candidates") p = true ->
  matchIds p = [i] ->
  getConnection i connections = Some c ->
  listener now req connections
  = (putConnection (set_additionalCandidates [] c) connections,
     endResponse
       (write (CandidatesJSON (additionalCandidates c))
          (setHeader "Content-Type" "application/json"
             (mkResponse None (corsHeaders req) [] false)))).
Proof.
  intros Hm Hp Hb Hroot Hpath Hids Hget.
  unfold listener, isMethod. rewrite Hp, Hroot, Hm, Hb, Hpath, Hids, Hget.
  reflexivity.
Qed.

(** The branch taken by a [POST] whose path matches the close pattern
    only and names one connection: the connection is closed and the
    listener returns without [writeHead], [write] or [end]. *)
Lemma listener_close (now : Z) (req : Request) (p b : string) (i : ChannelId)
    (connections : list WebRTCConnection) :
  method req = Some "POST" -> pathname req = Some p -> body req = Some b ->
  test rootRegEx p = true ->
  String.eqb p (root ++ "/connections") = false ->
  test (connectionRegEx "remote-description") p = false ->
  test (connectionRegEx "close") p = true ->
  matchIds p = [i] ->
  listener now req connections
  = (closeConnection i connections,
     setHeader "Content-Type" "application/json"
       (mkResponse None (corsHeaders req) [] false)).
Proof.
  intros Hm Hp Hb Hroot H1 H2 Hclose Hids.
  unfold listener, isMethod. rewrite Hp, Hroot, Hm, Hb, H1, H2, Hclose, Hids.
  reflexivity.
Qed.

(** C7.  A [GET] for the additional candidates of a registered
    connection is answered with status 200 and exactly the queued
    candidates, in order, which the client then installs; the queue is
    left empty and nothing else about the connection's routing changes;
    a second poll right after it is answered with the empty array. *)
Theorem additional_candidates_drained (now now' : Z) (i : ChannelId)
    (c : WebRTCConnection) (connections : list WebRTCConnection)
    (auth : option string) (b : string) :
  isId i = true ->
  getConnection i connections = Some c ->
  let req :=
    mkRequest (Some "GET") (Some (connectionPath i "additional-candidates"))
              auth (Some b) in
  let first := listener now req connections in
  let second := listener now' req (fst first) in
  written (snd first) = [CandidatesJSON (additionalCandidates c)]
  /\ statusCode (snd first) = Some 200
  /\ fetchAdditionalCandidates (snd first) = additionalCandidates c
  /\ (exists c1, getConnection i (fst first) = Some c1
                 /\ additionalCandidates c1 = [] /\ sameRouting c c1)
  /\ written (snd second) = [CandidatesJSON []]
  /\ statusCode (snd second) = Some 200
  /\ fetchAdditionalCandidates (snd second) = [].
Proof.
  intros Hi Hget req first second.
  destruct (connectionPath_routed i "additional-candidates" Hi) as [Hroot Hpath].
  pose proof (connectionPath_ids i "additional-candidates" Hi eq_refl) as Hids.
  set (c1 := set_additionalCandidates [] c).
  assert (Hidc : id c = i) by (apply ServerFacts.getConnection_Some in Hget; tauto).
  assert (Hget1 : getConnection i (putConnection c1 connections) = Some c1).
  { rewrite <- Hidc. apply (ServerFacts.putConnection_getConnection c c1).
    simpl. rewrite Hidc. assumption. }
  assert (Hfirst :
    first = (putConnection c1 connections,
             endResponse
               (write (CandidatesJSON (additionalCandidates c))
                  (setHeader "Content-Type" "application/json"
                     (mkResponse None (corsHeaders req) [] false))))).
  { apply (listener_candidates now req (connectionPath i "additional-candidates") b i c
             connections); auto. }
  assert (Hsecond :
    second = (putConnection (set_additionalCandidates [] c1) (fst first),
              endResponse
                (write (CandidatesJSON (additionalCandidates c1))
                   (setHeader "Content-Type" "application/json"
                      (mkResponse None (corsHeaders req) [] false))))).
  { apply (listener_candidates now' req (connectionPath i "additional-candidates") b i c1
             (fst first)); auto.
    rewrite Hfirst. assumption. }
  rewrite Hsecond, Hfirst. cbn [fst snd].
  split; [reflexivity|]. split; [reflexivity|]. split; [reflexivity|].
  split; [|repeat split].
  exists c1. split; [assumption|]. split; [reflexivity|].
  split; [reflexivity|]. intros [|]; split; reflexivity.
Qed.

End Listener.

Lemma additional_candidates_drained_witness :
  let a := "AAAAAAAAAAAAAAAAAAAAAAAA" in
  let c :=
    mkConn a opened newPeerConnection ["candidate:1"; "candidate:2"]
           TIME_TO_HOST_CANDIDATES None None ∅ ∅ DNull [] in
  let req := request "GET" (connectionPath a "additional-candidates") in
  let first := @listener promptTransport bareShell 100 req [c] in
  let second := @listener promptTransport bareShell 150 req (fst first) in
  written (snd first) = [CandidatesJSON ["candidate:1"; "candidate:2"]]
  /\ statusCode (snd first) = Some 200
  /\ written (snd second) = [CandidatesJSON []].
Proof.
  intros a c req first second.
  pose proof (@additional_candidates_drained promptTransport bareShell 100 150 a c [c]
                None "" eq_refl eq_refl) as H.
  split; [exact (proj1 H)|]. split; [exact (proj1 (proj2 H))|].
  exact (proj1 (proj2 (proj2 (proj2 (proj2 H))))).
Defined.

(** C9 at the failing input.  Two connections are registered; a [POST]
    to the close path of the first closes it, and the listener returns
    with the response never ended: no status line and no body are sent. *)
Example close_request_is_never_answered :
  let a := "AAAAAAAAAAAAAAAAAAAAAAAA" in
  let b := "BBBBBBBBBBBBBBBBBBBBBBBB" in
  let opts := mkOptions None (Some true) in
  match @applyAll promptTransport opts [Create 0 a DNull; Create 5 b DNull] [] with
  | Some connections =>
      let r := @listener promptTransport bareShell 100
                 (request "POST" (connectionPath a "close")) connections in
      is_Some (getConnection a connections)
      /\ ids (fst r) = [b]
      /\ ended (snd r) = false
      /\ head (snd r) = None
      /\ written (snd r) = []
      /\ statusCode (snd r) = None
  | None => False
  end.
Proof. vm_compute. repeat split. eauto. Qed.

End HttpFacts.

(** ** More on the reliability ledger *)

Module LedgerShape.

Import Ledger.

Lemma forEach_from_beyond (n k : nat) (now : Z) (object : list Msg) :
  (length object <= k)%nat -> forEach_from n k now object = object.
Proof.
  revert k. induction n as [|n IH]; intros k Hk; simpl; [reflexivity|].
  rewrite lookup_ge_None_2 by lia. apply IH. lia.
Qed.

Lemma forEach_from_pruneSkipping (n : nat) (now : Z) :
  forall (done todo : list Msg),
    (length todo <= n)%nat ->
    forEach_from n (length done) now (done ++ todo)
    = done ++ pruneSkipping now todo.
Proof.
  induction n as [|n IH]; intros done todo Hn.
  - destruct todo; [reflexivity | simpl in Hn; lia].
  - destruct todo as [|msg rest].
    + simpl. rewrite lookup_ge_None_2 by (rewrite length_app; simpl; lia).
      apply forEach_from_beyond. rewrite length_app. simpl. lia.
    + cbn [forEach_from pruneSkipping]. rewrite list_lookup_middle by reflexivity.
      simpl in Hn.
      destruct (expire msg <=? now).
      * rewrite delete_middle.
        destruct rest as [|next rest'].
        -- apply forEach_from_beyond. rewrite length_app. simpl. lia.
        -- replace (done ++ next :: rest') with ((done ++ [next]) ++ rest')
             by (rewrite <- app_assoc; reflexivity).
           replace (S (length done)) with (length (done ++ [next]))
             by (rewrite length_app; simpl; lia).
           rewrite IH by (simpl in Hn; lia).
           rewrite <- app_assoc. reflexivity.
      * replace (done ++ msg :: rest) with ((done ++ [msg]) ++ rest)
          by (rewrite <- app_assoc; reflexivity).
        replace (S (length done)) with (length (done ++ [msg]))
          by (rewrite length_app; simpl; lia).
        rewrite IH by lia.
        rewrite <- app_assoc. reflexivity.
Qed.

(** The pass over the array with in-place removal is the recursion that
    skips the successor of every record it removes. *)
Theorem deleteExpired_skips (now : Z) (msgs : list Msg) :
  deleteExpiredReliableMessages now msgs = pruneSkipping now msgs.
Proof.
  unfold deleteExpiredReliableMessages.
  apply (forEach_from_pruneSkipping (length msgs) now [] msgs). lia.
Qed.

Lemma pruneSkipping_live (now : Z) (msgs : list Msg) :
  Forall (fun m => expired now m = false) msgs -> pruneSkipping now msgs = msgs.
Proof.
  induction 1 as [|m msgs Hm _ IH]; simpl; [reflexivity|].
  unfold expired in Hm. rewrite Hm, IH. reflexivity.
Qed.

Lemma pruneSkipping_prefix (now : Z) (live : list Msg) :
  Forall (fun m => expired now m = false) live ->
  forall old,
    (Forall (fun m => expired now m = true) old ->
     pruneSkipping now (old ++ live) = shielded old ++ live)
    /\ (forall a, expired now a = true ->
        Forall (fun m => expired now m = true) old ->
        pruneSkipping now (a :: old ++ live) = shielded (a :: old) ++ live).
Proof.
  intros Hlive. induction old as [|b old [IH0 IH1]].
  - split.
    + intros _. apply pruneSkipping_live, Hlive.
    + intros a Ha _. simpl. unfold expired in Ha. rewrite Ha.
      destruct live as [|next rest]; [reflexivity|].
      apply Forall_cons in Hlive as [_ Hrest].
      rewrite (pruneSkipping_live now rest Hrest). reflexivity.
  - split.
    + intros Hold. apply Forall_cons in Hold as [Hb Hold]. apply IH1; assumption.
    + intros a Ha Hold. apply Forall_cons in Hold as [Hb Hold].
      cbn [pruneSkipping app shielded]. unfold expired in Ha. rewrite Ha.
      rewrite (IH0 Hold). reflexivity.
Qed.

Lemma filter_live (now : Z) (msgs : list Msg) :
  Forall (fun m => expired now m = false) msgs ->
  List.filter (expired now) msgs = []
  /\ List.filter (fun m => negb (expired now m)) msgs = msgs.
Proof.
  induction 1 as [|m msgs Hm _ [IH1 IH2]]; simpl; [auto|].
  rewrite Hm. simpl. rewrite IH1, IH2. auto.
Qed.

Lemma inOrder_split (now : Z) (msgs : list Msg) :
  inOrder msgs ->
  msgs = List.filter (expired now) msgs
         ++ List.filter (fun m => negb (expired now m)) msgs.
Proof.
  induction 1 as [|a l Ha Hl IH]; [reflexivity|]. simpl.
  destruct (expired now a) eqn:Hexp; simpl.
  - f_equal. exact IH.
  - assert (Hall : Forall (fun m => expired now m = false) l).
    { eapply Forall_impl; [exact Ha|]. intros m Hm. unfold expired in *.
      apply Z.leb_gt. apply Z.leb_gt in Hexp. lia. }
    destruct (filter_live now l Hall) as [-> ->]. reflexivity.
Qed.

Lemma Forall_filter_true {A : Type} (p : A -> bool) (l : list A) :
  Forall (fun x => p x = true) (List.filter p l).
Proof.
  apply Forall_forall. intros x Hx.
  apply list_elem_of_In, filter_In in Hx as [_ Hx]. exact Hx.
Qed.

Lemma shielded_length (msgs : list Msg) :
  length (shielded msgs) = Nat.div2 (length msgs).
Proof.
  assert (H : forall l, length (shielded l) = Nat.div2 (length l)
                        /\ forall a, length (shielded (a :: l))
                                     = Nat.div2 (length (a :: l))).
  { induction l as [|b l [IH0 IH1]]; [split; reflexivity|].
    split; [apply IH1|]. intros a. simpl. rewrite IH0. reflexivity. }
  apply H.
Qed.

(** On a ledger in order of expiry, a pruning pass removes every other
    expired record, starting with the oldest, and keeps the rest: of [m]
    expired records, [m - m/2] go. *)
Theorem deleteExpired_halves (now : Z) (msgs : list Msg) :
  inOrder msgs ->
  deleteExpiredReliableMessages now msgs
  = shielded (List.filter (expired now) msgs)
    ++ List.filter (fun m => negb (expired now m)) msgs
  /\ length (deleteExpiredReliableMessages now msgs)
     = (length msgs
        - (length (List.filter (expired now) msgs)
           - Nat.div2 (length (List.filter (expired now) msgs))))%nat.
Proof.
  intros Hord.
  assert (Heq : deleteExpiredReliableMessages now msgs
                = shielded (List.filter (expired now) msgs)
                  ++ List.filter (fun m => negb (expired now m)) msgs).
  { unfold deleteExpiredReliableMessages.
    transitivity (pruneSkipping now msgs);
      [apply (forEach_from_pruneSkipping (length msgs) now [] msgs); lia|].
    rewrite (inOrder_split now msgs Hord) at 1.
    apply pruneSkipping_prefix.
    - eapply Forall_impl; [apply Forall_filter_true|].
      intros m Hm. simpl in Hm. apply negb_true_iff in Hm. exact Hm.
    - apply Forall_filter_true. }
  split; [exact Heq|].
  rewrite Heq, length_app, shielded_length.
  assert (Hlen : length msgs
                 = (length (List.filter (expired now) msgs)
                    + length (List.filter (fun m => negb (expired now m)) msgs))%nat).
  { rewrite <- length_app. f_equal. apply inOrder_split, Hord. }
  pose proof (Nat.div2_decr (length (List.filter (expired now) msgs))
                (length (List.filter (expired now) msgs)) (le_S _ _ (le_n _)))
    as Hhalf.
  revert Hlen Hhalf.
  generalize (Nat.div2 (length (List.filter (expired now) msgs))).
  generalize (length (List.filter (expired now) msgs)).
  generalize (length (List.filter (fun m => negb (expired now m)) msgs)).
  generalize (length msgs).
  intros. lia.
Qed.

Lemma deleteExpired_halves_witness :
  let msgs := [mkMsg (DStr "a") 0 15000; mkMsg (DStr "b") 1 15001;
               mkMsg (DStr "c") 2 15002; mkMsg (DStr "d") 9000 24000] in
  deleteExpiredReliableMessages 20000 msgs
  = [mkMsg (DStr "b") 1 15001; mkMsg (DStr "d") 9000 24000].
Proof.
  intros msgs.
  refine (proj1 (deleteExpired_halves 20000 msgs _)).
  unfold inOrder. repeat constructor; simpl; lia.
Defined.

Lemma forEach_from_sublist (n k : nat) (now : Z) (object : list Msg) :
  forEach_from n k now object `sublist_of` object.
Proof.
  revert k object. induction n as [|n IH]; intros k object; simpl; [reflexivity|].
  destruct (object !! k) as [msg|]; [|apply IH].
  destruct (expire msg <=? now); [|apply IH].
  etransitivity; [apply IH | apply sublist_delete].
Qed.

Lemma FOP_sublist {A : Type} (R : A -> A -> Prop) (l1 l2 : list A) :
  l1 `sublist_of` l2 -> ForallOrdPairs R l2 -> ForallOrdPairs R l1.
Proof.
  induction 1 as [|x l1 l2 Hsub IH|x l1 l2 Hsub IH]; intros H2.
  - constructor.
  - inversion H2 as [|? ? Hx Hl2]; subst. constructor; [|auto].
    apply Forall_forall. intros y Hy. rewrite Forall_forall in Hx.
    apply Hx. eapply elem_of_sublist; eassumption.
  - inversion H2; subst. auto.
Qed.

Lemma FOP_push {A : Type} (R : A -> A -> Prop) (l : list A) (x : A) :
  ForallOrdPairs R l -> Forall (fun a => R a x) l -> ForallOrdPairs R (l ++ [x]).
Proof.
  induction 1 as [|a l Ha Hl IH]; intros Hx; simpl.
  - constructor; constructor.
  - apply Forall_cons in Hx as [Hax Hx].
    constructor; [|auto].
    apply Forall_app. split; [assumption|]. constructor; [assumption|constructor].
Qed.

Lemma Forall_sublist {A : Type} (P : A -> Prop) (l1 l2 : list A) :
  l1 `sublist_of` l2 -> Forall P l2 -> Forall P l1.
Proof.
  intros Hsub H2. apply Forall_forall. intros x Hx. rewrite Forall_forall in H2.
  apply H2. eapply elem_of_sublist; eassumption.
Qed.

(** *** Order of expiry *)

Lemma inOrder_listener (from : Z) (c : Clock) (data : Data) (msgs : list Msg) :
  from <= pushTime c ->
  inOrder msgs /\ Forall (fun m => expire m <= from + expireTime) msgs ->
  inOrder (fst (listener c data msgs))
  /\ Forall (fun m => expire m <= pushTime c + expireTime) (fst (listener c data msgs)).
Proof.
  intros Hfrom [Hord Hbound].
  assert (Hbound' : Forall (fun m => expire m <= pushTime c + expireTime) msgs).
  { eapply Forall_impl; [exact Hbound|]. intros m Hm. simpl in Hm. lia. }
  unfold listener.
  destruct (isReliableMessage data); [|auto].
  pose proof (forEach_from_sublist (length msgs) 0 (currentTime c) msgs) as Hsub.
  fold (deleteExpiredReliableMessages (currentTime c) msgs) in Hsub.
  pose proof (FOP_sublist _ _ _ Hsub Hord) as Hord1.
  pose proof (Forall_sublist _ _ _ Hsub Hbound') as Hbound1.
  destruct (_ =? _)%nat; cbn [fst]; [|auto].
  split.
  - apply FOP_push; [exact Hord1|].
    eapply Forall_impl; [exact Hbound1|]. intros m Hm. exact Hm.
  - apply Forall_app. split; [exact Hbound1|].
    constructor; [simpl; lia | constructor].
Qed.

(** Take a clock that never runs backwards from time [from] on, and a
    ledger that is in order of expiry and holds no record expiring later
    than [from + 15000], as is the case when every record was pushed at
    or before [from].  Then the ledger is in order of expiry after any
    sequence of received messages.  (A record expiring later than that
    could be overtaken by the next record pushed.) *)
Theorem ledger_in_order (from : Z) (rs : list Receipt) (msgs : list Msg) :
  monotone from rs ->
  inOrder msgs -> Forall (fun m => expire m <= from + expireTime) msgs ->
  inOrder (fst (run rs msgs)).
Proof.
  revert from msgs.
  induction rs as [|[c data] rs IH]; intros from msgs Hmono Hord Hbound; [exact Hord|].
  destruct Hmono as (H1 & H2 & H3 & Hrest).
  destruct (inOrder_listener from c data msgs) as [Hord1 Hbound1]; [lia|auto|].
  cbn [run].
  destruct (listener c data msgs) as [msgs1 out]. cbn [fst] in *.
  specialize (IH (pushTime c) msgs1 Hrest Hord1 Hbound1).
  destruct (run rs msgs1) as [msgs2 outs]. exact IH.
Qed.

(** A ledger of two records pushed at 50 and 80, then three messages
    received from time 100 on. *)
Lemma ledger_in_order_witness :
  let a := envelope (DStr "first") (DStr "a") in
  let b := envelope (DStr "second") (DStr "b") in
  let msgs := [mkMsg (DStr "y") 50 15050; mkMsg (DStr "z") 80 15080] in
  let rs := [(mkClock 100 100 101, a); (mkClock 103 104 104, b); (at_time 15060, a)] in
  List.map expire (fst (run rs msgs)) = [15080; 15101; 15104]
  /\ inOrder (fst (run rs msgs)).
Proof.
  intros a b msgs rs. split; [vm_compute; reflexivity|].
  apply (ledger_in_order 100 rs msgs).
  - simpl. lia.
  - repeat constructor; simpl; lia.
  - repeat constructor; simpl; unfold expireTime; lia.
Defined.

(** *** Identifiers in the ledger *)

Lemma strict_eq_common (a b i : Data) :
  strict_eq a i = true -> strict_eq b i = true -> strict_eq a b = true.
Proof.
  destruct a, b, i; simpl; try discriminate; try reflexivity.
  - destruct b, b0, b1; simpl; congruence.
  - rewrite !Z.eqb_eq. congruence.
  - rewrite !String.eqb_eq. congruence.
Qed.

Lemma distinctIds_listener (c : Clock) (data : Data) (msgs : list Msg) :
  distinctIds msgs -> distinctIds (fst (listener c data msgs)).
Proof.
  intros Hd. unfold listener.
  destruct (isReliableMessage data); [|exact Hd].
  pose proof (forEach_from_sublist (length msgs) 0 (currentTime c) msgs) as Hsub.
  fold (deleteExpiredReliableMessages (currentTime c) msgs) in Hsub.
  pose proof (FOP_sublist _ _ _ Hsub Hd) as Hd1.
  destruct (_ =? _)%nat eqn:Hnone; cbn [fst]; [|exact Hd1].
  apply FOP_push; [exact Hd1|].
  apply Nat.eqb_eq in Hnone. unfold sameId in Hnone.
  apply Forall_forall. intros m Hm. simpl.
  destruct (strict_eq (id m) (get "ID" data)) eqn:Heq; [|reflexivity].
  exfalso.
  assert (Hin : In m (List.filter (fun obj => strict_eq (id obj) (get "ID" data))
                        (deleteExpiredReliableMessages (currentTime c) msgs))).
  { apply filter_In. split; [apply list_elem_of_In, Hm | exact Heq]. }
  destruct (List.filter _ _); [destruct Hin | discriminate Hnone].
Qed.

Lemma distinctIds_once (i : Data) (msgs : list Msg) :
  distinctIds msgs -> (length (sameId i msgs) <= 1)%nat.
Proof.
  unfold sameId. induction 1 as [|a l Ha Hl IH]; simpl; [lia|].
  destruct (strict_eq (id a) i) eqn:Hai; [|exact IH].
  replace (List.filter (fun obj => strict_eq (id obj) i) l) with (@nil Msg);
    [simpl; lia|].
  symmetry. clear IH Hl. induction l as [|b l IH]; [reflexivity|].
  apply Forall_cons in Ha as [Hab Ha]. simpl.
  destruct (strict_eq (id b) i) eqn:Hbi; [|auto].
  rewrite (strict_eq_common _ _ _ Hai Hbi) in Hab. discriminate.
Qed.

(** Whatever is received, the ledger never tracks an identifier twice. *)
Theorem ledger_tracks_once (rs : list Receipt) (i : Data) :
  (length (sameId i (fst (run rs []))) <= 1)%nat.
Proof.
  apply distinctIds_once.
  assert (H : forall msgs, distinctIds msgs -> distinctIds (fst (run rs msgs))).
  { induction rs as [|[c data] rs IH]; intros msgs Hd; [exact Hd|].
    cbn [run]. pose proof (distinctIds_listener c data msgs Hd) as Hd1.
    destruct (listener c data msgs) as [msgs1 out]. cbn [fst] in Hd1.
    specialize (IH msgs1 Hd1). destruct (run rs msgs1). exact IH. }
  apply H. constructor.
Qed.

(** *** Duplicates amid other traffic *)

Lemma guarded_listener (i : Data) (bound : Z) (c : Clock) (data : Data)
    (msgs : list Msg) :
  guarded i bound msgs -> currentTime c < bound ->
  guarded i bound (fst (listener c data msgs)).
Proof.
  intros Hg Ht. unfold listener.
  destruct (isReliableMessage data); [|exact Hg].
  pose proof (LedgerFacts.guarded_pruned i bound (currentTime c) msgs Hg Ht) as Hg1.
  destruct (_ =? _)%nat; cbn [fst]; [|exact Hg1].
  destruct Hg1 as (x & Hin & Hid & Hb). exists x.
  split; [apply elem_of_app; left; exact Hin | auto].
Qed.

Lemma guarded_trace (s : string) (bound : Z) (rs : list Receipt) :
  s <> "undefined" ->
  forall (msgs : list Msg) (k : nat) (c : Clock) (d : Data),
    guarded (DStr s) bound msgs ->
    Forall (fun r => currentTime (fst r) < bound) rs ->
    rs !! k = Some (c, d) -> reliableWith (DStr s) d ->
    trace rs msgs !! k = Some None.
Proof.
  intros Hs. induction rs as [|[c0 d0] rs IH]; intros msgs k c d Hg Hall Hk Hrel.
  - discriminate Hk.
  - apply Forall_cons in Hall as [Ht Hall]. cbn [fst] in Ht.
    pose proof (guarded_listener _ _ c0 d0 msgs Hg Ht) as Hg1.
    cbn [trace].
    destruct k as [|k].
    + injection Hk as -> ->.
      unfold listener.
      rewrite (LedgerFacts.reliableWith_isReliable s d Hs Hrel).
      destruct Hrel as [_ ->].
      rewrite (LedgerFacts.tracked_length _ _
                 (LedgerFacts.guarded_tracked _ _ _
                    (LedgerFacts.guarded_pruned _ _ _ _ Hg Ht))).
      reflexivity.
    + destruct (listener c0 d0 msgs) as [msgs1 out]. cbn [fst] in Hg1.
      simpl. eapply IH; eassumption.
Qed.

(** Whatever else arrives in between (other reliable messages, plain
    data, anything), once an envelope with a string identifier other
    than "undefined" has been delivered, every envelope with that
    identifier received less than 15000 ms later is dropped. *)
Theorem duplicates_dropped_amid_traffic
    (s : string) (c0 : Clock) (d0 : Data) (rs : list Receipt) (msgs : list Msg) :
  s <> "undefined" ->
  tracked (DStr s) msgs = false ->
  reliableWith (DStr s) d0 ->
  currentTime c0 <= pushTime c0 ->
  Forall (fun r => currentTime (fst r) < currentTime c0 + expireTime) rs ->
  trace ((c0, d0) :: rs) msgs !! 0%nat = Some (Some (get "MESSAGE" d0))
  /\ forall k c d,
       rs !! k = Some (c, d) -> reliableWith (DStr s) d ->
       trace ((c0, d0) :: rs) msgs !! S k = Some None.
Proof.
  intros Hs Hun Hrel Hclock Hall.
  cbn [trace]. unfold listener.
  rewrite (LedgerFacts.reliableWith_isReliable s d0 Hs Hrel).
  destruct Hrel as [_ Hid]. rewrite Hid.
  rewrite (LedgerFacts.untracked_length _ _
             (LedgerFacts.untracked_pruned _ (currentTime c0) _ Hun)).
  split; [reflexivity|].
  intros k c d Hk Hreld. simpl.
  eapply (guarded_trace s (currentTime c0 + expireTime)); try eassumption.
  exists (mkMsg (DStr s) (stampTime c0) (pushTime c0 + expireTime)).
  split; [|split].
  - apply elem_of_app. right. apply list_elem_of_singleton. reflexivity.
  - simpl. apply String.eqb_refl.
  - simpl. lia.
Qed.

Lemma duplicates_dropped_amid_traffic_witness :
  let e := envelope (DStr "hello") (DStr "k3") in
  let other := envelope (DStr "bye") (DStr "k4") in
  trace [(at_time 0, e); (at_time 5, other); (at_time 9, DStr "plain");
         (at_time 14000, e)] []
  !! 3%nat = Some None.
Proof.
  intros e other.
  refine (proj2 (duplicates_dropped_amid_traffic "k3" (at_time 0) e
                   [(at_time 5, other); (at_time 9, DStr "plain"); (at_time 14000, e)]
                   [] _ _ _ _ _) 2%nat (at_time 14000) e eq_refl _).
  - discriminate.
  - reflexivity.
  - split; reflexivity.
  - simpl; lia.
  - repeat constructor; simpl; lia.
  - split; reflexivity.
Defined.

End LedgerShape.

(** ** More on the candidate poller *)

Module PollerOrder.

Import Poller.
Local Open Scope Q_scope.

Lemma base_gap (i j : nat) :
  (i < j)%nat -> (j < 10)%nat -> (base i + 19 < base j)%Z.
Proof.
  intros Hij Hj.
  do 10 (destruct i as [|i]; [do 10 (destruct j as [|j];
                                        [try lia; vm_compute; reflexivity|]); lia|]).
  lia.
Qed.

(** Whatever doubles in [0, 1) [Math.random] returns, and whichever
    neighbour of the exact power a faithful [**] returns, the ten delays
    are strictly increasing, and they lie between 50 ms and 9936 ms: the
    attempts fire in index order, the last one within ten seconds. *)
Theorem delays_increase (pow : Q -> nat -> Q) (random : nat -> Q) :
  faithful pow -> unit_interval random ->
  (forall (i j : nat) (di dj : Z),
     (i < j)%nat ->
     showBackOffIntervals pow random !! i = Some di ->
     showBackOffIntervals pow random !! j = Some dj ->
     (di < dj)%Z)
  /\ Forall (fun d => (50 <= d <= 9936)%Z) (showBackOffIntervals pow random).
Proof.
  intros Hpow Hr. split.
  - intros i j di dj Hij Hi Hj.
    destruct (PollerFacts.delay_range pow random i di Hpow Hr Hi) as (_ & Hdi & _).
    destruct (PollerFacts.delay_range pow random j dj Hpow Hr Hj) as (Hj10 & Hdj & _).
    pose proof (base_gap i j Hij Hj10). lia.
  - apply Forall_forall. intros d Hd.
    apply list_elem_of_lookup in Hd as [k Hk].
    destruct (PollerFacts.delay_range pow random k d Hpow Hr Hk) as (Hk10 & Hd & _).
    assert (H0 : (base 0 <= base k)%Z).
    { destruct k; [lia|]. pose proof (base_gap 0 (S k)). lia. }
    assert (H9 : (base k <= base 9)%Z).
    { destruct (decide (k = 9%nat)) as [->|Hne]; [lia|].
      pose proof (base_gap k 9). lia. }
    change (base 0) with 50%Z in H0. change (base 9) with 9917%Z in H9. lia.
Qed.

(** [Math.random()] returning the doubles nearest to 0.95 and 0.25 in
    turn; the last delay is the largest there is. *)
Lemma delays_increase_witness :
  let random := fun k : nat => if Nat.even k then 1 # 4 else fl (95 # 100) in
  showBackOffIntervals nearest_pow random
  = [55; 109; 167; 310; 529; 963; 1705; 3080; 5514; 9936]%Z
  /\ Forall (fun d => (50 <= d <= 9936)%Z) (showBackOffIntervals nearest_pow random).
Proof.
  intros random. split; [vm_compute; reflexivity|].
  refine (proj2 (delays_increase nearest_pow random PollerFacts.nearest_faithful _)).
  intros k. unfold random.
  destruct (Nat.even k); repeat split; vm_compute; first [reflexivity | discriminate].
Defined.

End PollerOrder.

(** ** More on waiting for candidate gathering *)

Module ReadinessOnce.

Import Readiness.

Lemma settled_step (now : Z) (e : Event) (w w' : Wait) (o : Outcome * Z) :
  settled w = Some o -> step now e w = Some w' -> settled w' = Some o.
Proof.
  intros Hs. unfold step.
  destruct e as [[c|]|g].
  - intros [= <-]. unfold onIceCandidate. destruct (listening w); simpl; exact Hs.
  - intros [= <-]. unfold onIceCandidate, settle.
    destruct (listening w); simpl; rewrite ?Hs; simpl; auto.
  - destruct (timeout w) as [due|]; [|discriminate].
    destruct (due <=? now); [|discriminate].
    intros [= <-]. unfold onTimeout, settle. simpl. rewrite Hs.
    destruct (0 <? totalIceCandidates w)%nat; simpl; auto.
Qed.

Lemma settled_steps (evs : list (Z * Event)) :
  forall (w w' : Wait) (o : Outcome * Z),
    settled w = Some o -> steps evs w = Some w' -> settled w' = Some o.
Proof.
  induction evs as [|[now e] evs IH]; intros w w' o Hs; simpl.
  - intros [= <-]. exact Hs.
  - destruct (step now e w) as [w1|] eqn:Hstep; [|discriminate].
    apply IH. eapply settled_step; eassumption.
Qed.

Lemma inert_step (now : Z) (e : Event) (w w' : Wait) :
  timeout w = None -> listening w = false -> step now e w = Some w' ->
  w' = w /\ exists c, e = IceCandidate c /\ snd (onIceCandidate now c w) = [].
Proof.
  intros Ht Hl. unfold step. destruct e as [c|g].
  - unfold onIceCandidate. rewrite Hl. intros [= <-]. eauto.
  - rewrite Ht. discriminate.
Qed.

Lemma inert_steps (evs : list (Z * Event)) (w w' : Wait) :
  timeout w = None -> listening w = false -> steps evs w = Some w' ->
  w' = w
  /\ Forall (fun ev => exists c, snd ev = IceCandidate c
                                /\ snd (onIceCandidate (fst ev) c w) = []) evs.
Proof.
  intros Ht Hl. induction evs as [|[now e] evs IH]; simpl.
  - intros [= <-]. auto.
  - destruct (step now e w) as [w1|] eqn:Hstep; [|discriminate].
    destruct (inert_step now e w w1 Ht Hl Hstep) as [-> Hev].
    intros Hrest. destruct (IH Hrest) as [-> Hall]. auto.
Qed.

(** Once the promise of a wait has settled, the wait is over for good:
    its listener has been removed and its timer cleared.  Whatever
    follows leaves the wait exactly as it settled (outcome, time and
    count), no timer callback runs any more, and no later candidate is
    queued by it. *)
Theorem settles_once (t0 : Z) (g : IceGatheringState)
    (evs later : list (Z * Event)) (w w' : Wait) (o : Outcome * Z) :
  steps evs (waitUntilIceGatheringStateComplete t0 g TIME_TO_HOST_CANDIDATES) = Some w ->
  settled w = Some o ->
  steps later w = Some w' ->
  w' = w
  /\ Forall (fun ev => exists c, snd ev = IceCandidate c
                                /\ snd (onIceCandidate (fst ev) c w) = []) later.
Proof.
  intros Hsteps Hs Hlater.
  assert (Hinert : timeout w = None /\ listening w = false).
  { assert (Hg : g = complete \/ g <> complete)
      by (destruct g; auto; right; discriminate).
    destruct Hg as [->|Hg].
    - destruct (inert_steps evs
                  (waitUntilIceGatheringStateComplete t0 complete
                     TIME_TO_HOST_CANDIDATES)
                  w eq_refl eq_refl Hsteps) as [-> _].
      split; reflexivity.
    - pose proof (ReadinessFacts.started_steps t0 evs _ w
                    (ReadinessFacts.started_initially t0 g Hg) Hsteps) as Hw.
      unfold started in Hw. rewrite Hs in Hw.
      destruct o as [[|reason] t]; tauto. }
  destruct Hinert as [Ht Hl]. apply inert_steps; assumption.
Qed.

Lemma settles_once_witness :
  let evs := [(100, IceCandidate (Some "candidate:1")); (900, IceCandidate None)] in
  let later := [(950, IceCandidate (Some "candidate:9")); (20000, IceCandidate None)] in
  let w := mkWait 2 false None (Some (Resolved, 900)) in
  steps evs (waitUntilIceGatheringStateComplete 0 gathering TIME_TO_HOST_CANDIDATES)
  = Some w
  /\ steps later w = Some w
  /\ Forall (fun ev => exists c, snd ev = IceCandidate c
                                /\ snd (onIceCandidate (fst ev) c w) = []) later.
Proof.
  intros evs later w. split; [reflexivity|]. split; [reflexivity|].
  exact (proj2 (settles_once 0 gathering evs later w w (Resolved, 900)
                  eq_refl eq_refl eq_refl)).
Defined.

(** A wait entered while gathering is resolved before its deadline only
    by the end-of-candidates event, at the time of that event; from then
    on its timer never fires. *)
Theorem early_resolution (t0 : Z) (g : IceGatheringState)
    (evs : list (Z * Event)) (w : Wait) (t : Z) :
  g <> complete ->
  steps evs (waitUntilIceGatheringStateComplete t0 g TIME_TO_HOST_CANDIDATES) = Some w ->
  settled w = Some (Resolved, t) ->
  t < t0 + TIME_TO_HOST_CANDIDATES ->
  (t, IceCandidate None) ∈ evs
  /\ forall now g', step now (TimerFired g') w = None.
Proof.
  intros Hg Hsteps Hs Ht.
  pose proof (ReadinessFacts.started_steps t0 evs _ w
                (ReadinessFacts.started_initially t0 g Hg) Hsteps) as Hw.
  split.
  - clear Hw.
    pose proof (ReadinessFacts.started_initially t0 g Hg) as Hstart.
    assert (Hpending : settled (waitUntilIceGatheringStateComplete
                                  t0 g TIME_TO_HOST_CANDIDATES) = None)
      by (destruct g; [reflexivity | reflexivity | congruence]).
    revert Hstart Hpending Hsteps.
    generalize (waitUntilIceGatheringStateComplete t0 g TIME_TO_HOST_CANDIDATES).
    induction evs as [|[now e] evs IH]; intros w0 Hstart Hpending; simpl.
    + intros [= ->]. congruence.
    + destruct (step now e w0) as [w1|] eqn:Hstep; [|discriminate].
      intros Hrest.
      pose proof (ReadinessFacts.started_step t0 now e w0 w1 Hstart Hstep) as Hstart1.
      unfold started in Hstart. rewrite Hpending in Hstart.
      destruct Hstart as [Htmo Hlis].
      destruct e as [[c|]|g'].
      * (* a candidate: still pending *)
        right. apply (IH w1); [assumption| |assumption].
        unfold step, onIceCandidate in Hstep. rewrite Hlis in Hstep.
        injection Hstep as <-. exact Hpending.
      * (* end of candidates: resolved now *)
        assert (Hnow : settled w1 = Some (Resolved, now)).
        { unfold step, onIceCandidate, settle in Hstep. rewrite Hlis in Hstep.
          simpl in Hstep. rewrite Hpending in Hstep. injection Hstep as <-. reflexivity. }
        pose proof (settled_steps evs w1 w _ Hnow Hrest) as Hsame.
        rewrite Hs in Hsame. injection Hsame as ->. left.
      * (* the timer: at or after the deadline *)
        exfalso.
        unfold step in Hstep. rewrite Htmo in Hstep.
        destruct (Z.leb_spec (t0 + TIME_TO_HOST_CANDIDATES) now) as [Hdue|];
          [|discriminate].
        injection Hstep as <-.
        assert (Hnow : exists o, settled (onTimeout now g' w0) = Some (o, now)).
        { unfold onTimeout, settle. simpl. rewrite Hpending.
          destruct (0 <? totalIceCandidates w0)%nat; simpl; eauto. }
        destruct Hnow as [o Hnow].
        pose proof (settled_steps evs _ w _ Hnow Hrest) as Hsame.
        rewrite Hs in Hsame. injection Hsame as _ ->. lia.
  - intros now g'. unfold started in Hw. rewrite Hs in Hw.
    destruct Hw as [Htmo _]. unfold step. rewrite Htmo. reflexivity.
Qed.

Lemma early_resolution_witness :
  let w0 := waitUntilIceGatheringStateComplete 500 gathering TIME_TO_HOST_CANDIDATES in
  let evs := [(700, IceCandidate (Some "candidate:1")); (900, IceCandidate None)] in
  (900, IceCandidate None) ∈ evs
  /\ step 10500 (TimerFired complete) (mkWait 2 false None (Some (Resolved, 900))) = None.
Proof.
  intros w0 evs.
  assert (Hg : gathering <> complete) by discriminate.
  destruct (early_resolution 500 gathering evs
              (mkWait 2 false None (Some (Resolved, 900))) 900 Hg eq_refl eq_refl)
    as [Hin Hnever].
  - unfold TIME_TO_HOST_CANDIDATES. lia.
  - split; [exact Hin | exact (Hnever 10500 complete)].
Defined.

End ReadinessOnce.

(** ** More on the server connection *)

Module ServerQueue.

Import Readiness Server.

Lemma onIceCandidate_some (now : Z) (cand : Candidate) (ws : list Wait) :
  concat (List.map snd (List.map (onIceCandidate now (Some cand)) ws))
  = replicate (length (List.filter listening ws)) cand
  /\ length (List.filter listening
               (List.map fst (List.map (onIceCandidate now (Some cand)) ws)))
     = length (List.filter listening ws).
Proof.
  induction ws as [|w ws [IH1 IH2]]; [split; reflexivity|].
  cbn [List.map concat List.filter]. unfold onIceCandidate at 1 3.
  destruct (listening w) eqn:Hl; cbn [fst snd listening List.filter];
    rewrite ?Hl; cbn [length replicate app]; rewrite IH1, IH2; split; reflexivity.
Qed.

Lemma onIceCandidate_none (now : Z) (ws : list Wait) :
  concat (List.map snd (List.map (onIceCandidate now None) ws)) = []
  /\ List.filter listening (List.map fst (List.map (onIceCandidate now None) ws)) = [].
Proof.
  induction ws as [|w ws [IH1 IH2]]; [split; reflexivity|].
  cbn [List.map concat List.filter]. unfold onIceCandidate at 1 3.
  destruct (listening w) eqn:Hl; cbn [fst snd app].
  - unfold settle. simpl. destruct (settled w); simpl; rewrite IH1, IH2; split; reflexivity.
  - rewrite Hl, IH1, IH2. split; reflexivity.
Qed.

Lemma dispatch_candidate (now : Z) (cand : Candidate) (c : WebRTCConnection) :
  additionalCandidates (dispatchIceCandidate now (Some cand) c)
  = additionalCandidates c ++ replicate (listeners c) cand.
Proof.
  unfold dispatchIceCandidate, listeners. cbn [additionalCandidates waits
    set_waits set_additionalCandidates].
  destruct (onIceCandidate_some now cand (waits c)) as [-> _]. reflexivity.
Qed.

(** An [icecandidate] event with a candidate queues it once for every
    listener still registered, after what is queued already, and removes
    no listener.  The end-of-candidates event queues nothing and removes
    every listener, so that candidates announced after it are not queued
    at all. *)
Theorem candidates_queued_per_listener (now now' : Z) (cand : Candidate)
    (c : WebRTCConnection) :
  additionalCandidates (dispatchIceCandidate now (Some cand) c)
  = additionalCandidates c ++ replicate (listeners c) cand
  /\ listeners (dispatchIceCandidate now (Some cand) c) = listeners c
  /\ additionalCandidates (dispatchIceCandidate now None c) = additionalCandidates c
  /\ listeners (dispatchIceCandidate now None c) = 0%nat
  /\ additionalCandidates
       (dispatchIceCandidate now' (Some cand) (dispatchIceCandidate now None c))
     = additionalCandidates c.
Proof.
  unfold dispatchIceCandidate, listeners. cbn [additionalCandidates waits
    set_waits set_additionalCandidates].
  destruct (onIceCandidate_some now cand (waits c)) as [Hs1 Hs2].
  destruct (onIceCandidate_none now (waits c)) as [Hn1 Hn2].
  rewrite Hs1, Hs2, Hn1, Hn2, app_nil_r.
  repeat split.
  destruct (onIceCandidate_some now' cand
              (List.map fst (List.map (onIceCandidate now None) (waits c))))
    as [Hs3 _].
  rewrite Hs3, Hn2. apply app_nil_r.
Qed.

Section Renegotiated.

Context `{T : Transport}.

(** Every successful offer made while the peer connection is still
    gathering registers one more listener: a candidate announced after a
    renegotiation is queued once more than it would have been before. *)
Theorem renegotiation_duplicates_candidates (now now' : Z) (cand : Candidate)
    (c c1 : WebRTCConnection) :
  reconnect now c = Normal c1 ->
  iceGatheringState (peerConnection c) <> complete ->
  listeners c1 = S (listeners c)
  /\ additionalCandidates (dispatchIceCandidate now' (Some cand) c1)
     = additionalCandidates c ++ replicate (S (listeners c)) cand.
Proof.
  intros Hre Hg.
  assert (H1 : listeners c1 = S (listeners c) /\ additionalCandidates c1 = additionalCandidates c).
  { unfold reconnect, doOffer in Hre.
    destruct (createOffer (peerConnection c)) as [offer|]; [|discriminate].
    destruct (acceptsLocalDescription (peerConnection c) offer); [|discriminate].
    injection Hre as <-. unfold listeners. cbn [waits set_waits set_pc
      peerConnection iceGatheringState timeToHostCandidates additionalCandidates].
    split; [|reflexivity].
    rewrite List.filter_app, length_app.
    destruct (iceGatheringState (peerConnection c)); simpl; [lia | lia | congruence]. }
  destruct H1 as [Hl Ha]. split; [exact Hl|].
  rewrite dispatch_candidate.
  rewrite Hl, Ha. reflexivity.
Qed.

End Renegotiated.

Lemma renegotiation_duplicates_candidates_witness :
  let c1 :=
    mkConn "AAAAAAAAAAAAAAAAAAAAAAAA" opened
           (mkPc [] (Some (mkDescription "offer" "v=0")) None gathering "new"
                 "stable" false)
           ["candidate:0"] TIME_TO_HOST_CANDIDATES None None ∅ ∅ DNull
           [mkWait 1 true (Some 10000) None] in
  additionalCandidates
    (dispatchIceCandidate 2500 (Some "candidate:1")
       (outcome (@reconnect promptTransport 2000 c1)))
  = ["candidate:0"; "candidate:1"; "candidate:1"].
Proof.
  intros c1.
  refine (proj2 (@renegotiation_duplicates_candidates promptTransport
                   2000 2500 "candidate:1" c1
                   (outcome (@reconnect promptTransport 2000 c1)) eq_refl _)).
  discriminate.
Defined.

End ServerQueue.

(** ** The constructor next to a connection without media *)

Module ServerEdges.

Import Readiness Server.

Section Throwing.

Context `{T : Transport}.

Lemma forwardAll_app (k : Kind) (front back : list WebRTCConnection) :
  forall this,
    forwardAll k this (front ++ back) =
    match forwardAll k this front with
    | Normal (this1, front') =>
        match forwardAll k this1 back with
        | Normal (this2, back') => Normal (this2, front' ++ back')
        | Throw e (this2, back') => Throw e (this2, front' ++ back')
        end
    | Throw e (this1, front') => Throw e (this1, front' ++ back)
    end.
Proof.
  induction front as [|their front IH]; intros this; simpl.
  - destruct (forwardAll k this back) as [[? ?]|e [? ?]]; reflexivity.
  - destruct (forward k this their) as [[this1 their1]|e [this1 their1]];
      [|reflexivity].
    rewrite IH.
    destruct (forwardAll k this1 front) as [[this2 front']|e [this2 front']];
      [|reflexivity].
    destruct (forwardAll k this2 back) as [[? ?]|e [? ?]]; reflexivity.
Qed.

Lemma forward_throws (k : Kind) (this their : WebRTCConnection) :
  is_Some (own k this) -> own k their = None ->
  exists this' their',
    forward k this their = Throw TypeError (this', their')
    /\ id their' = id their
    /\ is_Some (routes k their' !! id this)
    /\ length (transceivers (peerConnection their'))
       = S (length (transceivers (peerConnection their)))
    /\ (forall k', routes k' this' = routes k' this)
    /\ (forall k', own k' this' = own k' this).
Proof.
  intros [mine Hmine] Hnone.
  unfold forward. cbn [addTransceiver]. rewrite Hmine.
  match goal with
  | |- context [own k ?c] =>
      lazymatch c with
      | set_routes _ _ _ => replace (own k c) with (@None nat)
                              by (destruct k; simpl in *; congruence)
      end
  end.
  eexists _, _. split; [reflexivity|].
  split; [destruct k; reflexivity|].
  split; [destruct k; simpl; rewrite lookup_insert_eq; eauto|].
  split.
  - destruct k; simpl; rewrite length_alter, length_app; simpl; lia.
  - split; intros []; reflexivity.
Qed.

(** With video enabled, the constructor throws a [TypeError] at the
    first registered connection that has no video transceiver.  By then
    that connection and all before it have already been given a
    transceiver and a [videoMap] entry for the identifier under
    construction, the connections after it are untouched, and the audio
    block has not run. *)
Theorem constructor_throws_midway (i : ChannelId) (a : option bool)
    (front back : list WebRTCConnection) (their : WebRTCConnection) (u : Data) :
  Forall (fun c => is_Some (own Video c)) front ->
  own Video their = None ->
  exists this front' their',
    constructor i (mkOptions a (Some true)) (front ++ their :: back) u
    = Throw TypeError (this, front' ++ their' :: back)
    /\ Forall2 (grown Video i) front front'
    /\ id their' = id their
    /\ is_Some (videoMap their' !! i)
    /\ length (transceivers (peerConnection their'))
       = S (length (transceivers (peerConnection their)))
    /\ audio this = None.
Proof.
  intros Hfront Hnone.
  unfold constructor, setupStreams. cbn [default enableVideo].
  set (this0 := mkConn i opened newPeerConnection [] TIME_TO_HOST_CANDIDATES
                       None None ∅ ∅ u []).
  unfold setupKind.
  change (own Video this0) with (@None nat). cbv iota. cbn [addTransceiver].
  set (this1 := set_own Video _ _).
  assert (Hown1 : is_Some (own Video this1)) by (subst this1; simpl; eauto).
  rewrite forwardAll_app.
  destruct (ServerFacts.forwardAll_grows Video front this1 Hown1 Hfront)
    as (this2 & front' & -> & [Hid2 Hown2] & Hgrown & _).
  assert (Hown2' : is_Some (own Video this2)) by (rewrite Hown2; assumption).
  cbn [forwardAll].
  destruct (forward_throws Video this2 their Hown2' Hnone)
    as (this3 & their' & -> & Hidt & Hroute & Hlen & _ & Hown3).
  exists this3, front', their'. split; [reflexivity|].
  split; [exact Hgrown|]. split; [exact Hidt|].
  split; [rewrite Hid2 in Hroute; exact Hroute|]. split; [exact Hlen|].
  change (audio this3) with (own Audio this3). rewrite Hown3.
  change (own Audio this2 = None). rewrite Hown2. reflexivity.
Qed.

End Throwing.

Lemma constructor_throws_midway_witness :
  let plain :=
    mkConn "AAAAAAAAAAAAAAAAAAAAAAAA" opened newPeerConnection []
           TIME_TO_HOST_CANDIDATES None None ∅ ∅ DNull [] in
  exists this their',
    @constructor promptTransport "BBBBBBBBBBBBBBBBBBBBBBBB"
      (mkOptions None (Some true)) [plain] DNull
    = Throw TypeError (this, [their'])
    /\ is_Some (videoMap their' !! "BBBBBBBBBBBBBBBBBBBBBBBB").
Proof.
  intros plain.
  destruct (@constructor_throws_midway promptTransport "BBBBBBBBBBBBBBBBBBBBBBBB"
              None [] [] plain DNull (List.Forall_nil _) eq_refl)
    as (this & front' & their' & Heq & Hfront & _ & Hroute & _).
  apply Forall2_nil_inv_l in Hfront as ->.
  exists this, their'. split; [exact Heq | exact Hroute].
Defined.

End ServerEdges.

(** ** What the routes carry *)

Module ServerWiring.

Import Readiness Server.

Section Wiring.

Context `{T : Transport}.

Lemma transceivers_replaced (k : Kind) (pc : RTCPeerConnection) (track : Track) :
  transceivers
    (replaceTrack (length (transceivers pc)) track (fst (addTransceiver k pc)))
  = transceivers pc ++ [mkTransceiver k (track_after_replaceTrack track)].
Proof.
  unfold replaceTrack, addTransceiver. simpl.
  replace (length (transceivers pc)) with (length (transceivers pc) + 0)%nat at 1 by lia.
  rewrite alter_app_r. reflexivity.
Qed.

Lemma sends_more (c c' : WebRTCConnection) (extra : list Transceiver)
    (h : nat) (k : Kind) (t : option Track) :
  transceivers (peerConnection c') = transceivers (peerConnection c) ++ extra ->
  sends c h k t -> sends c' h k t.
Proof.
  intros Heq (tr & Hh & Hk & Ht). exists tr. rewrite Heq.
  split; [|auto]. apply lookup_app_l_Some. exact Hh.
Qed.

Lemma wiredTo_known (known known' : ChannelId -> Kind -> nat -> Prop)
    (c : WebRTCConnection) :
  (forall k j h b, routes k c !! j = Some h -> known j k b -> known' j k b) ->
  wiredTo known c -> wiredTo known' c.
Proof.
  intros Hk Hw k. destruct (Hw k) as [Hown Hroutes]. split; [exact Hown|].
  intros j h Hj. destruct (Hroutes j h Hj) as (b & Hb & Hs). eauto.
Qed.

(** One more transceiver, of kind [k] and sending [t], and possibly one
    more route, which then leads to it. *)
Lemma wiredTo_extended (known : ChannelId -> Kind -> nat -> Prop)
    (k : Kind) (t : option Track) (j : ChannelId) (c c' : WebRTCConnection) :
  wiredTo known c ->
  (forall k', own k' c' = own k' c) ->
  transceivers (peerConnection c')
  = transceivers (peerConnection c) ++ [mkTransceiver k t] ->
  (forall k', k' <> k -> routes k' c' = routes k' c) ->
  routes k c' = routes k c
  \/ (routes k c' = <[j := length (transceivers (peerConnection c))]> (routes k c)
      /\ exists b, known j k b /\ t = track_after_replaceTrack (mkTrack j b)) ->
  wiredTo known c'.
Proof.
  intros Hw Hown Htr Hother Hroutes k'.
  destruct (Hw k') as [Hown0 Hroutes0].
  split.
  - intros h Hh. rewrite Hown in Hh. eapply sends_more; [exact Htr | auto].
  - intros j' h Hj'.
    assert (Hold : routes k' c !! j' = Some h ->
                   exists b, known j' k' b
                             /\ sends c' h k' (track_after_replaceTrack (mkTrack j' b))).
    { intros Hc. destruct (Hroutes0 j' h Hc) as (b & Hb & Hs).
      exists b. split; [exact Hb|]. eapply sends_more; [exact Htr | exact Hs]. }
    destruct (decide (k' = k)) as [->|Hne];
      [|rewrite (Hother k' Hne) in Hj'; auto].
    destruct Hroutes as [Hsame|[Hnew (b & Hb & Ht)]];
      [rewrite Hsame in Hj'; auto|].
    rewrite Hnew in Hj'.
    destruct (decide (j = j')) as [<-|Hjj];
      [|rewrite lookup_insert_ne in Hj' by assumption; auto].
    rewrite lookup_insert_eq in Hj'. injection Hj' as <-.
    exists b. split; [exact Hb|].
    exists (mkTransceiver k t). rewrite Htr.
    split; [apply list_lookup_middle; reflexivity|]. split; [reflexivity | exact Ht].
Qed.

Lemma forward_explicit (k : Kind) (this their : WebRTCConnection) (mine theirs : nat) :
  own k this = Some mine -> own k their = Some theirs ->
  exists this' their',
    forward k this their = Normal (this', their')
    /\ id this' = id this /\ id their' = id their
    /\ (forall k', own k' this' = own k' this)
    /\ (forall k', own k' their' = own k' their)
    /\ transceivers (peerConnection their')
       = transceivers (peerConnection their)
         ++ [mkTransceiver k (track_after_replaceTrack (mkTrack (id this) mine))]
    /\ (forall k', k' <> k -> routes k' their' = routes k' their)
    /\ routes k their'
       = <[id this := length (transceivers (peerConnection their))]> (routes k their)
    /\ transceivers (peerConnection this')
       = transceivers (peerConnection this)
         ++ [mkTransceiver k (track_after_replaceTrack (mkTrack (id their) theirs))]
    /\ (forall k', k' <> k -> routes k' this' = routes k' this)
    /\ (routes k this' = routes k this
        \/ routes k this'
           = <[id their := length (transceivers (peerConnection this))]> (routes k this)).
Proof.
  intros Hmine Htheirs.
  pose proof (transceivers_replaced k (peerConnection their) (mkTrack (id this) mine))
    as Htr1.
  pose proof (transceivers_replaced k (peerConnection this) (mkTrack (id their) theirs))
    as Htr2.
  unfold forward. cbn [addTransceiver] in *. cbn [fst] in Htr1, Htr2. rewrite Hmine.
  match goal with
  | |- context [own k ?c] =>
      lazymatch c with
      | set_routes _ _ _ => replace (own k c) with (Some theirs)
                              by (destruct k; simpl in *; congruence)
      end
  end.
  replace (id (set_routes k _ _)) with (id their) by (destruct k; reflexivity).
  destruct (senderTrack _ _).
  - eexists _, _. split; [reflexivity|].
    split; [destruct k; reflexivity|]. split; [destruct k; reflexivity|].
    split; [intros k'; destruct k, k'; reflexivity|].
    split; [intros k'; destruct k, k'; reflexivity|].
    split; [destruct k; exact Htr1|].
    split; [intros k' Hk'; destruct k, k'; try congruence; reflexivity|].
    split; [destruct k; reflexivity|].
    split; [destruct k; exact Htr2|].
    split; [intros k' Hk'; destruct k, k'; try congruence; reflexivity|].
    right. destruct k; reflexivity.
  - eexists _, _. split; [reflexivity|].
    split; [destruct k; reflexivity|]. split; [destruct k; reflexivity|].
    split; [intros k'; destruct k, k'; reflexivity|].
    split; [intros k'; destruct k, k'; reflexivity|].
    split; [destruct k; exact Htr1|].
    split; [intros k' Hk'; destruct k, k'; try congruence; reflexivity|].
    split; [destruct k; reflexivity|].
    split; [destruct k; exact Htr2|].
    split; [intros k' Hk'; destruct k, k'; try congruence; reflexivity|].
    left. destruct k; reflexivity.
Qed.

Lemma forwardAll_wires (known : ChannelId -> Kind -> nat -> Prop) (k : Kind)
    (connections : list WebRTCConnection) :
  forall this mine this' connections',
    own k this = Some mine -> known (id this) k mine ->
    Forall (fun c => exists b, own k c = Some b /\ known (id c) k b) connections ->
    wiredTo known this -> Forall (wiredTo known) connections ->
    forwardAll k this connections = Normal (this', connections') ->
    wiredTo known this' /\ Forall (wiredTo known) connections'.
Proof.
  induction connections as [|their rest IH];
    intros this mine this' connections' Hmine Hkm Hall Hw Hws; simpl.
  - intros [= <- <-]. auto.
  - apply Forall_cons in Hall as [(theirs & Htheirs & Hkt) Hall].
    apply Forall_cons in Hws as [Hwt Hws].
    destruct (forward_explicit k this their mine theirs Hmine Htheirs)
      as (this1 & their1 & -> & Hid1 & Hidt & Hown1 & Hownt & Htr1 & Hoth1 & Hr1
          & Htr2 & Hoth2 & Hr2).
    assert (Hw1 : wiredTo known this1).
    { eapply (wiredTo_extended known k _ (id their) this this1);
        try eassumption.
      destruct Hr2 as [Hs|Hn]; [left; exact Hs|]. right. split; [exact Hn|]. eauto. }
    assert (Hwt1 : wiredTo known their1).
    { eapply (wiredTo_extended known k _ (id this) their their1);
        try eassumption.
      right. split; [exact Hr1|]. eauto. }
    destruct (forwardAll k this1 rest) as [[this2 rest']|e [this2 rest']] eqn:Hrest;
      [|discriminate].
    intros [= <- <-].
    destruct (IH this1 mine this2 rest') as [Hw2 Hws2]; try assumption.
    + rewrite Hown1. exact Hmine.
    + rewrite Hid1. exact Hkm.
    + split; [exact Hw2|]. constructor; assumption.
Qed.

Lemma forwardAll_framed (k : Kind) (connections : list WebRTCConnection) :
  forall this this' connections',
    forwardAll k this connections = Normal (this', connections') ->
    is_Some (own k this) -> Forall (fun c => is_Some (own k c)) connections ->
    framed this this'.
Proof.
  intros this this' connections' Heq Hown Hall.
  destruct (ServerFacts.forwardAll_grows k connections this Hown Hall)
    as (this2 & cs2 & Heq2 & Hfr & _).
  rewrite Heq in Heq2. injection Heq2 as <- <-. exact Hfr.
Qed.

Lemma setupKind_wires (known : ChannelId -> Kind -> nat -> Prop) (k : Kind)
    (this this' : WebRTCConnection) (connections connections' : list WebRTCConnection) :
  setupKind k this connections = Normal (this', connections') ->
  (forall b, own k this' = Some b -> known (id this) k b) ->
  Forall (fun c => exists b, own k c = Some b /\ known (id c) k b) connections ->
  wiredTo known this -> Forall (wiredTo known) connections ->
  wiredTo known this' /\ Forall (wiredTo known) connections'.
Proof.
  unfold setupKind. intros Heq Hknown Hall Hw Hws.
  set (this1 := match own k this with Some _ => this | None => _ end) in Heq.
  assert (Hall' : Forall (fun c => is_Some (own k c)) connections).
  { eapply Forall_impl; [exact Hall|]. intros c (b & -> & _). eauto. }
  assert (H1 : id this1 = id this /\ is_Some (own k this1) /\ wiredTo known this1).
  { subst this1. destruct (own k this) eqn:Hown; [rewrite Hown; eauto|].
    cbn [addTransceiver].
    split; [destruct k; reflexivity|]. split; [destruct k; simpl; eauto|].
    intros k'. destruct (Hw k') as [Hown0 Hroutes0].
    assert (Htr : transceivers
                    (peerConnection
                       (set_own k (Some (length (transceivers (peerConnection this))))
                          (set_pc
                             (set_transceivers
                                (transceivers (peerConnection this)
                                 ++ [mkTransceiver k None]) (peerConnection this))
                             this)))
                  = transceivers (peerConnection this) ++ [mkTransceiver k None])
      by (destruct k; reflexivity).
    split.
    - intros h Hh. destruct (decide (k' = k)) as [->|Hne].
      + assert (h = length (transceivers (peerConnection this)))
          by (destruct k; simpl in Hh; congruence).
        subst h. exists (mkTransceiver k None). rewrite Htr.
        split; [apply list_lookup_middle; reflexivity | split; reflexivity].
      + eapply sends_more; [exact Htr|]. apply Hown0.
        destruct k, k'; try congruence; exact Hh.
    - intros j h Hj.
      assert (Hj0 : routes k' this !! j = Some h) by (destruct k, k'; exact Hj).
      destruct (Hroutes0 j h Hj0) as (b & Hb & Hs).
      exists b. split; [exact Hb|]. eapply sends_more; [exact Htr | exact Hs]. }
  destruct H1 as (Hid1 & [mine Hmine] & Hw1).
  assert (Hfr : framed this1 this').
  { eapply forwardAll_framed; [exact Heq | rewrite Hmine; eauto | exact Hall']. }
  destruct Hfr as [_ Hown'].
  eapply (forwardAll_wires known k connections this1 mine); try eassumption.
  rewrite Hid1. apply Hknown. rewrite Hown'. exact Hmine.
Qed.

(** *** The registry *)

Lemma registered_weaken (connections connections' : list WebRTCConnection)
    (R : WebRTCConnection -> WebRTCConnection -> Prop) :
  (forall c c', R c c' -> framed c c') ->
  Forall2 R connections connections' ->
  forall j k b, registered connections j k b -> registered connections' j k b.
Proof.
  intros HR H2 j k b (B & HB & Hid & Hown).
  apply list_elem_of_lookup in HB as [n Hn].
  destruct (Forall2_lookup_l _ _ _ _ _ H2 Hn) as (B' & HB' & HRB).
  destruct (HR _ _ HRB) as [Hid' Hown'].
  exists B'. split; [eapply list_elem_of_lookup_2; eassumption|].
  split; [congruence | rewrite Hown'; exact Hown].
Qed.

Lemma registered_app (front back : list WebRTCConnection) j k b :
  registered front j k b \/ registered back j k b ->
  registered (front ++ back) j k b.
Proof.
  intros [(B & HB & H)|(B & HB & H)]; exists B;
    (split; [apply elem_of_app; auto | exact H]).
Qed.

Lemma wiredTo_same (known : ChannelId -> Kind -> nat -> Prop)
    (c c' : WebRTCConnection) :
  sameWiring c c' -> wiredTo known c -> wiredTo known c'.
Proof.
  intros [[Hid Hs] Htr] Hw k. destruct (Hw k) as [Hown Hroutes].
  destruct (Hs k) as [Ho Hr].
  assert (Hsends : forall h k' t, sends c h k' t -> sends c' h k' t).
  { intros h k' t (tr & Hh & Hk & Ht). exists tr. rewrite Htr. auto. }
  split.
  - intros h Hh. rewrite Ho in Hh. auto.
  - intros j h Hj. rewrite Hr in Hj. destruct (Hroutes j h Hj) as (b & Hb & Hsd). eauto.
Qed.

Lemma wired_same (connections connections' : list WebRTCConnection) :
  wired connections -> Forall2 sameWiring connections connections' ->
  wired connections'.
Proof.
  unfold wired. intros Hw H2.
  apply Forall_forall. intros c' Hc'.
  apply list_elem_of_lookup in Hc' as [n Hn].
  destruct (Forall2_lookup_r _ _ _ _ _ H2 Hn) as (c & Hc & Hsame).
  rewrite Forall_forall in Hw.
  eapply wiredTo_same; [exact Hsame|].
  eapply wiredTo_known; [|apply Hw; eapply list_elem_of_lookup_2; eassumption].
  intros k j h b _. apply (registered_weaken connections connections' sameWiring);
    [|exact H2].
  intros a a' [[Hid Hs] _]. split; [exact Hid|]. intros k'. apply Hs.
Qed.

Lemma putConnection_related (R : WebRTCConnection -> WebRTCConnection -> Prop)
    (c c' : WebRTCConnection) (connections : list WebRTCConnection) :
  (forall a, R a a) ->
  getConnection (id c') connections = Some c -> R c c' ->
  Forall2 R connections (putConnection c' connections).
Proof.
  unfold getConnection. intros Hrefl Hget HR.
  induction connections as [|h rest IH]; simpl in *; [discriminate|].
  destruct (hasId (id c') h).
  - injection Hget as ->. constructor; [assumption|].
    apply Forall_Forall2_diag, Forall_forall. auto.
  - constructor; auto.
Qed.

Lemma sameWiring_refl (c : WebRTCConnection) : sameWiring c c.
Proof. split; [apply ServerFacts.sameRouting_refl | reflexivity]. Qed.

Lemma wired_put (c c' : WebRTCConnection) (connections : list WebRTCConnection) :
  wired connections ->
  getConnection (id c') connections = Some c -> sameWiring c c' ->
  wired (putConnection c' connections).
Proof.
  intros Hw Hget Hsame. eapply wired_same; [exact Hw|].
  apply (putConnection_related sameWiring c c'); auto using sameWiring_refl.
Qed.

Lemma wired_onClosed (x : WebRTCConnection) (connections : list WebRTCConnection) :
  wired connections -> wired (onClosed x connections).
Proof.
  unfold wired. intros Hw. rewrite Forall_forall in Hw.
  apply Forall_forall. intros c' Hc'.
  apply ServerFacts.elem_of_onClosed in Hc' as (c & Hc & Hne & ->).
  intros k. destruct (Hw c Hc k) as [Hown Hroutes].
  destruct (ServerFacts.forget_spec (id x) c) as [_ Hf]. destruct (Hf k) as [Ho Hr].
  assert (Hsends : forall h k' t, sends c h k' t -> sends (forget (id x) c) h k' t).
  { intros h k' t Hs. exact Hs. }
  split.
  - intros h Hh. rewrite Ho in Hh. auto.
  - intros j h Hj. rewrite Hr in Hj.
    destruct (decide (id x = j)) as [<-|Hxj];
      [rewrite lookup_delete_eq in Hj; discriminate|].
    rewrite lookup_delete_ne in Hj by assumption.
    destruct (Hroutes j h Hj) as (b & (B & HB & HidB & HownB) & Hs).
    exists b. split; [|auto].
    exists (forget (id x) B).
    split; [apply ServerFacts.elem_of_onClosed; exists B;
            split; [exact HB|]; split; [congruence | reflexivity]|].
    split; [exact HidB|].
    destruct (ServerFacts.forget_spec (id x) B) as [_ HfB].
    destruct (HfB k) as [-> _]. exact HownB.
Qed.

Lemma doOffer_sameWiring (now : Z) (this : WebRTCConnection) :
  sameWiring this (outcome (doOffer now this)).
Proof.
  split; [apply ServerFacts.doOffer_same|].
  unfold doOffer.
  destruct (createOffer (peerConnection this)) as [offer|]; [|reflexivity].
  destruct (acceptsLocalDescription (peerConnection this) offer); reflexivity.
Qed.

Lemma dispatchIceCandidate_sameWiring (now : Z) (candidate : option Candidate)
    (c : WebRTCConnection) :
  sameWiring c (dispatchIceCandidate now candidate c).
Proof. split; [apply ServerFacts.dispatchIceCandidate_same | reflexivity]. Qed.

Lemma wiredTo_blank (known : ChannelId -> Kind -> nat -> Prop) (i : ChannelId)
    (u : Data) :
  wiredTo known
    (mkConn i opened newPeerConnection [] TIME_TO_HOST_CANDIDATES None None ∅ ∅ u []).
Proof.
  intros [|]; split; simpl; try discriminate;
    intros j h Hj; rewrite lookup_empty in Hj; discriminate.
Qed.

Lemma wired_registered (connections : list WebRTCConnection)
    (known : ChannelId -> Kind -> nat -> Prop) :
  wired connections ->
  (forall j k b, registered connections j k b -> known j k b) ->
  Forall (wiredTo known) connections.
Proof.
  unfold wired. intros Hw Hk. eapply Forall_impl; [exact Hw|].
  intros c Hc. eapply wiredTo_known; [|exact Hc]. intros k j h b _. apply Hk.
Qed.

Lemma grown_framed (k : Kind) (i : ChannelId) (c c' : WebRTCConnection) :
  grown k i c c' -> framed c c'.
Proof. intros [H _]. exact H. Qed.

Lemma ids_grown (k : Kind) (i : ChannelId) (l l' : list WebRTCConnection) :
  Forall2 (grown k i) l l' -> ids l' = ids l.
Proof.
  intros H. apply ServerFacts.ids_same.
  eapply Forall2_impl; [exact H|]. intros ? ? [[? _] _]. assumption.
Qed.

Lemma getConnection_last (this : WebRTCConnection) (connections : list WebRTCConnection) :
  id this ∉ ids connections ->
  getConnection (id this) (connections ++ [this]) = Some this.
Proof.
  intros Hfresh. rewrite ServerFacts.getConnection_app.
  replace (getConnection (id this) connections) with (@None WebRTCConnection)
    by (symmetry; apply ServerFacts.getConnection_None; exact Hfresh).
  unfold getConnection. simpl. unfold hasId. rewrite String.eqb_refl. reflexivity.
Qed.

Lemma wired_registering (now : Z) (this : WebRTCConnection)
    (connections : list WebRTCConnection) :
  id this ∉ ids connections ->
  wired (connections ++ [this]) ->
  wired (outcome
           match doOffer now this with
           | Normal this1 => Normal (putConnection this1 (connections ++ [this]))
           | Throw e this1 => Throw e (onClosed this1 (connections ++ [this]))
           end).
Proof.
  intros Hfresh Hw.
  pose proof (doOffer_sameWiring now this) as Hsame.
  destruct (doOffer now this) as [this1|e this1]; simpl in *.
  - eapply wired_put; [exact Hw| |exact Hsame].
    destruct Hsame as [[-> _] _]. apply getConnection_last, Hfresh.
  - apply wired_onClosed, Hw.
Qed.

Lemma wired_createConnection (serverOptions : ServerOptions) (now : Z)
    (i : ChannelId) (u : Data) (connections : list WebRTCConnection) :
  consistent (default false (enableVideo serverOptions)) connections ->
  wired connections ->
  getConnection i connections = None ->
  wired (outcome (createConnection serverOptions now i u connections)).
Proof.
  intros (Hequipped & _) Hw Hfresh. apply ServerFacts.getConnection_None in Hfresh.
  unfold createConnection, constructor, setupStreams.
  set (this0 := mkConn i opened newPeerConnection [] TIME_TO_HOST_CANDIDATES
                       None None ∅ ∅ u []).
  destruct (default false (enableVideo serverOptions)) eqn:Hv.
  - assert (HallV : Forall (fun c => is_Some (own Video c)) connections).
    { eapply Forall_impl; [exact Hequipped|]. intros c Hc. apply Hc. reflexivity. }
    destruct (ServerFacts.setupKind_grows Video this0 connections HallV)
      as (thisV & csV & HeqV & HidV & HownV & HothV & HgV & _).
    rewrite HeqV.
    assert (HallA : Forall (fun c => is_Some (own Audio c)) csV).
    { apply Forall_forall. intros c1 Hc1.
      apply list_elem_of_lookup in Hc1 as [n Hn].
      destruct (Forall2_lookup_r _ _ _ _ _ HgV Hn) as (c & Hc & [[_ Hown] _]).
      rewrite Hown. rewrite Forall_forall in Hequipped.
      apply (Hequipped c); [eapply list_elem_of_lookup_2; eassumption | reflexivity]. }
    destruct (ServerFacts.setupKind_grows Audio thisV csV HallA)
      as (thisA & csA & HeqA & HidA & HownA & HothA & HgA & _).
    rewrite HeqA.
    assert (HidsA : ids csA = ids connections).
    { rewrite (ids_grown _ _ _ _ HgA). apply (ids_grown _ _ _ _ HgV). }
    assert (HidA' : id thisA = i) by (simpl in *; congruence).
    assert (HfreshA : id thisA ∉ ids csA) by (rewrite HidA', HidsA; exact Hfresh).
    rewrite ServerFacts.putConnection_fresh by exact HfreshA.
    apply wired_registering; [exact HfreshA|].
    set (known := registered (csA ++ [thisA])).
    assert (HkA : forall j k b, registered csA j k b -> known j k b).
    { intros j k b H. apply registered_app. left. exact H. }
    assert (HkV : forall j k b, registered csV j k b -> known j k b).
    { intros j k b H. apply HkA.
      eapply (registered_weaken csV csA (grown Audio (id thisV)));
        [apply grown_framed | exact HgA | exact H]. }
    assert (Hk0 : forall j k b, registered connections j k b -> known j k b).
    { intros j k b H. apply HkV.
      eapply (registered_weaken connections csV (grown Video (id this0)));
        [apply grown_framed | exact HgV | exact H]. }
    assert (HthisA : forall k b, own k thisA = Some b -> known i k b).
    { intros k b Hb. apply registered_app. right. exists thisA.
      split; [apply list_elem_of_singleton; reflexivity | auto]. }
    destruct (setupKind_wires known Video this0 thisV connections csV HeqV)
      as [HwV HwsV].
    + intros b Hb. apply HthisA.
      destruct (HothA Video) as [-> _]; [discriminate | exact Hb].
    + apply Forall_forall. intros c Hc. rewrite Forall_forall in HallV.
      destruct (HallV c Hc) as [b Hb]. exists b. split; [exact Hb|].
      apply Hk0. exists c. auto.
    + apply wiredTo_blank.
    + apply wired_registered; assumption.
    + destruct (setupKind_wires known Audio thisV thisA csV csA HeqA)
        as [HwA HwsA]; try assumption.
      * intros b Hb. simpl in HidV. rewrite HidV. apply HthisA. exact Hb.
      * apply Forall_forall. intros c Hc. rewrite Forall_forall in HallA.
        destruct (HallA c Hc) as [b Hb]. exists b. split; [exact Hb|].
        apply HkV. exists c. auto.
      * unfold wired. apply Forall_app. split; [exact HwsA|].
        constructor; [exact HwA | constructor].
  - rewrite ServerFacts.putConnection_fresh by exact Hfresh.
    apply (wired_registering now this0 connections Hfresh).
    unfold wired. apply Forall_app. split.
    + apply wired_registered; [exact Hw|].
      intros j k b H. apply registered_app. left. exact H.
    + constructor; [apply wiredTo_blank | constructor].
Qed.

Lemma wired_applyOp (serverOptions : ServerOptions) (op : Op)
    (connections connections' : list WebRTCConnection) :
  consistent (default false (enableVideo serverOptions)) connections ->
  wired connections ->
  applyOp serverOptions op connections = Some connections' ->
  wired connections'.
Proof.
  intros Hc Hw. destruct op as [now i u|i|now i|now i candidate]; simpl.
  - destruct (getConnection i connections) eqn:Hget; [discriminate|].
    intros [= <-]. apply wired_createConnection; assumption.
  - intros [= <-]. unfold closeConnection.
    destruct (getConnection i connections); [apply wired_onClosed|]; assumption.
  - intros [= <-]. unfold reconnectConnection.
    destruct (getConnection i connections) as [c|] eqn:Hget; [|assumption].
    pose proof (doOffer_sameWiring now c) as Hsame. unfold reconnect.
    destruct (doOffer now c) as [c1|e c1]; simpl in *.
    + eapply wired_put; [exact Hw| |exact Hsame].
      destruct Hsame as [[-> _] _].
      apply ServerFacts.getConnection_Some in Hget as Hget'.
      destruct Hget' as [_ ->]. assumption.
    + apply wired_onClosed, Hw.
  - destruct (getConnection i connections) as [c|] eqn:Hget; intros [= <-];
      [|assumption].
    eapply wired_put; [exact Hw| |apply dispatchIceCandidate_sameWiring].
    apply ServerFacts.getConnection_Some in Hget as Hget'. destruct Hget' as [_ Hid].
    simpl. rewrite Hid. assumption.
Qed.

(** In every registry reached from the empty one, for both kinds of
    media: the own transceiver of a connection exists in its peer
    connection, is of that kind and sends nothing; and a route for [j]
    leads to a transceiver of that kind whose [sender.track] is what
    [replaceTrack] made of the track received by the own transceiver of
    a registered connection [j]. *)
Theorem routes_carry_peer_media (serverOptions : ServerOptions) (ops : list Op)
    (connections : list WebRTCConnection) :
  applyAll serverOptions ops [] = Some connections ->
  forall A k, A ∈ connections ->
    (forall h, own k A = Some h -> sends A h k None)
    /\ (forall j h, routes k A !! j = Some h ->
          exists B b, B ∈ connections /\ id B = j /\ own k B = Some b
                      /\ sends A h k (track_after_replaceTrack (mkTrack j b))).
Proof.
  intros Hrun.
  assert (Hboth : forall ops start final,
             consistent (default false (enableVideo serverOptions)) start ->
             wired start ->
             applyAll serverOptions ops start = Some final -> wired final).
  { clear. induction ops as [|op ops IH]; intros start final Hc Hw; simpl.
    - intros [= <-]. exact Hw.
    - destruct (applyOp serverOptions op start) as [next|] eqn:Hop; [|discriminate].
      apply IH.
      + eapply ServerFacts.consistent_applyOp; eassumption.
      + eapply wired_applyOp; eassumption. }
  assert (Hw : wired connections).
  { apply (Hboth ops [] connections); [apply ServerFacts.consistent_nil| |exact Hrun].
    constructor. }
  intros A k HA. unfold wired in Hw. rewrite Forall_forall in Hw.
  destruct (Hw A HA k) as [Hown Hroutes]. split; [exact Hown|].
  intros j h Hj. destruct (Hroutes j h Hj) as (b & (B & HB & Hid & Hb) & Hs).
  exists B, b. auto.
Qed.

End Wiring.

(** Two connections with video over a prompt transport. *)
Lemma routes_carry_peer_media_witness :
  let opts := mkOptions None (Some true) in
  let a := "AAAAAAAAAAAAAAAAAAAAAAAA" in
  let b := "BBBBBBBBBBBBBBBBBBBBBBBB" in
  exists connections,
    @applyAll promptTransport opts [Create 0 a DNull; Create 5 b DNull] []
    = Some connections
    /\ List.map (fun c => (id c, map_to_list (videoMap c))) connections
       = [(a, [(b, 2%nat)]); (b, [(a, 1%nat)])]
    /\ (forall A k, A ∈ connections -> forall j h, routes k A !! j = Some h ->
          exists B n, B ∈ connections /\ id B = j /\ own k B = Some n
                      /\ sends A h k
                           (@track_after_replaceTrack promptTransport (mkTrack j n))).
Proof.
  intros opts a b. eexists. split; [vm_compute; reflexivity|].
  split; [vm_compute; reflexivity|].
  intros A k HA.
  refine (proj2
    (@routes_carry_peer_media promptTransport opts
       [Create 0 a DNull; Create 5 b DNull] _ _ A k HA)).
  vm_compute. reflexivity.
Defined.

End ServerWiring.

(** ** One transceiver, one use *)

Module ServerSlots.

Import Readiness Server Http.

Section Slots.

Context `{T : Transport}.

(** A connection that got one more transceiver, kept in at most one new
    place. *)
Lemma separate_one_more (c c' : WebRTCConnection) (s0 : Slot) :
  separate c ->
  length (transceivers (peerConnection c'))
  = S (length (transceivers (peerConnection c))) ->
  (forall s h, held c' s = Some h ->
               held c s = Some h
               \/ (s = s0 /\ h = length (transceivers (peerConnection c)))) ->
  separate c'.
Proof.
  intros Hsep Hlen Hheld s h Hs. rewrite Hlen.
  destruct (Hheld s h Hs) as [Hold|[-> ->]].
  - destruct (Hsep s h Hold) as [Hlt Huniq]. split; [lia|].
    intros s' Hs'. destruct (Hheld s' h Hs') as [Hold'|[-> ->]]; [auto | lia].
  - split; [lia|].
    intros s' Hs'. destruct (Hheld s' _ Hs') as [Hold'|[-> _]]; [|reflexivity].
    destruct (Hsep s' _ Hold') as [Hlt _]. lia.
Qed.

(** A connection that keeps no transceiver it did not keep before. *)
Lemma separate_fewer (c c' : WebRTCConnection) :
  separate c ->
  transceivers (peerConnection c') = transceivers (peerConnection c) ->
  (forall s h, held c' s = Some h -> held c s = Some h) ->
  separate c'.
Proof.
  intros Hsep Htr Hheld s h Hs. rewrite Htr.
  destruct (Hsep s h (Hheld s h Hs)) as [Hlt Huniq]. split; [exact Hlt|].
  intros s' Hs'. apply Huniq, Hheld, Hs'.
Qed.

Lemma separate_extended (k : Kind) (j : ChannelId) (tr : Transceiver)
    (c c' : WebRTCConnection) :
  separate c ->
  transceivers (peerConnection c') = transceivers (peerConnection c) ++ [tr] ->
  (forall k', own k' c' = own k' c) ->
  (forall k', k' <> k -> routes k' c' = routes k' c) ->
  (routes k c' = routes k c
   \/ routes k c' = <[j := length (transceivers (peerConnection c))]> (routes k c)) ->
  separate c'.
Proof.
  intros Hsep Htr Hown Hoth Hk.
  apply (separate_one_more c c' (RouteSlot k j) Hsep).
  - rewrite Htr, length_app. simpl. lia.
  - intros [k'|k' j'] h; cbn [held].
    + rewrite Hown. auto.
    + destruct (decide (k' = k)) as [->|Hkk]; [|rewrite (Hoth k' Hkk); auto].
      destruct Hk as [Hk|Hk]; rewrite Hk; [auto|].
      destruct (decide (j = j')) as [->|Hj].
      * rewrite lookup_insert_eq. intros [= <-]. auto.
      * rewrite lookup_insert_ne by exact Hj. auto.
Qed.

Lemma forwardAll_separate (k : Kind) (connections : list WebRTCConnection) :
  forall this this' connections',
    is_Some (own k this) ->
    Forall (fun c => is_Some (own k c)) connections ->
    separate this -> Forall separate connections ->
    forwardAll k this connections = Normal (this', connections') ->
    separate this' /\ Forall separate connections'.
Proof.
  induction connections as [|their rest IH];
    intros this this' connections' [mine Hmine] Hall Hs Hss; simpl.
  - intros [= <- <-]. auto.
  - apply Forall_cons in Hall as [[theirs Htheirs] Hall].
    apply Forall_cons in Hss as [Hst Hss].
    destruct (ServerWiring.forward_explicit k this their mine theirs Hmine Htheirs)
      as (this1 & their1 & -> & Hid1 & Hidt & Hown1 & Hownt & Htr1 & Hoth1 & Hr1
          & Htr2 & Hoth2 & Hr2).
    assert (Hs1 : separate this1)
      by (eapply (separate_extended k (id their) _ this this1); eassumption).
    assert (Hst1 : separate their1)
      by (eapply (separate_extended k (id this) _ their their1); eauto).
    destruct (forwardAll k this1 rest) as [[this2 rest2]|e [this2 rest2]] eqn:Hrest;
      [|discriminate].
    intros [= <- <-].
    destruct (IH this1 this2 rest2) as [Hs2 Hss2]; auto.
    rewrite Hown1. eauto.
Qed.

Lemma setupKind_separate (k : Kind) (this this' : WebRTCConnection)
    (connections connections' : list WebRTCConnection) :
  setupKind k this connections = Normal (this', connections') ->
  Forall (fun c => is_Some (own k c)) connections ->
  separate this -> Forall separate connections ->
  separate this' /\ Forall separate connections'.
Proof.
  unfold setupKind. intros Heq Hall Hs Hss.
  set (this1 := match own k this with Some _ => this | None => _ end) in Heq.
  assert (H1 : is_Some (own k this1) /\ separate this1).
  { subst this1. destruct (own k this) eqn:Hown; [rewrite Hown; eauto|].
    cbn [addTransceiver].
    split; [destruct k; simpl; eauto|].
    apply (separate_one_more this _ (OwnSlot k) Hs).
    - destruct k; simpl; rewrite length_app; simpl; lia.
    - intros [k'|k' j'] h.
      + destruct k, k'; simpl in *; intros [= <-]; auto; rewrite ?Hown; auto.
      + destruct k, k'; simpl; auto. }
  destruct H1 as [Hown1 Hs1].
  eapply forwardAll_separate; eassumption.
Qed.

Lemma separate_same (c c' : WebRTCConnection) :
  sameWiring c c' -> separate c -> separate c'.
Proof.
  intros [[_ Hsame] Htr] Hsep. apply (separate_fewer c c' Hsep Htr).
  intros [k|k j] h; cbn [held]; destruct (Hsame k) as [Ho Hr];
    rewrite ?Ho, ?Hr; auto.
Qed.

Lemma separate_put (c c' : WebRTCConnection) (connections : list WebRTCConnection) :
  Forall separate connections ->
  getConnection (id c') connections = Some c -> sameWiring c c' ->
  Forall separate (putConnection c' connections).
Proof.
  intros Hall Hget Hsame.
  pose proof (ServerWiring.putConnection_related
                (fun a a' => separate a -> separate a') c c' connections
                (fun a H => H) Hget (separate_same c c' Hsame)) as Hrel.
  clear Hget. induction Hrel; [constructor|].
  apply Forall_cons in Hall as [Hx Hall]. constructor; auto.
Qed.

Lemma separate_onClosed (x : WebRTCConnection) (connections : list WebRTCConnection) :
  Forall separate connections -> Forall separate (onClosed x connections).
Proof.
  intros Hall. rewrite Forall_forall in Hall.
  apply Forall_forall. intros c' Hc'.
  apply ServerFacts.elem_of_onClosed in Hc' as (c & Hc & _ & ->).
  apply (separate_fewer c _ (Hall c Hc)); [reflexivity|].
  destruct (ServerFacts.forget_spec (id x) c) as [_ Hf].
  intros [k|k j] h; cbn [held]; destruct (Hf k) as [Ho Hr];
    rewrite ?Ho, ?Hr; [auto|].
  intros Hj. apply lookup_delete_Some in Hj as [_ Hj]. exact Hj.
Qed.

Lemma separate_blank (i : ChannelId) (u : Data) :
  separate
    (mkConn i opened newPeerConnection [] TIME_TO_HOST_CANDIDATES None None ∅ ∅ u []).
Proof.
  intros [[|]|[|] j] h; simpl; try discriminate;
    intros Hj; rewrite lookup_empty in Hj; discriminate.
Qed.

Lemma separate_registering (now : Z) (this : WebRTCConnection)
    (connections : list WebRTCConnection) :
  id this ∉ ids connections ->
  Forall separate (connections ++ [this]) ->
  Forall separate
    (outcome
       match doOffer now this with
       | Normal this1 => Normal (putConnection this1 (connections ++ [this]))
       | Throw e this1 => Throw e (onClosed this1 (connections ++ [this]))
       end).
Proof.
  intros Hfresh Hall.
  pose proof (ServerWiring.doOffer_sameWiring now this) as Hsame.
  destruct (doOffer now this) as [this1|e this1]; simpl in *.
  - eapply separate_put; [exact Hall| |exact Hsame].
    destruct Hsame as [[-> _] _]. apply ServerWiring.getConnection_last, Hfresh.
  - apply separate_onClosed, Hall.
Qed.

Lemma separate_createConnection (serverOptions : ServerOptions) (now : Z)
    (i : ChannelId) (u : Data) (connections : list WebRTCConnection) :
  consistent (default false (enableVideo serverOptions)) connections ->
  Forall separate connections ->
  getConnection i connections = None ->
  Forall separate (outcome (createConnection serverOptions now i u connections)).
Proof.
  intros (Hequipped & _) Hall Hfresh. apply ServerFacts.getConnection_None in Hfresh.
  unfold createConnection, constructor, setupStreams.
  set (this0 := mkConn i opened newPeerConnection [] TIME_TO_HOST_CANDIDATES
                       None None ∅ ∅ u []).
  destruct (default false (enableVideo serverOptions)) eqn:Hv.
  - assert (HallV : Forall (fun c => is_Some (own Video c)) connections).
    { eapply Forall_impl; [exact Hequipped|]. intros c Hc. apply Hc. reflexivity. }
    destruct (ServerFacts.setupKind_grows Video this0 connections HallV)
      as (thisV & csV & HeqV & HidV & HownV & HothV & HgV & _).
    rewrite HeqV.
    assert (HallA : Forall (fun c => is_Some (own Audio c)) csV).
    { apply Forall_forall. intros c1 Hc1.
      apply list_elem_of_lookup in Hc1 as [n Hn].
      destruct (Forall2_lookup_r _ _ _ _ _ HgV Hn) as (c & Hc & [[_ Hown] _]).
      rewrite Hown. rewrite Forall_forall in Hequipped.
      apply (Hequipped c); [eapply list_elem_of_lookup_2; eassumption | reflexivity]. }
    destruct (ServerFacts.setupKind_grows Audio thisV csV HallA)
      as (thisA & csA & HeqA & HidA & HownA & HothA & HgA & _).
    rewrite HeqA.
    assert (HidsA : ids csA = ids connections).
    { rewrite (ServerWiring.ids_grown _ _ _ _ HgA).
      apply (ServerWiring.ids_grown _ _ _ _ HgV). }
    assert (HfreshA : id thisA ∉ ids csA)
      by (simpl in *; rewrite HidA, HidV, HidsA; exact Hfresh).
    rewrite ServerFacts.putConnection_fresh by exact HfreshA.
    apply separate_registering; [exact HfreshA|].
    destruct (setupKind_separate Video this0 thisV connections csV HeqV HallV
                (separate_blank i u) Hall) as [HsV HssV].
    destruct (setupKind_separate Audio thisV thisA csV csA HeqA HallA HsV HssV)
      as [HsA HssA].
    apply Forall_app. split; [exact HssA|]. constructor; [exact HsA | constructor].
  - rewrite ServerFacts.putConnection_fresh by exact Hfresh.
    apply (separate_registering now this0 connections Hfresh).
    apply Forall_app. split; [exact Hall|].
    constructor; [apply separate_blank | constructor].
Qed.

Lemma separate_applyOp (serverOptions : ServerOptions) (op : Op)
    (connections connections' : list WebRTCConnection) :
  consistent (default false (enableVideo serverOptions)) connections ->
  Forall separate connections ->
  applyOp serverOptions op connections = Some connections' ->
  Forall separate connections'.
Proof.
  intros Hc Hall. destruct op as [now i u|i|now i|now i candidate]; simpl.
  - destruct (getConnection i connections) eqn:Hget; [discriminate|].
    intros [= <-]. apply separate_createConnection; assumption.
  - intros [= <-]. unfold closeConnection.
    destruct (getConnection i connections); [apply separate_onClosed|]; assumption.
  - intros [= <-]. unfold reconnectConnection.
    destruct (getConnection i connections) as [c|] eqn:Hget; [|assumption].
    pose proof (ServerWiring.doOffer_sameWiring now c) as Hsame. unfold reconnect.
    destruct (doOffer now c) as [c1|e c1]; simpl in *.
    + eapply separate_put; [exact Hall| |exact Hsame].
      destruct Hsame as [[-> _] _].
      apply ServerFacts.getConnection_Some in Hget as Hget'.
      destruct Hget' as [_ ->]. assumption.
    + apply separate_onClosed, Hall.
  - destruct (getConnection i connections) as [c|] eqn:Hget; intros [= <-];
      [|assumption].
    eapply separate_put;
      [exact Hall| |apply ServerWiring.dispatchIceCandidate_sameWiring].
    apply ServerFacts.getConnection_Some in Hget as Hget'. destruct Hget' as [_ Hid].
    simpl. rewrite Hid. assumption.
Qed.

(** In every registry reached from the empty one, no connection uses a
    transceiver twice: what it keeps in [this.audio], in [this.video]
    and in the entries of [audioMap] and [videoMap] are transceivers of
    its own peer connection, all different.  So when the transceivers of
    a connection have different [mid]s, the streams endpoint reports
    every route. *)
Theorem transceivers_never_shared (serverOptions : ServerOptions) (ops : list Op)
    (connections : list WebRTCConnection) :
  applyAll serverOptions ops [] = Some connections ->
  forall c, c ∈ connections ->
    separate c
    /\ ((forall t1 t2, mid (id c) t1 = mid (id c) t2 -> t1 = t2) ->
        forall k, distinctMids c (routes k c)).
Proof.
  intros Hrun.
  assert (Hboth : forall ops start final,
             consistent (default false (enableVideo serverOptions)) start ->
             Forall separate start ->
             applyAll serverOptions ops start = Some final -> Forall separate final).
  { clear. induction ops as [|op ops IH]; intros start final Hc Hall; simpl.
    - intros [= <-]. exact Hall.
    - destruct (applyOp serverOptions op start) as [next|] eqn:Hop; [|discriminate].
      apply IH.
      + eapply ServerFacts.consistent_applyOp; eassumption.
      + eapply separate_applyOp; eassumption. }
  assert (Hall : Forall separate connections).
  { apply (Hboth ops [] connections); [apply ServerFacts.consistent_nil| |exact Hrun].
    constructor. }
  intros c Hc. rewrite Forall_forall in Hall. pose proof (Hall c Hc) as Hsep.
  split; [exact Hsep|].
  intros Hmid k j1 j2 t1 t2 H1 H2 Heq. apply Hmid in Heq. subst t2.
  destruct (Hsep (RouteSlot k j1) t1 H1) as [_ Huniq].
  specialize (Huniq (RouteSlot k j2) H2). congruence.
Qed.

End Slots.

(** Three connections with video over a prompt transport: the second
    keeps its own video transceiver and one for each of the others. *)
Lemma transceivers_never_shared_witness :
  let opts := mkOptions None (Some true) in
  let a := "AAAAAAAAAAAAAAAAAAAAAAAA" in
  let b := "BBBBBBBBBBBBBBBBBBBBBBBB" in
  let c := "CCCCCCCCCCCCCCCCCCCCCCCC" in
  exists connections,
    @applyAll promptTransport opts
      [Create 0 a DNull; Create 5 b DNull; Create 9 c DNull] []
    = Some connections
    /\ List.map (fun x => (id x, video x, map_to_list (videoMap x))) connections
       !! 1%nat
       = Some (b, Some 0%nat, [(c, 4%nat); (a, 1%nat)])
    /\ forall x, x ∈ connections -> separate x.
Proof.
  intros opts a b c. eexists. split; [vm_compute; reflexivity|].
  split; [vm_compute; reflexivity|].
  intros x Hx.
  refine (proj1
    (@transceivers_never_shared promptTransport opts
       [Create 0 a DNull; Create 5 b DNull; Create 9 c DNull] _ _ x Hx)).
  vm_compute. reflexivity.
Defined.

End ServerSlots.

(** ** More on HTTP signalling *)

Module HttpEdges.

Import Readiness Server Http.

(** *** The patterns tell the endpoints apart *)

Lemma isAlnum_not_slash (c : ascii) : isAlnum c = true -> Ascii.eqb "/" c = false.
Proof.
  destruct c as [[|] [|] [|] [|] [|] [|] [|] [|]]; vm_compute; congruence.
Qed.

(** [[0-9a-zA-Z]+\/tail] on an alphanumeric word followed by [/what]
    comes down to [tail] on [what]. *)
Lemma matchHere_word_only (tail w what : string) :
  allAlnum w = true ->
  matchHere (lits tail) what = false ->
  matchHere (AlnumPlus :: lits (String "/" tail)) (w ++ String "/" what) = false.
Proof.
  intros Hw Htail. induction w as [|c w IH].
  - reflexivity.
  - simpl in Hw. apply andb_true_iff in Hw as [Hc Hw].
    change (isAlnum c
            && (matchHere (AlnumPlus :: lits (String "/" tail)) (w ++ String "/" what)
                || matchHere (lits (String "/" tail)) (w ++ String "/" what)) = false).
    rewrite (IH Hw), Hc, andb_true_l, orb_false_l.
    destruct w as [|c' w'].
    + change (Ascii.eqb "/" "/" && matchHere (lits tail) what = false).
      rewrite Htail. reflexivity.
    + simpl in Hw. apply andb_true_iff in Hw as [Hc' _].
      change (Ascii.eqb "/" c'
              && matchHere (lits tail) (w' ++ String "/" what) = false).
      rewrite (isAlnum_not_slash c' Hc'). reflexivity.
Qed.

Lemma matchHere_Lit (a c : ascii) (pat : list Atom) (s : string) :
  matchHere (Lit a :: pat) (String c s) = Ascii.eqb a c && matchHere pat s.
Proof. reflexivity. Qed.

(** [wrtc\/v...] does not start inside an alphanumeric word that is
    followed by [/what], unless [what] goes on with [v]. *)
Lemma matchHere_inside_word (pat : list Atom) (w what : string) :
  allAlnum w = true ->
  matchHere (lits "v") what = false ->
  matchHere (lits "wrtc/v" ++ pat) (w ++ String "/" what) = false.
Proof.
  intros Hw Hv. cbn [lits app].
  destruct w as [|a1 [|a2 [|a3 [|a4 [|a5 w]]]]];
    rewrite ?HttpFacts.append_String, ?HttpFacts.append_Empty, ?matchHere_Lit;
    repeat match goal with
           | |- context [Ascii.eqb ?x ?y] =>
               is_var y; destruct (Ascii.eqb x y) eqn:?;
               [rewrite andb_true_l | reflexivity]
           end;
    try reflexivity.
  - destruct what as [|v what]; [reflexivity|].
    rewrite matchHere_Lit.
    change (matchHere (lits "v") (String v what)) with (Ascii.eqb "v" v && true) in Hv.
    rewrite andb_true_r in Hv. rewrite Hv. reflexivity.
  - cbn [allAlnum] in Hw. repeat (apply andb_true_iff in Hw as [? Hw]).
    match goal with
    | H : Ascii.eqb "/" a5 = true, H' : isAlnum a5 = true |- _ =>
        rewrite (isAlnum_not_slash a5 H') in H; discriminate H
    end.
Qed.

(** No match of an endpoint pattern starts inside the identifier. *)
Lemma test_inside_word (tail w what : string) :
  allAlnum w = true ->
  matchHere (lits "v") what = false ->
  test (connectionRegEx tail) (String "/" what) = false ->
  test (connectionRegEx tail) (w ++ String "/" what) = false.
Proof.
  intros Hw Hv Hrest. induction w as [|c w IH]; [exact Hrest|].
  simpl in Hw. apply andb_true_iff in Hw as [Hc Hw].
  change (matchHere (connectionRegEx tail) (String c (w ++ String "/" what))
          || test (connectionRegEx tail) (w ++ String "/" what) = false).
  rewrite (IH Hw), orb_false_r.
  change (negb (isLineTerminator c)
          && matchHere (lits "wrtc/v"
                        ++ (lits "1/connections/" ++ [AlnumPlus]
                            ++ lits (String "/" tail)))
                       (w ++ String "/" what) = false).
  rewrite matchHere_inside_word by assumption. apply andb_false_r.
Qed.

(** The path built for one endpoint matches the pattern of another one
    only if the other's name starts this one's. *)
Lemma connectionPath_other (i : ChannelId) (tail what : string) :
  isId i = true ->
  matchHere (lits tail) what = false ->
  matchHere (lits "v") what = false ->
  test (connectionRegEx tail) (String "/" what) = false ->
  test (connectionRegEx tail) (connectionPath i what) = false.
Proof.
  intros Hi Htail Hv Hrest.
  apply HttpFacts.isId_spec in Hi as (_ & Hal & Hne).
  unfold connectionPath.
  change (root ++ "/connections/" ++ i ++ "/" ++ what)%string
    with ("/.wrtc/v1/connections/" ++ (i ++ String "/" what))%string.
  destruct i as [|c i]; [congruence|].
  set (text := (String c i ++ String "/" what)%string).
  assert (Hword : matchHere (AlnumPlus :: lits (String "/" tail)) text = false)
    by (apply matchHere_word_only; assumption).
  assert (Hin : test (connectionRegEx tail) text = false)
    by (apply test_inside_word; assumption).
  assert (Hslash : matchHere (connectionRegEx tail) (String "/" text) = false).
  { change (negb (isLineTerminator "/")
            && matchHere (lits "wrtc/v"
                          ++ (lits "1/connections/" ++ [AlnumPlus]
                              ++ lits (String "/" tail))) text = false).
    unfold text.
    rewrite matchHere_inside_word by assumption. reflexivity. }
  rewrite !HttpFacts.append_String, HttpFacts.append_Empty.
  repeat match goal with
         | |- test ?p (String ?c ?s) = false =>
             change (matchHere p (String c s) || test p s = false);
             replace (matchHere p (String c s)) with false
               by (symmetry; first [exact Hslash | exact Hword | reflexivity]);
             rewrite orb_false_l
         end.
  exact Hin.
Qed.

(** The path built for one endpoint matches the pattern of an endpoint
    exactly when it is the same endpoint. *)
Lemma connectionPath_test (i : ChannelId) (what tail : string) :
  isId i = true -> what ∈ endpoints -> tail ∈ endpoints ->
  test (connectionRegEx tail) (connectionPath i what) = String.eqb tail what.
Proof.
  intros Hi Hwhat Htail. unfold endpoints in Hwhat, Htail.
  repeat (apply elem_of_cons in Hwhat as [->|Hwhat]);
    try (apply elem_of_nil in Hwhat; contradiction);
    repeat (apply elem_of_cons in Htail as [->|Htail]);
    try (apply elem_of_nil in Htail; contradiction);
    match goal with
    | |- _ = ?rhs => let v := eval vm_compute in rhs in change rhs with v
    end;
    lazymatch goal with
    | |- _ = true => exact (proj2 (HttpFacts.connectionPath_routed i _ Hi))
    | |- _ = false =>
        apply connectionPath_other; [exact Hi | vm_compute; reflexivity ..]
    end.
Qed.

Lemma endpoint_ids (i : ChannelId) (what : string) :
  isId i = true -> what ∈ endpoints -> matchIds (connectionPath i what) = [i].
Proof.
  intros Hi Hwhat. apply HttpFacts.connectionPath_ids; [exact Hi|].
  unfold endpoints in Hwhat.
  repeat (apply elem_of_cons in Hwhat as [->|Hwhat]; [reflexivity|]).
  apply elem_of_nil in Hwhat. contradiction.
Qed.

(** The paths the client library builds reach their own endpoint and no
    other: the path for endpoint [what] and an identifier as drawn lies
    below the root, is not the path that creates a connection, matches
    the pattern of an endpoint exactly when that endpoint is [what], and
    names exactly the identifier. *)
Theorem client_paths_dispatch (i : ChannelId) (what : string) :
  isId i = true -> what ∈ endpoints ->
  let p := connectionPath i what in
  test rootRegEx p = true
  /\ String.eqb p (root ++ "/connections") = false
  /\ (forall tail, tail ∈ endpoints ->
        (test (connectionRegEx tail) p = true <-> tail = what))
  /\ matchIds p = [i].
Proof.
  intros Hi Hwhat p.
  split; [apply (HttpFacts.connectionPath_routed i what Hi)|].
  split; [reflexivity|].
  split; [|apply endpoint_ids; assumption].
  intros tail Htail. subst p.
  rewrite (connectionPath_test i what tail Hi Hwhat Htail).
  apply String.eqb_eq.
Qed.

Lemma client_paths_dispatch_witness :
  let i := "0123456789abcdefghijKLMN" in
  let p := connectionPath i "reconnect" in
  test (connectionRegEx "reconnect") p = true
  /\ test (connectionRegEx "remote-description") p <> true
  /\ matchIds p = [i].
Proof.
  intros i p.
  destruct (client_paths_dispatch i "reconnect") as (_ & _ & Htests & Hids);
    [reflexivity | vm_compute; repeat constructor |].
  split; [apply (Htests "reconnect"); [vm_compute; repeat constructor | reflexivity]|].
  split; [|exact Hids].
  intros H. apply (Htests "remote-description") in H;
    [discriminate H | vm_compute; repeat constructor].
Defined.

(** *** The listener on the client's requests *)

Lemma putConnection_found (c : WebRTCConnection) (connections : list WebRTCConnection) :
  getConnection (id c) connections = Some c -> putConnection c connections = connections.
Proof.
  unfold getConnection.
  induction connections as [|h rest IH]; simpl; [discriminate|].
  destruct (hasId (id c) h).
  - intros [= ->]. reflexivity.
  - intros H. rewrite (IH H). reflexivity.
Qed.

Lemma getConnection_put_other (c : WebRTCConnection)
    (connections : list WebRTCConnection) (j : ChannelId) :
  j <> id c ->
  getConnection j (putConnection c connections) = getConnection j connections.
Proof.
  intros Hj. unfold getConnection.
  assert (Hc : hasId j c = false).
  { unfold hasId. destruct (String.eqb (id c) j) eqn:E; [|reflexivity].
    apply String.eqb_eq in E. congruence. }
  induction connections as [|h rest IH]; simpl.
  - rewrite Hc. reflexivity.
  - destruct (hasId (id c) h) eqn:E; simpl.
    + rewrite Hc. unfold hasId in E. apply String.eqb_eq in E.
      unfold hasId in *. rewrite E, Hc. reflexivity.
    + destruct (hasId j h); [reflexivity | exact IH].
Qed.

(** The tests of the listener on the path built for [what]. *)
Ltac dispatch Hi i what :=
  let member := fresh "Hwhat" in
  assert (member : what ∈ endpoints) by (vm_compute; repeat constructor);
  pose proof (proj1 (HttpFacts.connectionPath_routed i what Hi));
  assert (String.eqb (connectionPath i what) (root ++ "/connections") = false)
    by reflexivity;
  pose proof (endpoint_ids i what Hi member);
  let tests tail :=
    let Htail := fresh "Htail" in
    assert (Htail : tail ∈ endpoints) by (vm_compute; repeat constructor);
    pose proof (connectionPath_test i what tail Hi member Htail);
    clear Htail in
  tests "remote-description"; tests "additional-candidates"; tests "close";
  tests "reconnect"; tests "streams";
  clear member;
  unfold listener, isMethod; cbn [method pathname body authorization];
  repeat match goal with
         | H : test _ _ = _ |- _ => rewrite H; clear H
         | H : String.eqb _ _ = _ |- _ => rewrite H; clear H
         | H : matchIds _ = _ |- _ => rewrite H; clear H
         end;
  cbn [negb andb fst snd String.eqb Ascii.eqb Bool.eqb].

Section Dispatch.

Context `{T : Transport} `{S : Shell}.

(** A request that names a connection the registry does not hold leaves
    the registry as it is, on every endpoint; it is answered with 404
    and no body, except on [close], where it is not answered. *)
Theorem unknown_connection (now : Z) (i : ChannelId)
    (connections : list WebRTCConnection) (auth : option string) (b : string) :
  isId i = true -> getConnection i connections = None ->
  (forall m what,
      (m, what) ∈ [("POST", "remote-description"); ("GET", "additional-candidates");
                   ("POST", "reconnect"); ("POST", "streams")] ->
      let r := listener now (mkRequest (Some m) (Some (connectionPath i what))
                                       auth (Some b)) connections in
      fst r = connections /\ statusCode (snd r) = Some 404 /\ written (snd r) = [])
  /\ (let r := listener now (mkRequest (Some "POST") (Some (connectionPath i "close"))
                                       auth (Some b)) connections in
      fst r = connections /\ statusCode (snd r) = None /\ written (snd r) = []).
Proof.
  intros Hi Hget. split.
  - intros m what Hin.
    repeat (apply elem_of_cons in Hin as [[= -> ->]|Hin]);
      try (apply elem_of_nil in Hin; contradiction);
      intros r; subst r.
    + dispatch Hi i "remote-description". rewrite Hget. repeat split.
    + dispatch Hi i "additional-candidates". rewrite Hget. repeat split.
    + dispatch Hi i "reconnect". rewrite Hget. repeat split.
    + dispatch Hi i "streams". rewrite Hget. repeat split.
  - intros r; subst r. dispatch Hi i "close".
    unfold closeConnection. rewrite Hget. repeat split.
Qed.

(** The answer the client posts to [remote-description] of a registered
    connection: when it parses and the peer connection accepts it, it
    becomes the connection's remote description and is echoed with
    status 200, and nothing else about the registry changes; when it
    does not parse or is refused, the request is answered with 400 and
    the registry is left as it was. *)
Theorem answer_round_trip (now : Z) (i : ChannelId) (c : WebRTCConnection)
    (connections : list WebRTCConnection) (auth : option string) (b : string) :
  isId i = true -> getConnection i connections = Some c ->
  let r := listener now (mkRequest (Some "POST")
                                   (Some (connectionPath i "remote-description"))
                                   auth (Some b)) connections in
  match parseDescription b with
  | Some answer =>
      if acceptsRemoteDescription (peerConnection c) answer then
        statusCode (snd r) = Some 200
        /\ written (snd r) = [DescriptionJSON (Some answer)]
        /\ ids (fst r) = ids connections
        /\ (forall j, j <> i -> getConnection j (fst r) = getConnection j connections)
        /\ exists c1, getConnection i (fst r) = Some c1
                      /\ remoteDescription (peerConnection c1) = Some answer
                      /\ localDescription (peerConnection c1)
                         = localDescription (peerConnection c)
                      /\ additionalCandidates c1 = additionalCandidates c
                      /\ sameWiring c c1
      else
        statusCode (snd r) = Some 400 /\ written (snd r) = [] /\ fst r = connections
  | None =>
      statusCode (snd r) = Some 400 /\ written (snd r) = [] /\ fst r = connections
  end.
Proof.
  intros Hi Hget r. subst r.
  pose proof (ServerFacts.getConnection_Some _ _ _ Hget) as [_ Hid].
  dispatch Hi i "remote-description". rewrite Hget.
  destruct (parseDescription b) as [answer|]; [|repeat split].
  unfold applyAnswer.
  destruct (acceptsRemoteDescription (peerConnection c) answer).
  - match goal with
    | |- context [putConnection ?x connections] => set (c1 := x)
    end.
    assert (Hget1 : getConnection (id c1) connections = Some c)
      by (simpl; rewrite Hid; exact Hget).
    cbn [fst snd].
    split; [reflexivity|]. split; [reflexivity|].
    split.
    { apply ServerFacts.ids_same.
      apply (ServerWiring.putConnection_related (fun a a' => id a' = id a) c c1);
        [reflexivity | exact Hget1 | reflexivity]. }
    split.
    { intros j Hj. apply getConnection_put_other. simpl. congruence. }
    exists c1. split.
    { rewrite <- Hid. change (id c) with (id c1).
      apply (ServerFacts.putConnection_getConnection c c1). exact Hget1. }
    split; [reflexivity|]. split; [reflexivity|]. split; [reflexivity|].
    split; [|reflexivity].
    split; [reflexivity|]. intros [|]; split; reflexivity.
  - cbn [fst snd]. split; [reflexivity|]. split; [reflexivity|].
    apply putConnection_found. rewrite Hid. exact Hget.
Qed.

End Dispatch.

Lemma unknown_connection_witness :
  let i := "0123456789abcdefghijKLMN" in
  let r := @listener promptTransport bareShell 0
             (mkRequest (Some "POST") (Some (connectionPath i "streams")) None (Some ""))
             [] in
  fst r = [] /\ statusCode (snd r) = Some 404 /\ written (snd r) = [].
Proof.
  intros i.
  refine (proj1 (@unknown_connection promptTransport bareShell 0 i [] None "" _ _)
            "POST" "streams" _).
  - reflexivity.
  - reflexivity.
  - vm_compute. repeat constructor.
Defined.

(** One connection over a prompt transport; the client posts its answer. *)
Lemma answer_round_trip_witness :
  let a := "AAAAAAAAAAAAAAAAAAAAAAAA" in
  exists connections,
    @applyAll promptTransport (mkOptions None (Some true)) [Create 0 a DNull] []
    = Some connections
    /\ let r := @listener promptTransport answeringShell 7
                  (mkRequest (Some "POST")
                             (Some (connectionPath a "remote-description"))
                             None (Some "v=0"))
                  connections in
       statusCode (snd r) = Some 200
       /\ written (snd r) = [DescriptionJSON (Some (mkDescription "answer" "v=0"))].
Proof.
  intros a. eexists. split; [vm_compute; reflexivity|].
  match goal with
  | |- let r := listener _ _ ?cs in _ =>
      match cs with
      | [?c] =>
          destruct (@answer_round_trip promptTransport answeringShell 7 a c cs None
                      "v=0" eq_refl ltac:(vm_compute; reflexivity)) as (H1 & H2 & _)
      end
  end.
  split; assumption.
Defined.

(** *** The streams endpoint *)

Section Streams.

Context `{T : Transport} `{S : Shell}.

(** Every entry of the map sent comes from an entry of the routing
    table; when the [mid]s are distinct the map is the routing table
    read backwards. *)
Lemma byMid_spec (c : WebRTCConnection) (m : gmap ChannelId nat) :
  (forall s j, byMid c m !! s = Some j ->
               exists t, m !! j = Some t /\ mid (id c) t = s)
  /\ (distinctMids c m ->
      forall s j, byMid c m !! s = Some j
                  <-> exists t, m !! j = Some t /\ mid (id c) t = s).
Proof.
  unfold byMid.
  apply (map_fold_weak_ind
           (fun (r : gmap string ChannelId) (m : gmap ChannelId nat) =>
              (forall s j, r !! s = Some j ->
                           exists t, m !! j = Some t /\ mid (id c) t = s)
              /\ (distinctMids c m ->
                  forall s j, r !! s = Some j
                              <-> exists t, m !! j = Some t /\ mid (id c) t = s))).
  - split.
    + intros s j H. rewrite lookup_empty in H. discriminate.
    + intros _ s j. rewrite lookup_empty. split; [discriminate|].
      intros (t & H & _). rewrite lookup_empty in H. discriminate.
  - intros i x m0 r Hi [IH1 IH2]. split.
    + intros s j. destruct (decide (s = mid (id c) x)) as [->|Hs].
      * rewrite lookup_insert_eq. intros [= <-]. exists x.
        rewrite lookup_insert_eq. auto.
      * rewrite lookup_insert_ne by congruence. intros H.
        destruct (IH1 s j H) as (t & Ht & Hmid). exists t. split; [|exact Hmid].
        rewrite lookup_insert_ne by congruence. exact Ht.
    + intros Hinj.
      assert (Hinj0 : distinctMids c m0).
      { intros j1 j2 t1 t2 H1 H2. apply Hinj;
          (rewrite lookup_insert_ne by congruence); assumption. }
      intros s j. destruct (decide (s = mid (id c) x)) as [->|Hs].
      * rewrite lookup_insert_eq. split.
        -- intros [= <-]. exists x. rewrite lookup_insert_eq. auto.
        -- intros (t & Ht & Hmid). f_equal.
           apply (Hinj i j x t); [apply lookup_insert_eq | exact Ht | congruence].
      * rewrite lookup_insert_ne by congruence. rewrite (IH2 Hinj0 s j).
        split; intros (t & Ht & Hmid); exists t; (split; [|exact Hmid]).
        -- rewrite lookup_insert_ne by congruence. exact Ht.
        -- destruct (decide (i = j)) as [->|Hij].
           ++ rewrite lookup_insert_eq in Ht. congruence.
           ++ rewrite lookup_insert_ne in Ht by exact Hij. exact Ht.
Qed.

(** A [POST] to [streams] of a registered connection is answered with
    status 200 and two maps, and leaves the registry as it is.  Each
    entry of a map names a channel the connection has a route for, under
    the [mid] of the transceiver the route leads to; when those [mid]s
    are distinct, every route appears. *)
Theorem streams_response (now : Z) (i : ChannelId) (c : WebRTCConnection)
    (connections : list WebRTCConnection) (auth : option string) (b : string) :
  isId i = true -> getConnection i connections = Some c ->
  let r := listener now (mkRequest (Some "POST") (Some (connectionPath i "streams"))
                                   auth (Some b)) connections in
  fst r = connections
  /\ statusCode (snd r) = Some 200
  /\ exists audio video,
       written (snd r) = [StreamsJSON audio video]
       /\ (forall s j, audio !! s = Some j ->
                       exists t, audioMap c !! j = Some t /\ mid i t = s)
       /\ (forall s j, video !! s = Some j ->
                       exists t, videoMap c !! j = Some t /\ mid i t = s)
       /\ (distinctMids c (audioMap c) ->
           forall j t, audioMap c !! j = Some t -> audio !! mid i t = Some j)
       /\ (distinctMids c (videoMap c) ->
           forall j t, videoMap c !! j = Some t -> video !! mid i t = Some j).
Proof.
  intros Hi Hget r. subst r.
  pose proof (ServerFacts.getConnection_Some _ _ _ Hget) as [_ Hid].
  dispatch Hi i "streams". rewrite Hget. cbn [fst snd].
  split; [reflexivity|]. split; [reflexivity|].
  exists (byMid c (audioMap c)), (byMid c (videoMap c)).
  split; [reflexivity|]. rewrite <- Hid.
  split; [apply (proj1 (byMid_spec c (audioMap c)))|].
  split; [apply (proj1 (byMid_spec c (videoMap c)))|].
  split; intros Hd j t Hj.
  - apply (proj2 (byMid_spec c (audioMap c)) Hd). eauto.
  - apply (proj2 (byMid_spec c (videoMap c)) Hd). eauto.
Qed.

End Streams.

(** Two connections with video over a prompt transport; the first asks
    for its streams. *)
Lemma streams_response_witness :
  let a := "AAAAAAAAAAAAAAAAAAAAAAAA" in
  let b := "BBBBBBBBBBBBBBBBBBBBBBBB" in
  exists connections,
    @applyAll promptTransport (mkOptions None (Some true))
      [Create 0 a DNull; Create 5 b DNull] []
    = Some connections
    /\ let r := @listener promptTransport bareShell 9
                  (request "POST" (connectionPath a "streams")) connections in
       fst r = connections /\ statusCode (snd r) = Some 200.
Proof.
  intros a b. eexists. split; [vm_compute; reflexivity|].
  match goal with
  | |- let r := listener _ _ ?cs in _ =>
      match cs with
      | [?c; _] =>
          destruct (@streams_response promptTransport bareShell 9 a c cs None ""
                      eq_refl ltac:(vm_compute; reflexivity)) as (H1 & H2 & _)
      end
  end.
  split; assumption.
Defined.

(** *** Polling for candidates while they are gathered *)

Section Polling.

Context `{T : Transport} `{S : Shell}.

Lemma poll_response (now : Z) (i : ChannelId) (c : WebRTCConnection)
    (connections : list WebRTCConnection) :
  isId i = true -> getConnection i connections = Some c ->
  let r := listener now (request "GET" (connectionPath i "additional-candidates"))
                    connections in
  fst r = putConnection (set_additionalCandidates [] c) connections
  /\ fetchAdditionalCandidates (snd r) = additionalCandidates c.
Proof.
  intros Hi Hget r.
  destruct (HttpFacts.connectionPath_routed i "additional-candidates" Hi)
    as [Hroot Hpath].
  pose proof (HttpFacts.connectionPath_ids i "additional-candidates" Hi eq_refl)
    as Hids.
  subst r.
  rewrite (HttpFacts.listener_candidates now _
             (connectionPath i "additional-candidates") "" i c connections);
    auto.
Qed.

Lemma polling_related (i : ChannelId) (ticks : list Tick) :
  isId i = true ->
  forall (polled unasked : list WebRTCConnection) (cp cu : WebRTCConnection)
         (pre : list Candidate),
    getConnection i polled = Some cp ->
    getConnection i unasked = Some cu ->
    additionalCandidates cu = pre ++ additionalCandidates cp ->
    set_additionalCandidates [] cp = set_additionalCandidates [] cu ->
    exists c1 c0,
      getConnection i (fst (polling i ticks polled)) = Some c1
      /\ getConnection i (fst (polling i (unpolled ticks) unasked)) = Some c0
      /\ pre ++ snd (polling i ticks polled) ++ additionalCandidates c1
         = additionalCandidates c0
      /\ set_additionalCandidates [] c1 = set_additionalCandidates [] c0.
Proof.
  intros Hi. induction ticks as [|[now candidate|now] rest IH];
    intros polled unasked cp cu pre Hp Hu Hqueue Hsame.
  - exists cp, cu. simpl. auto.
  - cbn [unpolled List.filter polling]. fold (unpolled rest). rewrite Hp, Hu.
    pose proof (ServerFacts.getConnection_Some _ _ _ Hp) as [_ Hidp].
    pose proof (ServerFacts.getConnection_Some _ _ _ Hu) as [_ Hidu].
    injection Hsame as _ Hstate Hpc Httl Haudio Hvideo HaudioMap HvideoMap Hdata Hwaits.
    apply (IH _ _ (dispatchIceCandidate now candidate cp)
                  (dispatchIceCandidate now candidate cu) pre).
    + rewrite <- Hidp.
      apply (ServerFacts.putConnection_getConnection cp
               (dispatchIceCandidate now candidate cp)).
      simpl. rewrite Hidp. exact Hp.
    + rewrite <- Hidu.
      apply (ServerFacts.putConnection_getConnection cu
               (dispatchIceCandidate now candidate cu)).
      simpl. rewrite Hidu. exact Hu.
    + simpl. rewrite Hqueue, Hwaits, <- app_assoc. reflexivity.
    + unfold dispatchIceCandidate, set_waits, set_additionalCandidates. simpl.
      congruence.
  - cbn [unpolled List.filter polling]. fold (unpolled rest).
    destruct (poll_response now i cp polled Hi Hp) as [Hfst Hfetch].
    rewrite Hfetch, Hfst. cbn [fst snd].
    pose proof (ServerFacts.getConnection_Some _ _ _ Hp) as [_ Hidp].
    destruct (IH (putConnection (set_additionalCandidates [] cp) polled) unasked
                 (set_additionalCandidates [] cp) cu (pre ++ additionalCandidates cp))
      as (c1 & c0 & H1 & H0 & Hq & Hs).
    + rewrite <- Hidp.
      apply (ServerFacts.putConnection_getConnection cp
               (set_additionalCandidates [] cp)).
      simpl. rewrite Hidp. exact Hp.
    + exact Hu.
    + simpl. rewrite app_nil_r. exact Hqueue.
    + rewrite <- Hsame. reflexivity.
    + exists c1, c0. split; [exact H1|]. split; [exact H0|]. split; [|exact Hs].
      rewrite <- Hq, <- !app_assoc. reflexivity.
Qed.

(** Polling loses, repeats and reorders nothing.  Whatever the order in
    which candidates are gathered and the client's poll timers fire: the
    candidates the client has installed, followed by those still queued
    on the server, are the queue as it would stand had the client never
    polled; and the connection is otherwise the same. *)
Theorem polling_loses_nothing (i : ChannelId) (c : WebRTCConnection)
    (connections : list WebRTCConnection) (ticks : list Tick) :
  isId i = true -> getConnection i connections = Some c ->
  exists c1 c0,
    getConnection i (fst (polling i ticks connections)) = Some c1
    /\ getConnection i (fst (polling i (unpolled ticks) connections)) = Some c0
    /\ snd (polling i ticks connections) ++ additionalCandidates c1
       = additionalCandidates c0
    /\ set_additionalCandidates [] c1 = set_additionalCandidates [] c0.
Proof.
  intros Hi Hget.
  apply (polling_related i ticks Hi connections connections c c []);
    auto.
Qed.

End Polling.

(** One connection over a prompt transport; two candidates, a poll, a
    third candidate, another poll, a fourth candidate. *)
Lemma polling_loses_nothing_witness :
  let a := "AAAAAAAAAAAAAAAAAAAAAAAA" in
  let ticks := [Gathered 1 (Some "c1"); Gathered 2 (Some "c2"); Polled 50;
                Gathered 60 (Some "c3"); Polled 140; Gathered 150 (Some "c4")] in
  exists connections,
    @applyAll promptTransport (mkOptions None (Some true)) [Create 0 a DNull] []
    = Some connections
    /\ snd (@polling promptTransport bareShell a ticks connections) = ["c1"; "c2"; "c3"]
    /\ exists c1 c0,
         getConnection a (fst (@polling promptTransport bareShell a ticks connections))
         = Some c1
         /\ getConnection a (fst (@polling promptTransport bareShell a (unpolled ticks)
                                    connections)) = Some c0
         /\ snd (@polling promptTransport bareShell a ticks connections)
            ++ additionalCandidates c1
            = additionalCandidates c0
         /\ set_additionalCandidates [] c1 = set_additionalCandidates [] c0.
Proof.
  intros a ticks. eexists. split; [vm_compute; reflexivity|].
  split; [vm_compute; reflexivity|].
  match goal with
  | |- context [polling a ticks [?c]] =>
      apply (@polling_loses_nothing promptTransport bareShell a c [c] ticks);
        vm_compute; reflexivity
  end.
Defined.

(** *** The listener on any request *)

Section AnyRequest.

Context `{T : Transport} `{S : Shell}.

Ltac branch :=
  match goal with
  | |- context [match ?x with _ => _ end] =>
      lazymatch x with
      | context [match _ with _ => _ end] => fail
      | _ => destruct x eqn:?
      end
  end.

(** Whatever the request, a completed response carries 200, 400, 404 or
    500, or else the status the connections manager gave to a request
    for a new connection, and that only when it lies in 100..599. *)
Theorem status_codes (now : Z) (req : Request) (connections : list WebRTCConnection)
    (code : Z) :
  statusCode (snd (listener now req connections)) = Some code ->
  (code = 200 \/ code = 400 \/ code = 404 \/ code = 500)
  \/ (isMethod "POST" req = true
      /\ pathname req = Some (root ++ "/connections")%string
      /\ exists created connections1,
           managerCreate (authorization req) now connections
           = Some (created, connections1)
           /\ status created = code /\ 100 <= code < 600).
Proof.
  unfold listener.
  repeat branch; cbn [snd statusCode endWith endResponse write setHeader ended head
                      freshResponse default];
    intros [= <-]; auto.
  right.
  repeat match goal with
         | H : (_ && _)%bool = true |- _ => apply andb_true_iff in H as [? ?]
         | H : String.eqb _ _ = true |- _ => apply String.eqb_eq in H
         | H : (_ <=? _) = true |- _ => apply Z.leb_le in H
         | H : (_ <? _) = true |- _ => apply Z.ltb_lt in H
         end.
  subst. split; [assumption|]. split; [reflexivity|]. eauto 10.
Qed.

(** A request below the root whose body could be read is left without
    an answer in exactly these cases: it has no method, or it is a
    [POST] that reaches the [close] branch with exactly one identifier
    in its path.  Every other such request is completed. *)
Theorem unanswered_requests (now : Z) (req : Request) (p : string)
    (connections : list WebRTCConnection) :
  pathname req = Some p -> test rootRegEx p = true ->
  ended (snd (listener now req connections)) = false
  <-> body req <> None
      /\ (method req = None \/ method req = Some ""%string
          \/ (method req = Some "POST"%string
              /\ String.eqb p (root ++ "/connections") = false
              /\ test (connectionRegEx "remote-description") p = false
              /\ test (connectionRegEx "close") p = true
              /\ exists i, matchIds p = [i])).
Proof.
  intros Hp Hroot. unfold listener, isMethod. rewrite Hp, Hroot. cbn [negb].
  destruct (method req) as [m|] eqn:Hm; cbv beta iota.
  2:{ destruct (body req); cbn [snd ended endWith setHeader]; split.
      - intros _. split; [discriminate | auto].
      - reflexivity.
      - discriminate.
      - intros [Hb _]. congruence. }
  destruct (String.eqb m "OPTIONS") eqn:Hopt.
  { apply String.eqb_eq in Hopt as ->. cbn [snd ended endWith]. split; [discriminate|].
    intros (_ & [H|[H|(H & _)]]); discriminate H. }
  destruct (body req) as [b|].
  2:{ cbn [snd ended endWith]. split; [discriminate|]. intros [Hb _]. congruence. }
  destruct m as [|a m].
  { cbn [snd ended setHeader]. split; [|reflexivity].
    intros _. split; [discriminate | auto]. }
  cbv beta iota.
  remember (String a m) as m' eqn:Em.
  assert (Hne : Some m' <> Some ""%string) by (subst m'; discriminate).
  clear Em a m.
  destruct (String.eqb m' "POST") eqn:Hpost.
  - apply String.eqb_eq in Hpost as ->. clear Hopt.
    replace (String.eqb "POST" "GET") with false by reflexivity.
    cbn [andb].
    repeat branch; cbn [snd ended endWith endResponse write setHeader];
      (split;
       [ first [ discriminate
               | intros _; split; [discriminate|];
                 right; right; repeat split; eauto ]
       | first [ reflexivity
               | intros (_ & [H|[H|(_ & H1 & H2 & H3 & i & H4)]]);
                 first [discriminate H | congruence] ] ]).
  - cbn [andb].
    repeat branch; cbn [snd ended endWith endResponse write setHeader];
      (split; [discriminate|]);
      intros (_ & [H|[H|(H & _)]]);
      first [discriminate H | congruence | injection H as ->; discriminate Hpost].
Qed.

(** A request that is not a [POST] changes nothing in the registry but,
    at most, the queue of additional candidates of one connection, which
    it empties. *)
Theorem only_post_rewires (now : Z) (req : Request)
    (connections : list WebRTCConnection) :
  isMethod "POST" req = false ->
  Forall2 (fun c c' => c' = c \/ c' = set_additionalCandidates [] c)
          connections (fst (listener now req connections)).
Proof.
  intros Hpost. unfold listener. rewrite Hpost. cbn [andb].
  repeat branch; cbn [fst];
    first [ apply Forall_Forall2_diag, Forall_forall; auto
          | match goal with
            | H : getConnection _ _ = Some ?c |- _ =>
                apply (ServerWiring.putConnection_related _ c); auto;
                apply ServerFacts.getConnection_Some in H as H'; destruct H' as [_ <-];
                exact H
            end ].
Qed.

End AnyRequest.

Lemma status_codes_witness :
  let unauthorized :=
    Build_Shell (fun _ => []) (fun _ _ cs => Some (mkCreated 401 None DUndefined, cs))
                (fun _ => None) in
  let req := request "POST" (root ++ "/connections") in
  statusCode (snd (@listener promptTransport unauthorized 0 req [])) = Some 401
  /\ ((401 = 200 \/ 401 = 400 \/ 401 = 404 \/ 401 = 500)
      \/ (isMethod "POST" req = true
          /\ pathname req = Some (root ++ "/connections")%string
          /\ exists created connections1,
               @managerCreate unauthorized (authorization req) 0 []
               = Some (created, connections1)
               /\ status created = 401 /\ 100 <= 401 < 600)).
Proof.
  intros unauthorized req. split; [reflexivity|].
  apply (@status_codes promptTransport unauthorized 0 req [] 401). reflexivity.
Defined.

Lemma unanswered_requests_witness :
  let p := connectionPath "0123456789abcdefghijKLMN" "close" in
  ended (snd (@listener promptTransport bareShell 0 (request "POST" p) [])) = false.
Proof.
  intros p.
  apply (proj2 (@unanswered_requests promptTransport bareShell 0 (request "POST" p) p []
                  eq_refl eq_refl)).
  split; [discriminate|]. right. right.
  split; [reflexivity|]. split; [reflexivity|]. split; [reflexivity|].
  split; [reflexivity|]. eexists. vm_compute. reflexivity.
Defined.

Lemma only_post_rewires_witness :
  let a := "AAAAAAAAAAAAAAAAAAAAAAAA" in
  exists connections,
    @applyAll promptTransport (mkOptions None (Some true))
      [Create 0 a DNull; Ice 1 a (Some "candidate:1")] []
    = Some connections
    /\ List.map additionalCandidates connections = [["candidate:1"]]
    /\ Forall2 (fun c c' => c' = c \/ c' = set_additionalCandidates [] c)
         connections
         (fst (@listener promptTransport bareShell 2
                 (request "GET" (connectionPath a "additional-candidates"))
                 connections)).
Proof.
  intros a. eexists. split; [vm_compute; reflexivity|].
  split; [vm_compute; reflexivity|].
  apply (@only_post_rewires promptTransport bareShell). reflexivity.
Defined.

End HttpEdges.
